(** * eufs_sim track generator: a shallow embedding of TrackGenerator.py

    The development follows the layers of the Python module:

    - [Overlap]: the lattice overlap checker ([compactify_points],
      [check_if_overlap]) over integer points, executable;
    - [Facade]: presets, the active configuration, coordinate normalisation
      ([convert_points_to_all_positive]), the Circle&Line composer's control
      flow and the retry loop of [TrackGenerator.generate], over exact
      rationals, executable.  The geometry that the composer obtains from
      trigonometric primitives and from the random source is an explicit
      oracle argument;
    - [Primitives]: the segment generators ([generate_straight],
      [generate_constant_turn], [generate_constant_turn_until_facing_point])
      over the real numbers, because they call [tan], [sqrt], [cos], [sin],
      [acos] and [atan2];
    - [Bezier]: the Bezier generator ([get_parametric_bezier],
      [get_random_bezier] and the points of [generate_bezier_track]), over
      the real numbers;
    - [Hairpin]: [generate_hairpin_turn], over the real numbers;
    - [TrackGen]: the cone ordering of track_gen.py ([remove_point],
      [find_closest], [order_points], [generate_midpoints]) over arrays of
      [int64] entries, with their wrap-around, and of [float64] entries, with
      [nan], executable.

    Python floats are read as exact numbers (rationals where only field
    operations, [min], [max] and [int] are applied, reals elsewhere); rounding
    of the binary64 format is not modelled.  [math.tan] is read as the real
    tangent: at a pole of the tangent the float code still computes a (large)
    number, and the reading says nothing about the code there
    ([tan_defined]).  Python exceptions are values of an
    error monad.  The helpers of LauncherUtilities.py ([magnitude],
    [normalize_vec], [calculate_vector_angle], [calculate_tangent_angle],
    [calculate_tangent_vector]) are not part of the sources at hand and are
    modelled from the specification. *)

From Stdlib Require Import ZArith QArith Qminmax Qround Reals Lia List String.
From Stdlib Require Lqa Lra.
From stdpp Require Import gmap list.

(** ** Python exceptions and the error monad *)

Inductive exn : Type :=
| GenerationFailedException
| ZeroDivisionError
| IndexError
| NameError
| ValueError
| LinAlgError.

Inductive result (A : Type) : Type :=
| Ok (a : A)
| Raise (e : exn).

Arguments Ok {A} a.
Arguments Raise {A} e.

Definition bind {A B : Type} (r : result A) (k : A -> result B) : result B :=
  match r with
  | Ok a => k a
  | Raise e => Raise e
  end.

Notation "'let*' p ':=' r 'in' k" := (bind r (fun p => k))
  (at level 10, p pattern, r at level 100, k at level 200).

(** [l[-1]]: the last element, [IndexError] on an empty list. *)
Definition py_last {A : Type} (l : list A) : result A :=
  match last l with
  | Some a => Ok a
  | None => Raise IndexError
  end.

(** [l[i]] for a non-negative index. *)
Definition py_index {A : Type} (l : list A) (i : nat) : result A :=
  match l !! i with
  | Some a => Ok a
  | None => Raise IndexError
  end.

(** ** The overlap checker *)

Module Overlap.

Local Open Scope Z_scope.

(** A point of the integer lattice: the tuples [(int(x), int(y))] that
    [generate] and the composer hand to the checker. *)
Definition point : Type := (Z * Z)%type.

(** [make_int] of [compactify_points]; on a tuple of ints [int] is the
    identity. *)
Definition make_int (tup : point) : point := tup.

(** The first loop of [compactify_points]: the indices [a] whose point equals
    the point before it ([prev_point], initially [(-10000,-10000)]). *)
Fixpoint remove_list (points : list point) (prev_point : point) (a : nat)
  : list nat :=
  match points with
  | [] => []
  | p :: rest =>
      (if decide (make_int p = make_int prev_point) then [a] else [])
        ++ remove_list rest p (S a)
  end.

(** The second loop: [del points[index]] for the indices in decreasing
    order.  [remove_list] is increasing, so [sorted(.., reverse=True)] is its
    reversal. *)
Definition compactify_points (points : list point) : list point :=
  foldl (fun pts index => delete index pts) points
        (reverse (remove_list points (-10000, -10000) 0%nat)).

(** One iteration of the loop of [check_if_overlap] at [index]: the list is
    extended at its end when the step from [points[index-1]] to
    [points[index]] has Manhattan distance above 1. *)
Definition diagonal_step (points : list point) (index : nat) : list point :=
  match points !! (index - 1)%nat, points !! index with
  | Some (sx, sy), Some (ex, ey) =>
      let manhattan_distance := Z.abs (ex - sx) + Z.abs (ey - sy) in
      if manhattan_distance >? 1
      then points ++ [if ex >? sx then (sx + 1, sy) else (sx - 1, sy)]
      else points
  | _, _ => points
  end.

(** [check_if_overlap]: [points[:-10]] is a fresh list (the caller's list is
    not touched); [range(1,len(points))] is evaluated once, before the loop
    appends. *)
Definition check_if_overlap (points : list point) : bool :=
  let points := take (length points - 10)%nat points in
  let points := foldl diagonal_step points (seq 1 (length points - 1)) in
  negb (size (list_to_set points : gset point) =? length points)%nat.

(** *** The checker as the specification words it *)

(** The synthetic point for one consecutive pair, if its Manhattan distance
    exceeds 1. *)
Definition synthetic_point (s e : point) : list point :=
  let '(sx, sy) := s in
  let '(ex, ey) := e in
  if Z.abs (ex - sx) + Z.abs (ey - sy) >? 1
  then [if ex >? sx then (sx + 1, sy) else (sx - 1, sy)]
  else [].

Fixpoint synthetic_points (l : list point) : list point :=
  match l with
  | s :: (e :: _) as rest => synthetic_point s e ++ synthetic_points rest
  | _ => []
  end.

(** Drop the final 10 points, then append one synthetic point per diagonal
    pair. *)
Definition preprocessed (points : list point) : list point :=
  let kept := take (length points - 10)%nat points in
  kept ++ synthetic_points kept.



(** Consecutive duplicates removed, by structural recursion. *)
Fixpoint compact_from (prev : point) (l : list point) : list point :=
  match l with
  | [] => []
  | p :: rest =>
      if decide (p = prev) then compact_from p rest
      else p :: compact_from p rest
  end.

(** No two neighbours of [l] are the same point. *)
Definition no_adjacent_duplicates (l : list point) : Prop :=
  forall (i : nat) (p q : point), l !! i = Some p -> l !! S i = Some q -> p <> q.

(** The point [p] moved by [(dx, dy)]. *)
Definition translate (dx dy : Z) (p : point) : point := (fst p + dx, snd p + dy).

(** *** Test paths *)





(** *** [compactify_points] removes exactly the consecutive duplicates *)

Lemma compactify_points_from (l pre : list point) (prev : point) :
  foldl (fun pts index => delete index pts) (pre ++ l)
        (reverse (remove_list l prev (length pre)))
  = pre ++ compact_from prev l.
Proof.
  revert pre prev.
  induction l as [|p rest IH]; intros pre prev; simpl; [reflexivity|].
  rewrite reverse_app, foldl_app.
  specialize (IH (pre ++ [p]) p).
  rewrite length_app in IH; simpl in IH.
  replace (length pre + 1)%nat with (S (length pre)) in IH by lia.
  rewrite <- app_assoc in IH; simpl in IH.
  rewrite IH, <- app_assoc; simpl.
  unfold make_int.
  destruct (decide (p = prev)) as [->|Hne]; simpl; [|reflexivity].
  apply delete_middle.
Qed.

Lemma compactify_points_compact (l : list point) :
  compactify_points l = compact_from (-10000, -10000) l.
Proof. exact (compactify_points_from l [] (-10000, -10000)). Qed.

Lemma compact_from_idempotent (l : list point) (prev : point) :
  compact_from prev (compact_from prev l) = compact_from prev l.
Proof.
  revert prev.
  induction l as [|p rest IH]; intros prev; simpl; [reflexivity|].
  destruct (decide (p = prev)) as [->|Hne]; [apply IH|].
  simpl. destruct (decide (p = prev)); [contradiction|].
  now rewrite IH.
Qed.

Lemma compactify_points_idempotent (l : list point) :
  compactify_points (compactify_points l) = compactify_points l.
Proof.
  rewrite !compactify_points_compact. apply compact_from_idempotent.
Qed.

(** *** The loop of [check_if_overlap] appends the synthetic points *)

Lemma synthetic_points_snoc (l : list point) (e : point) :
  synthetic_points (l ++ [e])
  = synthetic_points l
      ++ match last l with Some s => synthetic_point s e | None => [] end.
Proof.
  induction l as [|s [|s' rest] IH]; simpl.
  - reflexivity.
  - now rewrite app_nil_r.
  - simpl in IH. rewrite IH, app_assoc. reflexivity.
Qed.

Lemma diagonal_step_inside (t acc : list point) (k : nat) (s e : point) :
  t !! k = Some s -> t !! S k = Some e ->
  diagonal_step (t ++ acc) (S k) = t ++ acc ++ synthetic_point s e.
Proof.
  intros Hs He. unfold diagonal_step.
  replace (S k - 1)%nat with k by lia.
  rewrite (lookup_app_l_Some _ _ _ _ Hs), (lookup_app_l_Some _ _ _ _ He).
  destruct s as [sx sy], e as [ex ey]; simpl.
  destruct (Z.abs (ex - sx) + Z.abs (ey - sy) >? 1).
  - now rewrite <- app_assoc.
  - now rewrite app_nil_r.
Qed.

Lemma diagonal_loop_prefix (t acc : list point) (k : nat) :
  (S k <= length t)%nat ->
  foldl diagonal_step (t ++ acc) (seq 1 k)
  = t ++ acc ++ synthetic_points (take (S k) t).
Proof.
  induction k as [|k IH]; intros Hk.
  - simpl. destruct t as [|s t']; simpl in *; [lia|].
    rewrite ?take_0. simpl. now rewrite app_nil_r.
  - rewrite seq_S, foldl_snoc, IH by lia. simpl.
    destruct (lookup_lt_is_Some_2 t k) as [s Hs]; [lia|].
    destruct (lookup_lt_is_Some_2 t (S k)) as [e He]; [lia|].
    rewrite (take_S_r t (S k) e He), synthetic_points_snoc.
    rewrite last_lookup, length_take, lookup_take_lt by lia.
    replace (Init.Nat.pred (S k `min` length t)) with k by lia.
    rewrite Hs.
    rewrite (diagonal_step_inside t _ k s e Hs He).
    now rewrite <- !app_assoc.
Qed.

Lemma diagonal_loop (t : list point) :
  foldl diagonal_step t (seq 1 (length t - 1)) = t ++ synthetic_points t.
Proof.
  destruct t as [|s t']; [reflexivity|].
  pose proof (diagonal_loop_prefix (s :: t') [] (length t')) as H.
  rewrite app_nil_r in H. simpl length. replace (S (length t') - 1)%nat with (length t') by lia.
  rewrite H by (simpl; lia).
  replace (S (length t')) with (length (s :: t')) by reflexivity.
  now rewrite firstn_all.
Qed.

(** *** [len(set(points)) != len(points)] detects a repeated element *)

Lemma size_list_to_set_le (l : list point) :
  (size (list_to_set l : gset point) <= length l)%nat.
Proof.
  induction l as [|x l IH].
  - now rewrite list_to_set_nil, size_empty.
  - rewrite list_to_set_cons, size_union_alt, size_singleton. simpl length.
    assert (size (list_to_set l ∖ {[x]} : gset point)
            <= size (list_to_set l : gset point))%nat as Hle.
    { apply subseteq_size. intros y [Hy _]%elem_of_difference. exact Hy. }
    lia.
Qed.

Lemma size_list_to_set_NoDup (l : list point) :
  size (list_to_set l : gset point) = length l <-> NoDup l.
Proof.
  split; [|apply size_list_to_set].
  induction l as [|x l IH]; intros Hsz; [constructor|].
  rewrite list_to_set_cons in Hsz. simpl length in Hsz.
  destruct (decide (x ∈ l)) as [Hin|Hnin].
  - exfalso.
    assert (({[x]} ∪ list_to_set l : gset point) = list_to_set l) as Heq
      by (apply subseteq_union_1_L; set_solver).
    rewrite Heq in Hsz. pose proof (size_list_to_set_le l). lia.
  - constructor; [exact Hnin|]. apply IH.
    rewrite size_union, size_singleton in Hsz by set_solver. lia.
Qed.


Lemma check_if_overlap_preprocessed (points : list point) :
  check_if_overlap points
  = negb (size (list_to_set (preprocessed points) : gset point)
          =? length (preprocessed points))%nat.
Proof.
  unfold check_if_overlap, preprocessed. cbv zeta.
  now rewrite diagonal_loop.
Qed.




(** C10.  A list of at most 10 points is never classified as
    self-intersecting: [points[:-10]] leaves nothing to compare. *)
Theorem check_if_overlap_short (points : list point) :
  (length points <= 10)%nat -> check_if_overlap points = false.
Proof.
  intros Hlen. rewrite check_if_overlap_preprocessed.
  unfold preprocessed. cbv zeta.
  replace (length points - 10)%nat with 0%nat by lia.
  rewrite take_0. reflexivity.
Qed.

Lemma check_if_overlap_short_witness :
  check_if_overlap [(0, 0); (1, 1); (0, 0); (1, 1); (0, 0)] = false.
Proof.
  apply (check_if_overlap_short [(0, 0); (1, 1); (0, 0); (1, 1); (0, 0)]).
  simpl. lia.
Defined.

(** *** More on [compactify_points] *)

Lemma compact_from_head (prev : point) (l : list point) :
  head (compact_from prev l) <> Some prev.
Proof.
  revert prev. induction l as [|p rest IH]; intros prev; simpl; [discriminate|].
  destruct (decide (p = prev)) as [->|Hne]; [apply IH|].
  simpl. congruence.
Qed.

Lemma no_adjacent_duplicates_cons (p : point) (l : list point) :
  head l <> Some p -> no_adjacent_duplicates l ->
  no_adjacent_duplicates (p :: l).
Proof.
  intros Hhead Hl [|i] a b; simpl.
  - intros [= <-] Hb. destruct l as [|c l']; [discriminate|].
    simpl in *. injection Hb as <-. congruence.
  - apply Hl.
Qed.

Lemma compact_from_no_adjacent (prev : point) (l : list point) :
  no_adjacent_duplicates (compact_from prev l).
Proof.
  revert prev. induction l as [|p rest IH]; intros prev; simpl.
  - intros i a b Ha. now rewrite lookup_nil in Ha.
  - destruct (decide (p = prev)) as [->|Hne]; [apply IH|].
    apply no_adjacent_duplicates_cons; [apply compact_from_head|apply IH].
Qed.

Lemma compact_from_sublist (prev : point) (l : list point) :
  sublist (compact_from prev l) l.
Proof.
  revert prev. induction l as [|p rest IH]; intros prev; simpl; [constructor|].
  destruct (decide (p = prev)).
  - apply sublist_cons. apply IH.
  - apply sublist_skip. apply IH.
Qed.

Lemma compact_from_keeps (prev p : point) (l : list point) :
  p ∈ l -> p <> prev -> p ∈ compact_from prev l.
Proof.
  revert prev. induction l as [|a rest IH]; intros prev Hin Hne.
  - now apply elem_of_nil in Hin.
  - simpl. apply elem_of_cons in Hin as [->|Hin].
    + destruct (decide (a = prev)); [contradiction|]. now left.
    + destruct (decide (a = prev)) as [->|Ha].
      * now apply IH.
      * destruct (decide (p = a)) as [->|Hpa]; [now left|].
        right. now apply IH.
Qed.

Lemma compact_from_fixed (prev : point) (l : list point) :
  compact_from prev l = l
  <-> no_adjacent_duplicates l /\ head l <> Some prev.
Proof.
  split.
  - intros <-. split; [apply compact_from_no_adjacent|apply compact_from_head].
  - revert prev. induction l as [|p rest IH]; intros prev [Hadj Hhead];
      simpl; [reflexivity|].
    destruct (decide (p = prev)) as [->|Hne]; [now simpl in Hhead|].
    f_equal. apply IH. split.
    + intros i a b Ha Hb. exact (Hadj (S i) a b Ha Hb).
    + destruct rest as [|q rest']; [discriminate|]. simpl.
      intros [= ->]. exact (Hadj 0%nat p p eq_refl eq_refl eq_refl).
Qed.

(** X1.  The list that [compactify_points] returns has no two equal
    neighbours, keeps the order of the input (it is a sublist of it), still
    holds every point of the input other than the sentinel
    [(-10000,-10000)], and is never longer than the input. *)
Theorem compactify_points_removes_adjacent_duplicates (points : list point) :
  no_adjacent_duplicates (compactify_points points)
  /\ sublist (compactify_points points) points
  /\ (forall p, p ∈ points -> p <> (-10000, -10000) ->
        p ∈ compactify_points points)
  /\ (length (compactify_points points) <= length points)%nat.
Proof.
  rewrite compactify_points_compact.
  split; [apply compact_from_no_adjacent|].
  split; [apply compact_from_sublist|].
  split; [intros p; apply compact_from_keeps|].
  apply sublist_length, compact_from_sublist.
Qed.

(** X2.  [compactify_points] returns its input unchanged exactly when the
    input has no two equal neighbours and does not start with the sentinel
    [(-10000,-10000)], the initial value of [prev_point]; a path that starts
    with that point loses it. *)
Theorem compactify_points_fixed_points :
  (forall points : list point,
      compactify_points points = points
      <-> no_adjacent_duplicates points
          /\ head points <> Some (-10000, -10000))
  /\ (forall points : list point,
         compactify_points ((-10000, -10000) :: points)
         = compactify_points points).
Proof.
  split.
  - intros points. rewrite compactify_points_compact. apply compact_from_fixed.
  - intros points. rewrite !compactify_points_compact. cbn [compact_from].
    now rewrite decide_True by reflexivity.
Qed.

(** *** More on [check_if_overlap] *)

Lemma check_if_overlap_NoDup (points : list point) :
  check_if_overlap points = false <-> NoDup (preprocessed points).
Proof.
  rewrite check_if_overlap_preprocessed, negb_false_iff, Nat.eqb_eq.
  apply size_list_to_set_NoDup.
Qed.

Lemma synthetic_point_translate (dx dy : Z) (s e : point) :
  synthetic_point (translate dx dy s) (translate dx dy e)
  = map (translate dx dy) (synthetic_point s e).
Proof.
  destruct s as [sx sy], e as [ex ey]. unfold synthetic_point, translate.
  cbn [fst snd].
  replace (ex + dx - (sx + dx)) with (ex - sx) by lia.
  replace (ey + dy - (sy + dy)) with (ey - sy) by lia.
  destruct (Z.abs (ex - sx) + Z.abs (ey - sy) >? 1); [|reflexivity].
  replace (ex + dx >? sx + dx) with (ex >? sx) by lia.
  destruct (ex >? sx); cbn [map fst snd]; do 2 f_equal; lia.
Qed.

Lemma synthetic_points_translate (dx dy : Z) (l : list point) :
  synthetic_points (map (translate dx dy) l)
  = map (translate dx dy) (synthetic_points l).
Proof.
  induction l as [|s [|e rest] IH]; [reflexivity..|].
  cbn [map synthetic_points] in *.
  now rewrite synthetic_point_translate, IH, map_app.
Qed.

Lemma preprocessed_translate (dx dy : Z) (l : list point) :
  preprocessed (map (translate dx dy) l)
  = map (translate dx dy) (preprocessed l).
Proof.
  unfold preprocessed. cbv zeta.
  rewrite length_map, firstn_map, synthetic_points_translate, map_app.
  reflexivity.
Qed.

Lemma translate_inj (dx dy : Z) : Inj (=) (=) (translate dx dy).
Proof.
  intros [a b] [c d]. unfold translate. cbn [fst snd].
  intros [= H1 H2]. f_equal; lia.
Qed.

(** X3.  The verdict of [check_if_overlap] does not depend on where the
    path lies on the lattice: moving every point by the same integer vector
    leaves it unchanged. *)
Theorem check_if_overlap_translation (dx dy : Z) (points : list point) :
  check_if_overlap (map (translate dx dy) points) = check_if_overlap points.
Proof.
  pose proof (check_if_overlap_NoDup (map (translate dx dy) points)) as Ht.
  pose proof (check_if_overlap_NoDup points) as Hp.
  rewrite preprocessed_translate in Ht.
  change (map (translate dx dy) (preprocessed points))
    with (translate dx dy <$> preprocessed points) in Ht.
  rewrite (@NoDup_fmap _ _ (translate dx dy) (translate_inj dx dy)) in Ht.
  destruct (check_if_overlap points) eqn:Hov.
  - destruct (check_if_overlap (map _ points)) eqn:Hov'; [reflexivity|].
    rewrite <- Hp in Ht. destruct Ht as [Ht _]. now specialize (Ht eq_refl).
  - now apply Ht, Hp.
Qed.

Lemma synthetic_points_app (a b : list point) :
  exists r, synthetic_points (a ++ b) = synthetic_points a ++ r.
Proof.
  induction b as [|e b IH] using rev_ind.
  - exists []. now rewrite !app_nil_r.
  - destruct IH as [r Hr]. rewrite app_assoc, synthetic_points_snoc, Hr.
    eexists. now rewrite <- app_assoc.
Qed.

Lemma preprocessed_extension (points more : list point) :
  sublist (preprocessed points) (preprocessed (points ++ more)).
Proof.
  unfold preprocessed. cbv zeta.
  set (n := (length points - 10)%nat).
  set (kept' := take (length (points ++ more) - 10)%nat (points ++ more)).
  assert (take n points = take n kept') as Hkept.
  { subst kept' n. rewrite take_take, length_app.
    replace ((length points - 10) `min` (length points + length more - 10))%nat
      with (length points - 10)%nat by lia.
    rewrite take_app_le by lia. reflexivity. }
  clearbody kept'. rewrite <- (take_drop n kept'), <- Hkept.
  destruct (synthetic_points_app (take n points) (drop n kept')) as [r ->].
  apply sublist_app; apply sublist_inserts_r; reflexivity.
Qed.

(** X4.  Once a path is reported as self-intersecting, every extension of
    it is reported too: what the early check of the composer rejects, the
    check of the finished track would reject as well. *)
Theorem check_if_overlap_extension (points more : list point) :
  check_if_overlap points = true -> check_if_overlap (points ++ more) = true.
Proof.
  intros Hov.
  destruct (check_if_overlap (points ++ more)) eqn:Hext; [reflexivity|].
  apply check_if_overlap_NoDup in Hext.
  eapply sublist_NoDup in Hext; [|apply preprocessed_extension].
  apply check_if_overlap_NoDup in Hext. congruence.
Qed.

Lemma check_if_overlap_extension_witness :
  check_if_overlap
    ([(0, 0); (1, 0); (0, 0); (1, 0); (2, 0); (3, 0); (4, 0); (5, 0); (6, 0);
      (7, 0); (8, 0); (9, 0); (10, 0)] ++ [(11, 0); (12, 1)]) = true.
Proof.
  apply (check_if_overlap_extension
           [(0, 0); (1, 0); (0, 0); (1, 0); (2, 0); (3, 0); (4, 0); (5, 0);
            (6, 0); (7, 0); (8, 0); (9, 0); (10, 0)] [(11, 0); (12, 1)]).
  vm_compute. reflexivity.
Defined.

(** X5.  The last ten points of a path never influence the verdict: two
    paths that differ only in their last ten points get the same one. *)
Theorem check_if_overlap_tail_exempt (points tail1 tail2 : list point) :
  length tail1 = 10%nat -> length tail2 = 10%nat ->
  check_if_overlap (points ++ tail1) = check_if_overlap (points ++ tail2).
Proof.
  intros H1 H2. rewrite !check_if_overlap_preprocessed.
  unfold preprocessed. cbv zeta. rewrite !length_app, H1, H2.
  replace (length points + 10 - 10)%nat with (length points) by lia.
  now rewrite !take_app_length.
Qed.

Lemma check_if_overlap_tail_exempt_witness :
  check_if_overlap
    ([(0, 0); (1, 1); (2, 2)]
       ++ [(2, 2); (1, 1); (0, 0); (1, 1); (2, 2); (2, 2); (1, 1); (0, 0);
           (1, 1); (2, 2)])
  = check_if_overlap
      ([(0, 0); (1, 1); (2, 2)]
         ++ [(3, 3); (4, 4); (5, 5); (6, 6); (7, 7); (8, 8); (9, 9); (10, 10);
             (11, 11); (12, 12)]).
Proof.
  apply (check_if_overlap_tail_exempt [(0, 0); (1, 1); (2, 2)]); reflexivity.
Defined.

End Overlap.

(** ** Presets, configuration, normalisation, composer and retry loop *)

Module Facade.

Import Overlap.
Import Lqa.
Local Open Scope string_scope.
Local Open Scope list_scope.
Local Open Scope Q_scope.

(** A point with float coordinates, read as exact rationals. *)
Definition qpoint : Type := (Q * Q)%type.

(** [int(x)] on a float: truncation toward zero. *)
Definition py_int (x : Q) : Z :=
  if Qle_bool 0 x then Qfloor x else Qceiling x.

(** [(int(x[0]), int(x[1]))]. *)
Definition int_point (x : qpoint) : point := (py_int (fst x), py_int (snd x)).

(** An int tuple used where float tuples are expected. *)
Definition of_point (p : point) : qpoint := (inject_Z (fst p), inject_Z (snd p)).

(** *** Presets *)

Definition get_presets : list (string * list Q) :=
  [ ("Contest Rules",     [10; 80; 10; 25; 4.5; 10; 3; 1500; 0; 0]);
    ("Small Straights",   [5; 40; 10; 25; 4.5; 10; 3; 700; 1; 0]);
    ("Computer Friendly", [10; 80; 5; 15; 4.5; 10; 3; 500; 1; 0]);
    ("Bezier",            [10; 80; 5; 15; 4.5; 10; 3; 500; 1; 1]) ].

Definition get_default_preset : string := "Small Straights".

Definition get_preset_names : list string := map fst get_presets.

(** The names bound at module level of TrackGenerator.py: its imports, the
    two classes and the module-level functions.  A bare name inside a
    function body, a static method included, is resolved in the local scope,
    then here, then among the builtins; the attributes of the class
    [TrackGenerator] are not in scope and are reached as
    [TrackGenerator.<name>] only. *)
Definition module_level_names : list string :=
  [ "math"; "Image"; "ImageDraw"; "randrange"; "uniform"; "rospy"; "binom";
    "np"; "GenerationFailedException"; "TrackGenerator";
    "generate_bezier_track"; "get_random_bezier"; "get_parametric_bezier";
    "generate_autocross_trackdrive_track";
    "generate_path_from_point_to_point"; "generate_hairpin_turn";
    "generate_constant_turn_until_facing_point"; "get_parametric_circle";
    "generate_constant_turn"; "generate_straight";
    "convert_points_to_all_positive"; "compactify_points";
    "check_if_overlap" ].

(** Modelled from the spec: LauncherUtilities.py, imported with
    [from LauncherUtilities import *], is not among the sources.  The
    specification describes it as the vector and angle utilities; its exports
    are taken to be the helpers that TrackGenerator.py calls. *)
Definition launcher_utilities_names : list string :=
  [ "calculate_vector_from_angle"; "calculate_tangent_angle";
    "calculate_tangent_vector"; "calculate_vector_angle"; "cap_angle";
    "magnitude"; "normalize_vec" ].

(** The attributes of the class [TrackGenerator]. *)
Definition class_attributes : list string :=
  [ "get_presets"; "get_default_mode_string"; "get_default_mode_number";
    "get_mode_from_number"; "get_number_from_mode"; "get_default_preset";
    "get_preset_names"; "get_preset"; "set_preset"; "set_data"; "generate" ].

(** Resolution of a bare name in a function body (no local of that name). *)
Definition resolve_bare_name (name : string) : result unit :=
  if bool_decide (name ∈ (module_level_names ++ launcher_utilities_names))
  then Ok tt
  else Raise NameError.

(** The loop of [get_preset] over the preset table. *)
Definition find_preset (name : string) : option (list Q) :=
  snd <$> find (fun a => String.eqb (fst a) name) get_presets.

(** [TrackGenerator.get_preset]: the diagnostics sent to [rospy.logerr], in
    order, and the value returned or exception raised.  The fallback is the
    call of the bare name [get_preset]; were that name bound to this method,
    the call would return the "Contest Rules" entry. *)
Definition get_preset (name : string) : list string * result (list Q) :=
  match find_preset name with
  | Some values => ([], Ok values)
  | None =>
      ( [ ("No such preset: " ++ name)%string; "Defaulting to Contest Rules" ],
        let* _ := resolve_bare_name "get_preset" in
        match find_preset "Contest Rules" with
        | Some values => Ok values
        | None => Raise NameError
        end )
  end.

(** *** The active configuration *)

Record config : Type := {
  MIN_STRAIGHT : Q;
  MAX_STRAIGHT : Q;
  MIN_CONSTANT_TURN : Q;
  MAX_CONSTANT_TURN : Q;
  MIN_HAIRPIN : Q;
  MAX_HAIRPIN : Q;
  MAX_HAIRPIN_NUM : Q;
  MIN_HAIRPIN_NUM : Z;
  MAX_TRACK_LENGTH : Q;
  LAX_GENERATION : bool;
  TRACK_MODE : string
}.

Definition get_mode_from_number (num : Q) : string :=
  if Qeq_bool num 0 then "Circle&Line"
  else if Qeq_bool num 1 then "Bezier"
  else "Circle&Line".

(** [get_default_mode_string], [get_number_from_mode] and
    [get_default_mode_number]. *)
Definition get_default_mode_string : string := "Circle&Line".

Definition get_number_from_mode (mode : string) : Z :=
  if String.eqb mode "Circle&Line" then 0%Z
  else if String.eqb mode "Bezier" then 1%Z
  else 0%Z.

Definition get_default_mode_number : Z :=
  get_number_from_mode get_default_mode_string.

(** [a > b] on floats. *)
Definition Qgtb (a b : Q) : bool := negb (Qle_bool a b).

(** [TrackGenerator.set_data]: the class attributes after the assignments;
    [values[i]] raises [IndexError] on a short list. *)
Definition set_data (values : list Q) : result config :=
  let* v0 := py_index values 0 in
  let* v1 := py_index values 1 in
  let* v2 := py_index values 2 in
  let* v3 := py_index values 3 in
  let* v4 := py_index values 4 in
  let* v5 := py_index values 5 in
  let* v6 := py_index values 6 in
  let* v7 := py_index values 7 in
  let* v8 := py_index values 8 in
  let* v9 := py_index values 9 in
  Ok {| MIN_STRAIGHT := v0;
        MAX_STRAIGHT := v1;
        MIN_CONSTANT_TURN := v2;
        MAX_CONSTANT_TURN := v3;
        MIN_HAIRPIN := v4;
        MAX_HAIRPIN := v5;
        MAX_HAIRPIN_NUM := v6;
        MIN_HAIRPIN_NUM := if Qgtb v6 0 then 1%Z else 0%Z;
        MAX_TRACK_LENGTH := v7;
        LAX_GENERATION := Qeq_bool v8 1;
        TRACK_MODE := get_mode_from_number v9 |}.

(** [TrackGenerator.set_preset]. *)
Definition set_preset (name : string) : result config :=
  let* values := snd (get_preset name) in
  set_data values.

(** *** Normalisation *)

(** The first loop of [convert_points_to_all_positive]:
    [(max_neg_x, max_neg_y, max_x, max_y)], all starting at 0. *)
Definition extent (xys : list qpoint) : Q * Q * Q * Q :=
  foldl (fun '(max_neg_x, max_neg_y, max_x, max_y) '(x, y) =>
           (Qmin x max_neg_x, Qmin y max_neg_y, Qmax x max_x, Qmax y max_y))
        (0, 0, 0, 0) xys.

Definition padding : Q := 10.

(** A candidate or result: [(xys, width, height)]. *)
Definition candidate : Type := (list qpoint * Z * Z)%type.

Definition convert_points_to_all_positive (xys : list qpoint) : candidate :=
  let '(max_neg_x, max_neg_y, max_x, max_y) := extent xys in
  ( map (fun '(x, y) => ((x - max_neg_x) + padding, (y - max_neg_y) + padding))
        xys,
    (py_int (max_x - max_neg_x) + 2 * 10)%Z,
    (py_int (max_y - max_neg_y) + 2 * 10)%Z ).

(** *** The Circle&Line composer *)

(** What a primitive hands back to the composer: the generated points and the
    length it reports. *)
Definition segment : Type := (list qpoint * Q)%type.

(** The geometry of one pass through the body of
    [generate_autocross_trackdrive_track].  The points come from the segment
    generators, which draw from the random source and call trigonometric
    functions; here they are given.  A [result] holds what the call returned
    or the exception it raised. *)
Record pass_oracle : Type := {
  (** points of the opening [generate_straight] of length [MIN_STRAIGHT] *)
  first_straight : list qpoint;
  (** [generate_path_from_point_to_point] towards the goal point of that
      index: [(generated, length)] *)
  checkpoint_leg : nat -> result segment;
  (** the leg to the approach point beside the start *)
  approach_leg : result segment;
  (** the two closing [generate_constant_turn] calls *)
  closing_turn : result segment;
  return_turn : result segment;
  (** [magnitude(xys[-1] - start_point) * 1.1] *)
  straight_length : Q;
  (** points of the final [generate_straight] of that length *)
  final_straight : list qpoint
}.

Definition goal_points (cfg : config) (start_point : qpoint) : list qpoint :=
  let '(sx, sy) := start_point in
  [ (sx + MAX_TRACK_LENGTH cfg * 0.08, sy);
    (sx + MAX_TRACK_LENGTH cfg * 0.12, sy + MAX_TRACK_LENGTH cfg * 0.08);
    (sx - MAX_TRACK_LENGTH cfg * 0.03, sy + MAX_TRACK_LENGTH cfg * 0.12) ].

Definition max_fails : Z := 1.

(** The loop over the goal points, from the goal of index [g] on.  It ends
    with [inl test] at the [return (test,0,0)] and with [inr] of the path and
    its length when the goals are exhausted.  [prev_xys = xys] binds a second
    name to the same list, so after [xys.extend(generated)] the assignment
    [xys = prev_xys] keeps the extended list. *)
Fixpoint checkpoint_loop (o : pass_oracle) (goals : list qpoint) (g : nat)
    (xys : list qpoint) (cur_track_length : Q) (fails : Z)
  : result (list point + list qpoint * Q) :=
  match goals with
  | [] => Ok (inr (xys, cur_track_length))
  | _ :: goals' =>
      let* (generated, length) := checkpoint_leg o g in
      let cur_track_length := cur_track_length + length in
      let xys := (xys ++ generated) in
      let test := compactify_points (map int_point xys) in
      if check_if_overlap test then
        let fails := (fails + 1)%Z in
        let cur_track_length := cur_track_length - length in
        if (fails =? max_fails)%Z then Ok (inl test)
        else checkpoint_loop o goals' (S g) xys cur_track_length fails
      else checkpoint_loop o goals' (S g) xys cur_track_length fails
  end.

(** How one pass ends: with a value for the caller, or with the recursive
    call that starts over. *)
Inductive pass_exit : Type :=
| Finished (c : candidate)
| Restart.

(** The final constraint check, for the path [xys]. *)
Definition constraint_check (cfg : config) (straight_length cur_track_length : Q)
    (xys : list qpoint) : pass_exit :=
  if negb (LAX_GENERATION cfg) then
    if Qgtb (straight_length + MIN_STRAIGHT cfg) (MAX_STRAIGHT cfg) then Restart
    else if Qgtb cur_track_length 1500 then Restart
    else Finished (convert_points_to_all_positive xys)
  else Finished (convert_points_to_all_positive xys).

(** One pass through the body of [generate_autocross_trackdrive_track]. *)
Definition compose_pass (cfg : config) (start_point : qpoint) (o : pass_oracle)
  : result pass_exit :=
  let cur_track_length := 0 in
  let generated := first_straight o in
  let delta_length := MIN_STRAIGHT cfg in
  let* _ := py_last generated in
  let cur_track_length := cur_track_length + delta_length in
  let xys := generated in
  let* r := checkpoint_loop o (goal_points cfg start_point) 0 xys
                            cur_track_length 0 in
  match r with
  | inl test => Ok (Finished (map of_point test, 0%Z, 0%Z))
  | inr (xys, cur_track_length) =>
      let* (generated, length) := approach_leg o in
      let cur_track_length := cur_track_length + length in
      let xys := (xys ++ generated) in
      let* (generated, length) := closing_turn o in
      let cur_track_length := cur_track_length + length in
      let xys := (xys ++ generated) in
      let* _ := py_last generated in
      let* (generated, length) := return_turn o in
      let cur_track_length := cur_track_length + length in
      let* _ := py_last generated in
      let xys := (xys ++ generated) in
      let generated := final_straight o in
      let delta_length := straight_length o in
      let* _ := py_last generated in
      let cur_track_length := cur_track_length + delta_length in
      let xys := (xys ++ generated) in
      Ok (constraint_check cfg (straight_length o) cur_track_length xys)
  end.

(** [generate_autocross_trackdrive_track]: a failed constraint check calls
    the function again, which draws a fresh pass.  [None]: the passes given
    do not suffice to finish the call. *)
Fixpoint generate_autocross_trackdrive_track (cfg : config)
    (start_point : qpoint) (passes : list pass_oracle)
  : option (result candidate) :=
  match passes with
  | [] => None
  | o :: passes' =>
      match compose_pass cfg start_point o with
      | Raise e => Some (Raise e)
      | Ok (Finished c) => Some (Ok c)
      | Ok Restart => generate_autocross_trackdrive_track cfg start_point passes'
      end
  end.

(** [generate_bezier_track]: the 404 sampled points are given. *)
Definition generate_bezier_track (xys : list qpoint) : option (result candidate) :=
  Some (Ok (convert_points_to_all_positive xys)).

(** *** The retry loop of [TrackGenerator.generate] *)

(** What the random source and the geometry supply to one call of
    [generate_function]. *)
Record attempt_oracle : Type := {
  circle_line_passes : list pass_oracle;
  bezier_points : list qpoint
}.

Definition generate_function (cfg : config) (a : attempt_oracle)
  : option (result candidate) :=
  if String.eqb (TRACK_MODE cfg) "Circle&Line"
  then generate_autocross_trackdrive_track cfg (0, 0) (circle_line_passes a)
  else generate_bezier_track (bezier_points a).

(** The overlap test that [generate] applies to a candidate. *)
Definition overlapped (c : candidate) : bool :=
  let '(xys, _, _) := c in
  check_if_overlap (compactify_points (map int_point xys)).

Definition is_empty (c : candidate) : bool :=
  match c with
  | ([], _, _) => true
  | _ => false
  end.

(** The [while overlapped or xys==[]] loop; the first test is true because
    [xys] starts empty.  [None]: the attempts given do not suffice. *)
Fixpoint generate_loop (cfg : config) (attempts : list attempt_oracle)
    (failure_count : Z) : option (result candidate) :=
  match attempts with
  | [] => None
  | a :: attempts' =>
      match generate_function cfg a with
      | None => None
      | Some (Raise e) => Some (Raise e)
      | Some (Ok c) =>
          let failure_count :=
            if overlapped c then (failure_count + 1)%Z else failure_count in
          if (failure_count >? 10000)%Z then Some (Raise GenerationFailedException)
          else if overlapped c || is_empty c
               then generate_loop cfg attempts' failure_count
               else Some (Ok c)
      end
  end.

Definition flip_x (twidth : Z) (xys : list qpoint) : list qpoint :=
  map (fun '(x, y) => (- x + inject_Z twidth, y)) xys.

Definition flip_y (theight : Z) (xys : list qpoint) : list qpoint :=
  map (fun '(x, y) => (x, - y + inject_Z theight)) xys.

(** [a < b] on floats. *)
Definition Qltb (a b : Q) : bool := negb (Qle_bool b a).

(** The two reflections after the loop; [flip_draw_x] and [flip_draw_y] are
    the two values of [uniform(0,1)]. *)
Definition random_flip (flip_draw_x flip_draw_y : Q) (c : candidate)
  : candidate :=
  let '(xys, twidth, theight) := c in
  let xys := if Qltb flip_draw_x 0.5 then flip_x twidth xys else xys in
  let xys := if Qltb flip_draw_y 0.5 then flip_y theight xys else xys in
  (xys, twidth, theight).

(** [TrackGenerator.generate(values)]. *)
Definition generate (values : list Q) (attempts : list attempt_oracle)
    (flip_draw_x flip_draw_y : Q) : option (result candidate) :=
  match set_data values with
  | Raise e => Some (Raise e)
  | Ok cfg =>
      match generate_loop cfg attempts 0 with
      | None => None
      | Some (Raise e) => Some (Raise e)
      | Some (Ok c) => Some (Ok (random_flip flip_draw_x flip_draw_y c))
      end
  end.

(** The Generation Result contract: no negative coordinate, and the width and
    height exceed the span of the points' coordinates by 10 or more. *)
Definition result_contract (c : candidate) : Prop :=
  let '(xys, width, height) := c in
  (forall p, p ∈ xys -> 0 <= fst p /\ 0 <= snd p)
  /\ (forall p q, p ∈ xys -> q ∈ xys ->
        (fst p - fst q) + 10 <= inject_Z width
        /\ (snd p - snd q) + 10 <= inject_Z height).

(** Every point lies at least 9 inside the rectangle [width] x [height]; the
    reflections keep this region. *)
Definition boxed (width height : Z) (xys : list qpoint) : Prop :=
  Forall (fun p => (9 <= fst p /\ fst p <= inject_Z width - 9)
                   /\ (9 <= snd p /\ snd p <= inject_Z height - 9)) xys.

(** Where the composer's candidates come from. *)
Inductive candidate_origin : candidate -> Prop :=
| normalised (xys : list qpoint) :
    candidate_origin (convert_points_to_all_positive xys)
| early_overlap (l : list point) :
    check_if_overlap (compactify_points l) = true ->
    candidate_origin (map of_point (compactify_points l), 0%Z, 0%Z).

(** *** Vocabulary for the retry loop *)

Definition accepted (c : candidate) : bool := negb (overlapped c || is_empty c).

(** The number of overlap-rejected candidates among [cs]. *)
Definition rejections (cs : list candidate) : Z :=
  Z.of_nat (length (filter (fun c => overlapped c = true) cs)).

(** The calls of [generate_function] on [attempts] all returned, with the
    candidates [cs] in order. *)
Definition produced (cfg : config) (attempts : list attempt_oracle)
    (cs : list candidate) : Prop :=
  map (generate_function cfg) attempts = map (fun c => Some (Ok c)) cs.

(** The ceiling is hit: a run of candidates, none accepted, brings the
    failure count from [failure_count] to 10001. *)
Definition ceiling_hit (cfg : config) (attempts : list attempt_oracle)
    (failure_count : Z) : Prop :=
  exists (n : nat) (cs : list candidate),
    produced cfg (take n attempts) cs
    /\ Forall (fun c => accepted c = false) cs
    /\ (failure_count + rejections cs = 10001)%Z.

(** The candidate [c] is reached and accepted after a run of candidates, none
    accepted, with at most 10000 failures counted. *)
Definition accepts (cfg : config) (attempts : list attempt_oracle)
    (failure_count : Z) (c : candidate) : Prop :=
  exists (n : nat) (cs : list candidate),
    produced cfg (take n attempts) (cs ++ [c])
    /\ Forall (fun c' => accepted c' = false) cs
    /\ accepted c = true
    /\ (failure_count + rejections cs <= 10000)%Z.

(** [if overlapped: failure_count += 1]. *)
Definition count_failure (failure_count : Z) (c : candidate) : Z :=
  if overlapped c then (failure_count + 1)%Z else failure_count.

(** *** Sample oracles *)

(** A pass whose pieces join into a short arc around the start; no lattice
    point repeats, so every overlap check passes. *)
Definition sample_pass : pass_oracle :=
  {| first_straight := [(0, 0); (1.5, 0.25); (2.5, 0.5)];
     checkpoint_leg := fun g =>
       match g with
       | O => Ok ([(3.5, 0.75); (4.5, 1.25)], 30)
       | S O => Ok ([(5.5, 2.5); (6.25, 3.5)], 35)
       | _ => Ok ([(6.5, 4.5); (6, 5.5)], 40)
       end;
     approach_leg := Ok ([(5, 6.5); (4, 7.25)], 25);
     closing_turn := Ok ([(3, 7.5); (2, 7)], 12);
     return_turn := Ok ([(1, 6); (-0.5, 5)], 14);
     straight_length := 6.6;
     final_straight := [(-0.75, 4); (-0.5, 3)] |}.

Definition sample_attempt : attempt_oracle :=
  {| circle_line_passes := [sample_pass]; bezier_points := [] |}.

(** A pass whose opening straight has no point: what [generate_straight]
    returns for a requested length of 0
    ([Primitives.generate_straight_zero_length]).  The other pieces are never
    reached. *)
Definition pointless_pass : pass_oracle :=
  {| first_straight := [];
     checkpoint_leg := fun _ => Ok ([(1, 1)], 1);
     approach_leg := Ok ([(2, 2)], 1);
     closing_turn := Ok ([(3, 3)], 1);
     return_turn := Ok ([(4, 4)], 1);
     straight_length := 1;
     final_straight := [(5, 5)] |}.

(** A pass that completes with 1000 units accumulated:
    10 + 3 * 250 + 100 + 60 + 70 + 10. *)
Definition long_pass : pass_oracle :=
  {| first_straight := [(0, 0); (9.9, 0)];
     checkpoint_leg := fun g =>
       Ok ([(inject_Z (Z.of_nat g) * 40 + 40, 20)], 250);
     approach_leg := Ok ([(-40, 30)], 100);
     closing_turn := Ok ([(-30, 10)], 60);
     return_turn := Ok ([(-9, 0)], 70);
     straight_length := 10;
     final_straight := [(-8.9, 0); (-0.1, 0)] |}.

(** A pass whose first leg walks back over the opening straight: the early
    overlap check fails at the first goal point. *)
Definition crossing_pass : pass_oracle :=
  {| first_straight := [ (0, 0); (1, 0); (2, 0); (3, 0); (4, 0); (5, 0) ];
     checkpoint_leg := fun _ =>
       Ok ([ (4, 0); (3, 0); (2, 0); (1, 0); (0, 0); (-1, 0); (-2, 0); (-3, 0);
             (-4, 0); (-5, 0); (-6, 0); (-7, 0); (-8, 0); (-9, 0) ], 14);
     approach_leg := Ok ([(2, 2)], 1);
     closing_turn := Ok ([(3, 3)], 1);
     return_turn := Ok ([(4, 4)], 1);
     straight_length := 1;
     final_straight := [(5, 5)] |}.

(** Lax generation off, maximum track length 500. *)
Definition short_track_values : list Q := [10; 80; 10; 25; 4.5; 10; 3; 500; 0; 0].

(** The "Contest Rules" preset. *)
Definition contest_rules : list Q := [10; 80; 10; 25; 4.5; 10; 3; 1500; 0; 0].

(** The "Bezier" preset. *)
Definition bezier_values : list Q := [10; 80; 5; 15; 4.5; 10; 3; 500; 1; 1].

(** Thirteen sampled points that revisit [(0,0)] and [(1,0)] before the
    exempted tail. *)
Definition crossing_attempt : attempt_oracle :=
  {| circle_line_passes := [];
     bezier_points := [ (0, 0); (1, 0); (0, 0); (1, 0); (2, 0); (3, 0); (4, 0);
                        (5, 0); (6, 0); (7, 0); (8, 0); (9, 0); (10, 0) ] |}.

(** Two sampled points: nothing to overlap. *)
Definition clean_attempt : attempt_oracle :=
  {| circle_line_passes := []; bezier_points := [(1, 1); (2.5, -3)] |}.

(** The length and the points that a segment contributes. *)
Definition segment_length (r : result segment) : Q :=
  match r with
  | Ok (_, length) => length
  | Raise _ => 0
  end.

Definition segment_points (r : result segment) : list qpoint :=
  match r with
  | Ok (generated, _) => generated
  | Raise _ => []
  end.

(** [xys] at the final check of a pass that met no early overlap and no
    exception. *)
Definition accumulated_path (o : pass_oracle) : list qpoint :=
  first_straight o
  ++ segment_points (checkpoint_leg o 0)
  ++ segment_points (checkpoint_leg o 1)
  ++ segment_points (checkpoint_leg o 2)
  ++ segment_points (approach_leg o)
  ++ segment_points (closing_turn o)
  ++ segment_points (return_turn o)
  ++ final_straight o.

(** [cur_track_length] at the final check of such a pass. *)
Definition accumulated_length (cfg : config) (o : pass_oracle) : Q :=
  0 + MIN_STRAIGHT cfg
  + segment_length (checkpoint_leg o 0)
  + segment_length (checkpoint_leg o 1)
  + segment_length (checkpoint_leg o 2)
  + segment_length (approach_leg o)
  + segment_length (closing_turn o)
  + segment_length (return_turn o)
  + straight_length o.

(** Lax generation off, a minimum straight length of 0. *)
Definition pointless_values : list Q := [0; 80; 10; 25; 4.5; 10; 3; 1500; 0; 0].

(** *** Normalisation and the result contract *)

Lemma py_int_inject_Z (z : Z) : py_int (inject_Z z) = z.
Proof.
  unfold py_int. destruct (Qle_bool 0 (inject_Z z)).
  - apply Qfloor_Z.
  - apply Qceiling_Z.
Qed.

Lemma int_point_of_point (p : point) : int_point (of_point p) = p.
Proof.
  destruct p as [x y]. unfold int_point, of_point. simpl.
  now rewrite !py_int_inject_Z.
Qed.

Lemma py_int_upper (x : Q) : 0 <= x -> x < inject_Z (py_int x) + 1.
Proof.
  intros Hx. unfold py_int.
  apply Qle_bool_iff in Hx. rewrite Hx.
  pose proof (Qlt_floor x) as H. rewrite inject_Z_plus in H. exact H.
Qed.

Lemma extent_from (xys : list qpoint) (a b c d : Q) :
  match foldl (fun '(max_neg_x, max_neg_y, max_x, max_y) '(x, y) =>
           (Qmin x max_neg_x, Qmin y max_neg_y, Qmax x max_x, Qmax y max_y))
        (a, b, c, d) xys with
  | (mnx, mny, mxx, mxy) =>
      (mnx <= a /\ mny <= b /\ c <= mxx /\ d <= mxy)
      /\ Forall (fun p => (mnx <= fst p /\ fst p <= mxx)
                          /\ (mny <= snd p /\ snd p <= mxy)) xys
  end.
Proof.
  revert a b c d.
  induction xys as [|[x y] xys IH]; intros a b c d; simpl.
  - repeat split; try apply Qle_refl. constructor.
  - specialize (IH (Qmin x a) (Qmin y b) (Qmax x c) (Qmax y d)).
    destruct (foldl _ _ xys) as [[[mnx mny] mxx] mxy].
    destruct IH as [(H1 & H2 & H3 & H4) HF].
    pose proof (Q.le_min_l x a). pose proof (Q.le_min_r x a).
    pose proof (Q.le_min_l y b). pose proof (Q.le_min_r y b).
    pose proof (Q.le_max_l x c). pose proof (Q.le_max_r x c).
    pose proof (Q.le_max_l y d). pose proof (Q.le_max_r y d).
    split; [repeat split; lra|].
    constructor; [simpl; repeat split; lra | exact HF].
Qed.

Lemma convert_points_boxed (xys : list qpoint) :
  let '(new_xys, width, height) := convert_points_to_all_positive xys in
  boxed width height new_xys.
Proof.
  unfold convert_points_to_all_positive, extent.
  pose proof (extent_from xys 0 0 0 0) as H.
  destruct (foldl _ _ xys) as [[[mnx mny] mxx] mxy].
  destruct H as [(H1 & H2 & H3 & H4) HF].
  unfold boxed. rewrite Forall_map.
  pose proof (py_int_upper (mxx - mnx)) as Hw.
  pose proof (py_int_upper (mxy - mny)) as Hh.
  rewrite !inject_Z_plus. change (inject_Z (2 * 10)) with 20.
  eapply Forall_impl; [exact HF|].
  intros [x y]; simpl. unfold padding. intros [[Hx1 Hx2] [Hy1 Hy2]].
  assert (0 <= mxx - mnx) as Hx0 by lra.
  assert (0 <= mxy - mny) as Hy0 by lra.
  specialize (Hw Hx0). specialize (Hh Hy0).
  repeat split; lra.
Qed.

Lemma flip_x_boxed (width height : Z) (xys : list qpoint) :
  boxed width height xys -> boxed width height (flip_x width xys).
Proof.
  unfold boxed, flip_x. rewrite Forall_map.
  intros H. eapply Forall_impl; [exact H|].
  intros [x y]; simpl. lra.
Qed.

Lemma flip_y_boxed (width height : Z) (xys : list qpoint) :
  boxed width height xys -> boxed width height (flip_y height xys).
Proof.
  unfold boxed, flip_y. rewrite Forall_map.
  intros H. eapply Forall_impl; [exact H|].
  intros [x y]; simpl. lra.
Qed.

Lemma boxed_result_contract (width height : Z) (xys : list qpoint) :
  boxed width height xys -> result_contract (xys, width, height).
Proof.
  unfold boxed, result_contract. rewrite Forall_forall.
  intros H. split.
  - intros p Hp. specialize (H p Hp). lra.
  - intros p q Hp Hq. pose proof (H p Hp). pose proof (H q Hq). lra.
Qed.

Lemma checkpoint_loop_early (o : pass_oracle) (goals : list qpoint) (g : nat)
    (xys : list qpoint) (len : Q) (fails : Z) (test : list point) :
  checkpoint_loop o goals g xys len fails = Ok (inl test) ->
  exists l, test = compactify_points l
            /\ check_if_overlap (compactify_points l) = true.
Proof.
  revert g xys len fails.
  induction goals as [|goal goals IH]; intros g xys len fails; simpl.
  - discriminate.
  - destruct (checkpoint_leg o g) as [[generated length]|e]; simpl; [|discriminate].
    destruct (check_if_overlap
                (compactify_points (map int_point (xys ++ generated))))
      eqn:Hov.
    + destruct (fails + 1 =? max_fails)%Z.
      * intros [= Htest]. subst test. eexists; split; [reflexivity|exact Hov].
      * apply IH.
    + apply IH.
Qed.

Lemma compose_pass_origin (cfg : config) (sp : qpoint) (o : pass_oracle)
    (c : candidate) :
  compose_pass cfg sp o = Ok (Finished c) -> candidate_origin c.
Proof.
  unfold compose_pass.
  destruct (py_last (first_straight o)); simpl; [|discriminate].
  destruct (checkpoint_loop _ _ _ _ _ _) as [[test|[xys len]]|e] eqn:Hloop;
    simpl; [| |discriminate].
  - intros [= <-].
    apply checkpoint_loop_early in Hloop as (l & -> & Hov).
    now constructor.
  - destruct (approach_leg o) as [[g1 l1]|]; simpl; [|discriminate].
    destruct (closing_turn o) as [[g2 l2]|]; simpl; [|discriminate].
    destruct (py_last g2); simpl; [|discriminate].
    destruct (return_turn o) as [[g3 l3]|]; simpl; [|discriminate].
    destruct (py_last g3); simpl; [|discriminate].
    destruct (py_last (final_straight o)); simpl; [|discriminate].
    unfold constraint_check.
    destruct (negb _); [destruct (Qgtb _ _); [discriminate|];
                        destruct (Qgtb _ _); [discriminate|]|];
      intros [= <-]; constructor.
Qed.

Lemma composer_origin (cfg : config) (sp : qpoint) (passes : list pass_oracle)
    (c : candidate) :
  generate_autocross_trackdrive_track cfg sp passes = Some (Ok c) ->
  candidate_origin c.
Proof.
  induction passes as [|o passes IH]; simpl; [discriminate|].
  destruct (compose_pass cfg sp o) as [[c'|]|e] eqn:Hpass.
  - intros [= <-]. exact (compose_pass_origin _ _ _ _ Hpass).
  - exact IH.
  - discriminate.
Qed.

Lemma generate_function_origin (cfg : config) (a : attempt_oracle)
    (c : candidate) :
  generate_function cfg a = Some (Ok c) -> candidate_origin c.
Proof.
  unfold generate_function, generate_bezier_track.
  destruct (String.eqb _ _).
  - apply composer_origin.
  - intros [= <-]. constructor.
Qed.

Lemma map_int_point_of_point (l : list point) :
  map int_point (map of_point l) = l.
Proof.
  induction l as [|p l IH]; simpl; [reflexivity|].
  now rewrite int_point_of_point, IH.
Qed.

Lemma early_overlap_rejected (l : list point) :
  check_if_overlap (compactify_points l) = true ->
  overlapped (map of_point (compactify_points l), 0%Z, 0%Z) = true.
Proof.
  intros Hov. unfold overlapped.
  now rewrite map_int_point_of_point, compactify_points_idempotent.
Qed.

Lemma origin_accepted_boxed (c : candidate) :
  candidate_origin c -> overlapped c = false ->
  let '(xys, width, height) := c in boxed width height xys.
Proof.
  intros [xys|l Hov] Hacc.
  - apply convert_points_boxed.
  - rewrite (early_overlap_rejected l Hov) in Hacc. discriminate.
Qed.

Lemma generate_loop_returns (cfg : config) (attempts : list attempt_oracle)
    (failure_count : Z) (c : candidate) :
  generate_loop cfg attempts failure_count = Some (Ok c) ->
  exists a, a ∈ attempts /\ generate_function cfg a = Some (Ok c)
            /\ overlapped c = false /\ is_empty c = false.
Proof.
  revert failure_count.
  induction attempts as [|a attempts IH]; intros fc; simpl; [discriminate|].
  destruct (generate_function cfg a) as [[c'|e]|] eqn:Hgen; [|discriminate..].
  destruct (_ >? _)%Z; [discriminate|].
  destruct (overlapped c') eqn:Hov; simpl.
  - intros H. destruct (IH _ H) as (a' & Hin & Hrest).
    exists a'. split; [now right|exact Hrest].
  - destruct (is_empty c') eqn:Hemp.
    + intros H. destruct (IH _ H) as (a' & Hin & Hrest).
      exists a'. split; [now right|exact Hrest].
    + intros [= <-]. exists a. repeat split; [now left|assumption..].
Qed.

(** *** The retry loop *)

Lemma rejections_cons (c : candidate) (cs : list candidate) :
  rejections (c :: cs)
  = ((if overlapped c then 1 else 0) + rejections cs)%Z.
Proof.
  unfold rejections. rewrite filter_cons.
  destruct (decide (overlapped c = true)) as [->|Hn].
  - simpl length. lia.
  - destruct (overlapped c); [contradiction|]. lia.
Qed.

Lemma rejections_nonneg (cs : list candidate) : (0 <= rejections cs)%Z.
Proof. unfold rejections. lia. Qed.

Lemma produced_nil (cfg : config) (cs : list candidate) :
  produced cfg [] cs <-> cs = [].
Proof.
  unfold produced. split.
  - destruct cs; [reflexivity|discriminate].
  - now intros ->.
Qed.

Lemma produced_cons (cfg : config) (a : attempt_oracle)
    (attempts : list attempt_oracle) (cs : list candidate) :
  produced cfg (a :: attempts) cs
  <-> exists c cs', cs = c :: cs' /\ generate_function cfg a = Some (Ok c)
                    /\ produced cfg attempts cs'.
Proof.
  unfold produced. split.
  - destruct cs as [|c cs']; simpl; [discriminate|].
    intros [= Hgen Hrest]. now exists c, cs'.
  - intros (c & cs' & -> & Hgen & Hrest). simpl. now rewrite Hgen, Hrest.
Qed.

Lemma ceiling_hit_now (cfg : config) (attempts : list attempt_oracle) :
  ceiling_hit cfg attempts 10001.
Proof.
  exists 0%nat, []. simpl.
  split; [now apply produced_nil|]. split; [constructor|].
  unfold rejections. simpl. lia.
Qed.

Lemma ceiling_hit_nil (cfg : config) (failure_count : Z) :
  (failure_count <= 10000)%Z -> ~ ceiling_hit cfg [] failure_count.
Proof.
  intros Hfc (n & cs & Hprod & _ & Hcount).
  rewrite take_nil in Hprod. apply produced_nil in Hprod as ->.
  unfold rejections in Hcount. simpl in Hcount. lia.
Qed.

Lemma ceiling_hit_cons (cfg : config) (a : attempt_oracle)
    (attempts : list attempt_oracle) (failure_count : Z) :
  (failure_count <= 10000)%Z ->
  ceiling_hit cfg (a :: attempts) failure_count
  <-> exists c, generate_function cfg a = Some (Ok c)
                /\ accepted c = false
                /\ ceiling_hit cfg attempts (count_failure failure_count c).
Proof.
  intros Hfc. unfold ceiling_hit, count_failure. split.
  - intros (n & cs & Hprod & Hall & Hcount).
    destruct n as [|n]; simpl in Hprod.
    + apply produced_nil in Hprod as ->.
      unfold rejections in Hcount. simpl in Hcount. lia.
    + apply produced_cons in Hprod as (c & cs' & -> & Hgen & Hprod).
      inversion Hall as [|? ? Hacc Hall']; subst.
      exists c. split; [assumption|]. split; [assumption|].
      exists n, cs'. split; [assumption|]. split; [assumption|].
      rewrite rejections_cons in Hcount. destruct (overlapped c); lia.
  - intros (c & Hgen & Hacc & n & cs & Hprod & Hall & Hcount).
    exists (S n), (c :: cs). simpl.
    split; [|split; [now constructor|]].
    + apply produced_cons. now exists c, cs.
    + rewrite rejections_cons. destruct (overlapped c); lia.
Qed.

Lemma accepts_nil (cfg : config) (failure_count : Z) (c : candidate) :
  ~ accepts cfg [] failure_count c.
Proof.
  intros (n & cs & Hprod & _). rewrite take_nil in Hprod.
  apply produced_nil in Hprod. now destruct cs.
Qed.

Lemma accepts_cons (cfg : config) (a : attempt_oracle)
    (attempts : list attempt_oracle) (failure_count : Z) (c : candidate) :
  (failure_count <= 10000)%Z ->
  accepts cfg (a :: attempts) failure_count c
  <-> exists c0, generate_function cfg a = Some (Ok c0)
        /\ ((accepted c0 = true /\ c0 = c)
            \/ (accepted c0 = false
                /\ (count_failure failure_count c0 <= 10000)%Z
                /\ accepts cfg attempts (count_failure failure_count c0) c)).
Proof.
  intros Hfc. unfold accepts, count_failure. split.
  - intros (n & cs & Hprod & Hall & Hacc & Hcount).
    destruct n as [|n]; simpl in Hprod.
    + apply produced_nil in Hprod. now destruct cs.
    + apply produced_cons in Hprod as (c0 & cs' & Heq & Hgen & Hprod).
      exists c0. split; [assumption|].
      destruct cs as [|c1 cs1]; simpl in Heq.
      * injection Heq as -> <-. now left.
      * injection Heq as -> <-. right.
        inversion Hall as [|? ? Hacc0 Hall']; subst.
        rewrite rejections_cons in Hcount.
        pose proof (rejections_nonneg cs1).
        split; [assumption|]. split; [destruct (overlapped c0); lia|].
        exists n, cs1.
        split; [assumption|]. split; [assumption|]. split; [assumption|].
        destruct (overlapped c0); lia.
  - intros (c0 & Hgen & [[Hacc ->]|(Hacc0 & Hle & n & cs & Hprod & Hall & Hacc & Hcount)]).
    + exists 1%nat, []. simpl.
      split; [|split; [constructor|split; [assumption|]]].
      * apply produced_cons. exists c, [].
        split; [reflexivity|]. split; [assumption|]. now apply produced_nil.
      * unfold rejections. simpl. lia.
    + exists (S n), (c0 :: cs). simpl.
      split; [|split; [now constructor|split; [assumption|]]].
      * apply produced_cons. now exists c0, (cs ++ [c]).
      * rewrite rejections_cons. destruct (overlapped c0); lia.
Qed.

Lemma generate_loop_raises (cfg : config) (attempts : list attempt_oracle)
    (failure_count : Z) :
  (failure_count <= 10000)%Z ->
  (forall a, a ∈ attempts ->
     generate_function cfg a <> Some (Raise GenerationFailedException)) ->
  generate_loop cfg attempts failure_count
    = Some (Raise GenerationFailedException)
  <-> ceiling_hit cfg attempts failure_count.
Proof.
  revert failure_count.
  induction attempts as [|a attempts IH]; intros fc Hfc Hprim.
  - simpl. split; [discriminate|]. intros H. now apply ceiling_hit_nil in H.
  - assert (forall a', a' ∈ attempts ->
              generate_function cfg a' <> Some (Raise GenerationFailedException))
      as Hprim' by (intros a' Ha'; apply Hprim; now right).
    assert (generate_function cfg a <> Some (Raise GenerationFailedException))
      as Hprim0 by (apply Hprim; now left).
    rewrite (ceiling_hit_cons cfg a attempts fc Hfc). simpl.
    destruct (generate_function cfg a) as [[c|e]|] eqn:Hgen.
    + fold (count_failure fc c).
      destruct (count_failure fc c >? 10000)%Z eqn:Hceil.
      * assert (overlapped c = true /\ count_failure fc c = 10001%Z) as [Hov Hc].
        { unfold count_failure in *. destruct (overlapped c); split; (reflexivity || lia). }
        split; [intros _|reflexivity].
        exists c. repeat split.
        -- unfold accepted. now rewrite Hov.
        -- rewrite Hc. apply ceiling_hit_now.
      * destruct (overlapped c || is_empty c) eqn:Hrej.
        -- rewrite IH by (assumption || lia). split.
           ++ intros H. exists c. repeat split; [|assumption].
              unfold accepted. now rewrite Hrej.
           ++ now intros (c' & [= <-] & _ & H).
        -- split; [discriminate|].
           intros (c' & [= <-] & Hacc & _).
           unfold accepted in Hacc. rewrite Hrej in Hacc. discriminate.
    + split.
      * intros [= ->]. contradiction.
      * now intros (c & Hc & _).
    + split; [discriminate|]. now intros (c & Hc & _).
Qed.

Lemma generate_loop_accepts (cfg : config) (attempts : list attempt_oracle)
    (failure_count : Z) (c : candidate) :
  (failure_count <= 10000)%Z ->
  generate_loop cfg attempts failure_count = Some (Ok c)
  <-> accepts cfg attempts failure_count c.
Proof.
  revert failure_count.
  induction attempts as [|a attempts IH]; intros fc Hfc.
  - simpl. split; [discriminate|]. intros H. now apply accepts_nil in H.
  - rewrite (accepts_cons cfg a attempts fc c Hfc). simpl.
    destruct (generate_function cfg a) as [[c0|e]|] eqn:Hgen.
    + fold (count_failure fc c0).
      destruct (count_failure fc c0 >? 10000)%Z eqn:Hceil.
      * assert (overlapped c0 = true) as Hov.
        { unfold count_failure in *. destruct (overlapped c0); [reflexivity|lia]. }
        split; [discriminate|].
        intros (c' & [= <-] & [[Hacc _]|(_ & Hle & _)]); [|lia].
        unfold accepted in Hacc. rewrite Hov in Hacc. discriminate.
      * destruct (overlapped c0 || is_empty c0) eqn:Hrej.
        -- rewrite IH by lia. split.
           ++ intros H. exists c0. split; [reflexivity|]. right.
              repeat split; [|lia|assumption].
              unfold accepted. now rewrite Hrej.
           ++ intros (c' & [= <-] & [[Hacc _]|(_ & _ & H)]); [|assumption].
              unfold accepted in Hacc. rewrite Hrej in Hacc. discriminate.
        -- split.
           ++ intros [= <-]. exists c0. split; [reflexivity|]. left.
              unfold accepted. now rewrite Hrej.
           ++ intros (c' & [= <-] & [[_ ->]|(Hacc & _)]); [reflexivity|].
              unfold accepted in Hacc. rewrite Hrej in Hacc. discriminate.
    + split; [discriminate|]. now intros (c' & Hc & _).
    + split; [discriminate|]. now intros (c' & Hc & _).
Qed.

Lemma generate_loop_propagates (cfg : config) (attempts : list attempt_oracle)
    (failure_count : Z) (e : exn) :
  generate_loop cfg attempts failure_count = Some (Raise e) ->
  e = GenerationFailedException
  \/ exists a, a ∈ attempts /\ generate_function cfg a = Some (Raise e).
Proof.
  revert failure_count.
  induction attempts as [|a attempts IH]; intros fc; simpl; [discriminate|].
  destruct (generate_function cfg a) as [[c0|e0]|] eqn:Hgen; [| |discriminate].
  - destruct (_ >? _)%Z; [intros [= <-]; now left|].
    destruct (_ || _); [|discriminate].
    intros H. destruct (IH _ H) as [->|(a' & Hin & Ha')]; [now left|].
    right. exists a'. split; [now right|assumption].
  - intros [= <-]. right. exists a. split; [now left|assumption].
Qed.

Lemma random_flip_boxed (ux uy : Q) (c : candidate) :
  (let '(xys, width, height) := c in boxed width height xys) ->
  let '(xys, width, height) := random_flip ux uy c in boxed width height xys.
Proof.
  destruct c as [[xys w] h]. unfold random_flip. intros Hbox.
  destruct (Qltb uy 0.5), (Qltb ux 0.5);
    auto using flip_x_boxed, flip_y_boxed.
Qed.

(** C1.  Every result that [generate] returns satisfies the Generation
    Result contract, the two random reflections included: no coordinate is
    negative, and the width and height exceed the span of the returned x and
    y coordinates by at least 10. *)
Theorem generate_result_contract (values : list Q)
    (attempts : list attempt_oracle) (flip_draw_x flip_draw_y : Q)
    (c : candidate) :
  generate values attempts flip_draw_x flip_draw_y = Some (Ok c) ->
  result_contract c.
Proof.
  unfold generate.
  destruct (set_data values) as [cfg|e]; [|discriminate].
  destruct (generate_loop cfg attempts 0) as [[c0|e]|] eqn:Hloop;
    [|discriminate..].
  intros [= <-].
  apply generate_loop_returns in Hloop as (a & _ & Hgen & Hov & _).
  apply generate_function_origin in Hgen.
  pose proof (random_flip_boxed flip_draw_x flip_draw_y c0
                (origin_accepted_boxed _ Hgen Hov)) as Hbox.
  destruct (random_flip flip_draw_x flip_draw_y c0) as [[xys w] h].
  now apply boxed_result_contract.
Qed.

Lemma generate_result_contract_witness :
  exists c, generate contest_rules [sample_attempt] 0.25 0.75 = Some (Ok c)
            /\ result_contract c.
Proof.
  eexists. split.
  - vm_compute. reflexivity.
  - apply (generate_result_contract contest_rules [sample_attempt] 0.25 0.75).
    vm_compute. reflexivity.
Defined.

(** C5, as the code has it.  When the configuration loads and no call of the
    candidate generator raises [GenerationFailedException] itself:
    [generate] raises [GenerationFailedException] exactly when a run of
    candidates, none accepted, contains 10001 overlap-rejected ones (the
    failure count exceeds 10000); it returns exactly the reflection of the
    first accepted candidate, which passed the overlap check, reached with at
    most 10000 rejections before it; and every other exception it raises was
    raised by a call of the candidate generator and is passed on unchanged.
    No partial result accompanies an exception. *)
Theorem generate_retry_ceiling (values : list Q) (cfg : config)
    (attempts : list attempt_oracle) (flip_draw_x flip_draw_y : Q) :
  set_data values = Ok cfg ->
  (forall a, a ∈ attempts ->
     generate_function cfg a <> Some (Raise GenerationFailedException)) ->
  (generate values attempts flip_draw_x flip_draw_y
     = Some (Raise GenerationFailedException)
   <-> ceiling_hit cfg attempts 0)
  /\ (forall r,
        generate values attempts flip_draw_x flip_draw_y = Some (Ok r)
        <-> exists c, accepts cfg attempts 0 c
                      /\ overlapped c = false
                      /\ r = random_flip flip_draw_x flip_draw_y c)
  /\ (forall e,
        generate values attempts flip_draw_x flip_draw_y = Some (Raise e) ->
        e = GenerationFailedException
        \/ exists a, a ∈ attempts /\ generate_function cfg a = Some (Raise e)).
Proof.
  intros Hcfg Hprim. unfold generate. rewrite Hcfg.
  split; [|split].
  - rewrite <- (generate_loop_raises cfg attempts 0) by (lia || assumption).
    destruct (generate_loop cfg attempts 0) as [[c|e]|]; split;
      congruence.
  - intros r. split.
    + destruct (generate_loop cfg attempts 0) as [[c|e]|] eqn:Hloop;
        [|discriminate..].
      intros [= <-]. exists c.
      pose proof Hloop as Hret.
      apply generate_loop_returns in Hret as (_ & _ & _ & Hov & _).
      apply generate_loop_accepts in Hloop; [|lia].
      now repeat split.
    + intros (c & Hacc & _ & ->).
      apply generate_loop_accepts in Hacc; [|lia]. now rewrite Hacc.
  - intros e.
    destruct (generate_loop cfg attempts 0) as [[c|e']|] eqn:Hloop;
      [discriminate| |discriminate].
    intros [= <-]. exact (generate_loop_propagates _ _ _ _ Hloop).
Qed.

Lemma generate_retry_ceiling_witness :
  let cfg := {| MIN_STRAIGHT := 10; MAX_STRAIGHT := 80;
                MIN_CONSTANT_TURN := 5; MAX_CONSTANT_TURN := 15;
                MIN_HAIRPIN := 4.5; MAX_HAIRPIN := 10; MAX_HAIRPIN_NUM := 3;
                MIN_HAIRPIN_NUM := 1; MAX_TRACK_LENGTH := 500;
                LAX_GENERATION := true; TRACK_MODE := "Bezier" |} in
  let attempts := [crossing_attempt; clean_attempt] in
  (generate bezier_values attempts 0.25 0.75
     = Some (Raise GenerationFailedException)
   <-> ceiling_hit cfg attempts 0)
  /\ (forall r,
        generate bezier_values attempts 0.25 0.75 = Some (Ok r)
        <-> exists c, accepts cfg attempts 0 c
                      /\ overlapped c = false
                      /\ r = random_flip 0.25 0.75 c)
  /\ (forall e,
        generate bezier_values attempts 0.25 0.75 = Some (Raise e) ->
        e = GenerationFailedException
        \/ exists a, a ∈ attempts /\ generate_function cfg a = Some (Raise e)).
Proof.
  apply (generate_retry_ceiling bezier_values _
           [crossing_attempt; clean_attempt] 0.25 0.75).
  - reflexivity.
  - intros a Ha. unfold generate_function, generate_bezier_track. simpl.
    discriminate.
Defined.

(** A run of [n] rejected candidates only advances the failure count. *)
Lemma generate_loop_rejected_run (cfg : config) (a : attempt_oracle)
    (c : candidate) (rest : list attempt_oracle) (n : nat)
    (failure_count : Z) :
  generate_function cfg a = Some (Ok c) ->
  overlapped c = true ->
  (failure_count + Z.of_nat n <= 10000)%Z ->
  generate_loop cfg (repeat a n ++ rest) failure_count
  = generate_loop cfg rest (failure_count + Z.of_nat n).
Proof.
  intros Hgen Hov. revert failure_count.
  induction n as [|n IH]; intros fc Hfc.
  - simpl. f_equal. lia.
  - cbn [repeat app generate_loop]. rewrite Hgen, Hov.
    replace (fc + 1 >? 10000)%Z with false by lia.
    cbn [orb]. rewrite IH by lia. f_equal. lia.
Qed.

(** The retry ceiling on a concrete run: 10000 rejected candidates followed
    by a clean one still succeed, 10001 rejected candidates fail. *)
Lemma generate_at_the_ceiling :
  generate bezier_values
           (repeat crossing_attempt (Z.to_nat 10000) ++ [clean_attempt])
           0.75 0.75
    = Some (Ok (convert_points_to_all_positive (bezier_points clean_attempt)))
  /\ generate bezier_values
              (repeat crossing_attempt (Z.to_nat 10001) ++ [clean_attempt])
              0.75 0.75
     = Some (Raise GenerationFailedException).
Proof.
  assert (exists cfg, set_data bezier_values = Ok cfg) as [cfg Hcfg]
    by (eexists; reflexivity).
  assert (exists c, generate_function cfg crossing_attempt = Some (Ok c)
                    /\ overlapped c = true) as (c & Hgen & Hov).
  { injection Hcfg as <-. eexists. split; [reflexivity|]. vm_compute. reflexivity. }
  unfold generate. rewrite Hcfg. split.
  - rewrite (generate_loop_rejected_run cfg crossing_attempt c _ _ 0 Hgen Hov)
      by lia.
    injection Hcfg as <-. vm_compute. reflexivity.
  - replace (repeat crossing_attempt (Z.to_nat 10001))
      with (repeat crossing_attempt (Z.to_nat 10000) ++ [crossing_attempt]).
    2:{ rewrite <- repeat_cons.
        replace (Z.to_nat 10001) with (S (Z.to_nat 10000)) by lia.
        reflexivity. }
    rewrite <- app_assoc.
    rewrite (generate_loop_rejected_run cfg crossing_attempt c _ _ 0 Hgen Hov)
      by lia.
    cbn [app generate_loop]. rewrite Hgen, Hov.
    reflexivity.
Qed.

(** C5 as stated fails: with a minimum straight length of 0 the opening
    straight has no point, [generated[-1]] raises [IndexError] inside the
    composer, and [generate] passes it to its caller on the first attempt:
    neither a retry nor [GenerationFailedException]. *)
Lemma generate_surfaces_other_exception :
  generate pointless_values
           [ {| circle_line_passes := [pointless_pass]; bezier_points := [] |};
             sample_attempt ] 0.25 0.75
    = Some (Raise IndexError)
  /\ IndexError <> GenerationFailedException.
Proof. split; [vm_compute; reflexivity|discriminate]. Qed.

(** *** The final constraint check of the composer *)

Lemma checkpoint_loop_completed (o : pass_oracle) (g1 g2 g3 : qpoint)
    (xys xys' : list qpoint) (len len' : Q) :
  checkpoint_loop o [g1; g2; g3] 0 xys len 0 = Ok (inr (xys', len')) ->
  xys' = xys ++ segment_points (checkpoint_leg o 0)
             ++ segment_points (checkpoint_leg o 1)
             ++ segment_points (checkpoint_leg o 2)
  /\ len' = len + segment_length (checkpoint_leg o 0)
            + segment_length (checkpoint_leg o 1)
            + segment_length (checkpoint_leg o 2).
Proof.
  simpl.
  destruct (checkpoint_leg o 0) as [[p0 l0]|]; simpl; [|discriminate].
  destruct (check_if_overlap _); [discriminate|].
  destruct (checkpoint_leg o 1) as [[p1 l1]|]; simpl; [|discriminate].
  destruct (check_if_overlap _); [discriminate|].
  destruct (checkpoint_leg o 2) as [[p2 l2]|]; simpl; [|discriminate].
  destruct (check_if_overlap _); [discriminate|].
  intros [= <- <-]. now rewrite <- !app_assoc.
Qed.

(** A pass that ends with a value either returned [(test,0,0)] from the
    early overlap check or passed the final check with the accumulated length
    of its segments. *)
Lemma compose_pass_final_check (cfg : config) (sp : qpoint) (o : pass_oracle)
    (c : candidate) :
  compose_pass cfg sp o = Ok (Finished c) ->
  (exists test, c = (map of_point test, 0%Z, 0%Z))
  \/ constraint_check cfg (straight_length o) (accumulated_length cfg o)
                      (accumulated_path o)
     = Finished c.
Proof.
  unfold compose_pass.
  destruct (py_last (first_straight o)); simpl; [|discriminate].
  destruct sp as [sx sy]. unfold goal_points.
  destruct (checkpoint_loop _ _ _ _ _ _) as [[test|[xys len]]|e] eqn:Hloop;
    simpl; [| |discriminate].
  - intros [= <-]. left. now exists test.
  - apply checkpoint_loop_completed in Hloop as [-> ->].
    unfold accumulated_length, accumulated_path.
    destruct (approach_leg o) as [[g1 l1]|]; simpl; [|discriminate].
    destruct (closing_turn o) as [[g2 l2]|]; simpl; [|discriminate].
    destruct (py_last g2); simpl; [|discriminate].
    destruct (return_turn o) as [[g3 l3]|]; simpl; [|discriminate].
    destruct (py_last g3); simpl; [|discriminate].
    destruct (py_last (final_straight o)); simpl; [|discriminate].
    intros [= Hc]. right. rewrite <- Hc, <- !app_assoc. reflexivity.
Qed.

(** What the final check does enforce when lax generation is off: the
    joined straight within [MAX_STRAIGHT], and a length of at most 1500. *)
Lemma constraint_check_enforces (cfg : config) (sl len : Q)
    (xys : list qpoint) (c : candidate) :
  LAX_GENERATION cfg = false ->
  constraint_check cfg sl len xys = Finished c ->
  sl + MIN_STRAIGHT cfg <= MAX_STRAIGHT cfg /\ len <= 1500.
Proof.
  unfold constraint_check, Qgtb. intros ->. simpl.
  destruct (Qle_bool (sl + MIN_STRAIGHT cfg) (MAX_STRAIGHT cfg)) eqn:H1;
    simpl; [|discriminate].
  destruct (Qle_bool len 1500) eqn:H2; simpl; [|discriminate].
  intros _. split; now apply Qle_bool_iff.
Qed.

(** C2, evaluated on the code.  With lax generation off and a configured
    maximum track length of 500, a pass that accumulates 1000 units of arc
    and straight length is returned as a candidate and not restarted: the
    final check compares the length with the literal 1500, not with
    [MAX_TRACK_LENGTH]. *)
Theorem length_check_ignores_max_track_length :
  exists cfg,
    set_data short_track_values = Ok cfg
    /\ LAX_GENERATION cfg = false
    /\ MAX_TRACK_LENGTH cfg = 500
    /\ accumulated_length cfg long_pass == 1000
    /\ (forall xys,
          constraint_check cfg (straight_length long_pass)
                           (accumulated_length cfg long_pass) xys
          = Finished (convert_points_to_all_positive xys))
    /\ generate_autocross_trackdrive_track cfg (0, 0) [long_pass]
       = Some (Ok (convert_points_to_all_positive (accumulated_path long_pass))).
Proof.
  eexists. split; [reflexivity|].
  split; [reflexivity|]. split; [reflexivity|].
  split; [reflexivity|]. split; [reflexivity|].
  vm_compute. reflexivity.
Qed.

(** *** Unknown preset names *)

Lemma get_preset_known (name : string) (values : list Q) :
  find_preset name = Some values -> get_preset name = ([], Ok values).
Proof. unfold get_preset. now intros ->. Qed.

Lemma get_preset_unknown (name : string) :
  find_preset name = None ->
  get_preset name
  = ([("No such preset: " ++ name)%string; "Defaulting to Contest Rules"],
     Raise NameError).
Proof. unfold get_preset. now intros ->. Qed.

(** C3, evaluated on the code.  For a name outside the preset table,
    [get_preset] logs its two diagnostics and then raises [NameError]: the
    fallback calls the bare name [get_preset], which is bound neither at
    module level nor by an import ([get_preset] is an attribute of the class).
    No "Contest Rules" vector is returned, and [set_preset] fails with it. *)
Theorem get_preset_unknown_name_raises :
  get_preset "Autocross"
  = (["No such preset: Autocross"; "Defaulting to Contest Rules"],
     Raise NameError)
  /\ set_preset "Autocross" = Raise NameError
  /\ resolve_bare_name "get_preset" = Raise NameError
  /\ "get_preset" ∈ class_attributes
  /\ find_preset "Contest Rules"
     = Some [10; 80; 10; 25; 4.5; 10; 3; 1500; 0; 0].
Proof.
  split; [reflexivity|]. split; [reflexivity|]. split; [reflexivity|].
  split; [|reflexivity].
  unfold class_attributes. rewrite !elem_of_cons. tauto.
Qed.

(** *** Modes, configuration vectors and presets *)

(** X6.  Mode names and mode numbers: name to number to name is the
    identity on the two mode names, number to name to number is the identity
    on 0 and 1; every other name has the number 0 and every number other than
    1 the mode ["Circle&Line"], the default mode included. *)
Theorem mode_number_round_trip :
  (forall mode : string,
      mode = "Circle&Line" \/ mode = "Bezier" ->
      get_mode_from_number (inject_Z (get_number_from_mode mode)) = mode)
  /\ (forall num : Q,
         num == 0 \/ num == 1 ->
         inject_Z (get_number_from_mode (get_mode_from_number num)) == num)
  /\ (forall mode : string,
         mode <> "Bezier" -> get_number_from_mode mode = 0%Z)
  /\ (forall num : Q,
         ~ num == 1 -> get_mode_from_number num = "Circle&Line")
  /\ get_mode_from_number (inject_Z get_default_mode_number)
     = get_default_mode_string.
Proof.
  split; [|split; [|split; [|split]]].
  - intros mode [-> | ->]; reflexivity.
  - intros num [H | H]; unfold get_mode_from_number.
    + apply Qeq_bool_iff in H as Hb. rewrite Hb. simpl. now rewrite H.
    + destruct (Qeq_bool num 0) eqn:H0.
      * apply Qeq_bool_iff in H0. rewrite H0 in H. discriminate.
      * apply Qeq_bool_iff in H as Hb. rewrite Hb. simpl. now rewrite H.
  - intros mode Hne. unfold get_number_from_mode.
    destruct (String.eqb mode "Circle&Line"); [reflexivity|].
    destruct (String.eqb_spec mode "Bezier"); [contradiction|reflexivity].
  - intros num Hne. unfold get_mode_from_number.
    destruct (Qeq_bool num 0); [reflexivity|].
    destruct (Qeq_bool num 1) eqn:H1; [|reflexivity].
    apply Qeq_bool_iff in H1. contradiction.
  - reflexivity.
Qed.

(** X7.  [set_data] raises [IndexError] exactly when the vector has fewer
    than 10 entries and raises nothing else; entries after the tenth are not
    read. *)
Theorem set_data_needs_ten_values (values : list Q) :
  (set_data values = Raise IndexError <-> (length values < 10)%nat)
  /\ (forall extra : list Q,
        (10 <= length values)%nat ->
        set_data (values ++ extra) = set_data values)
  /\ (forall e : exn, set_data values = Raise e -> e = IndexError).
Proof.
  do 10 (destruct values as [|? values];
         [split; [split; [intros _; simpl; lia|reflexivity]|
                  split; [intros extra H; simpl in H; lia|
                          intros e [= <-]; reflexivity]]|]).
  split; [|split].
  - split; [discriminate|]. simpl. lia.
  - intros extra _. reflexivity.
  - discriminate.
Qed.

(** X8.  Every name that [get_preset_names] lists is found by [get_preset]
    with its own 10 values and no diagnostic, and [set_preset] loads it into
    a configuration whose minima do not exceed its maxima, with room for a
    hairpin pair count ([MIN_HAIRPIN_NUM < MAX_HAIRPIN_NUM]) and a maximum
    track length of at most 1500. *)
Theorem every_preset_loads (name : string) :
  name ∈ get_preset_names ->
  exists (values : list Q) (cfg : config),
    get_preset name = ([], Ok values)
    /\ (name, values) ∈ get_presets
    /\ length values = 10%nat
    /\ set_preset name = Ok cfg
    /\ MIN_STRAIGHT cfg <= MAX_STRAIGHT cfg
    /\ MIN_CONSTANT_TURN cfg <= MAX_CONSTANT_TURN cfg
    /\ MIN_HAIRPIN cfg <= MAX_HAIRPIN cfg
    /\ inject_Z (MIN_HAIRPIN_NUM cfg) < MAX_HAIRPIN_NUM cfg
    /\ MAX_TRACK_LENGTH cfg <= 1500.
Proof.
  unfold get_preset_names, get_presets. cbn [map fst].
  rewrite !elem_of_cons, elem_of_nil.
  intros [-> | [-> | [-> | [-> | []]]]];
    eexists _, _;
    (split; [reflexivity|]);
    (split; [rewrite !elem_of_cons; tauto|]);
    (split; [reflexivity|]);
    (split; [reflexivity|]);
    cbn; repeat split; discriminate.
Qed.

Lemma every_preset_loads_witness :
  exists (values : list Q) (cfg : config),
    get_preset get_default_preset = ([], Ok values)
    /\ (get_default_preset, values) ∈ get_presets
    /\ length values = 10%nat
    /\ set_preset get_default_preset = Ok cfg
    /\ MIN_STRAIGHT cfg <= MAX_STRAIGHT cfg
    /\ MIN_CONSTANT_TURN cfg <= MAX_CONSTANT_TURN cfg
    /\ MIN_HAIRPIN cfg <= MAX_HAIRPIN cfg
    /\ inject_Z (MIN_HAIRPIN_NUM cfg) < MAX_HAIRPIN_NUM cfg
    /\ MAX_TRACK_LENGTH cfg <= 1500.
Proof.
  apply (every_preset_loads get_default_preset).
  unfold get_preset_names, get_presets, get_default_preset. cbn [map fst].
  rewrite !elem_of_cons. tauto.
Defined.

(** *** More on normalisation, the composer and the retry loop *)

Lemma py_int_nonneg (x : Q) : 0 <= x -> (0 <= py_int x)%Z.
Proof.
  intros Hx. unfold py_int.
  apply Qle_bool_iff in Hx as Hb. rewrite Hb.
  change 0%Z with (Qfloor 0). now apply Qfloor_resp_le.
Qed.

Lemma extent_attained (xys : list qpoint) (a b c d : Q) :
  match foldl (fun '(max_neg_x, max_neg_y, max_x, max_y) '(x, y) =>
           (Qmin x max_neg_x, Qmin y max_neg_y, Qmax x max_x, Qmax y max_y))
        (a, b, c, d) xys with
  | (mnx, mny, mxx, mxy) =>
      (mnx == a \/ exists p, p ∈ xys /\ fst p == mnx)
      /\ (mny == b \/ exists p, p ∈ xys /\ snd p == mny)
  end.
Proof.
  revert a b c d.
  induction xys as [|[x y] xys IH]; intros a b c d; simpl.
  - split; left; reflexivity.
  - specialize (IH (Qmin x a) (Qmin y b) (Qmax x c) (Qmax y d)).
    destruct (foldl _ _ xys) as [[[mnx mny] mxx] mxy].
    destruct IH as [Hx Hy]. split.
    + destruct Hx as [Hx|(p & Hp & Hpx)].
      * destruct (Q.min_spec x a) as [[_ Hm]|[_ Hm]].
        -- right. exists (x, y). split; [now left|]. simpl. now rewrite Hx, Hm.
        -- left. now rewrite Hx, Hm.
      * right. exists p. split; [now right|assumption].
    + destruct Hy as [Hy|(p & Hp & Hpy)].
      * destruct (Q.min_spec y b) as [[_ Hm]|[_ Hm]].
        -- right. exists (x, y). split; [now left|]. simpl. now rewrite Hy, Hm.
        -- left. now rewrite Hy, Hm.
      * right. exists p. split; [now right|assumption].
Qed.

Lemma Forall2_map_diag {A B : Type} (R : A -> B -> Prop) (f : A -> B)
    (l : list A) :
  (forall a, R a (f a)) -> Forall2 R l (map f l).
Proof. intros H. induction l; simpl; constructor; auto. Qed.

Lemma normalised_dimensions (xys : list qpoint) :
  let '(_, width, height) := convert_points_to_all_positive xys in
  (20 <= width)%Z /\ (20 <= height)%Z.
Proof.
  unfold convert_points_to_all_positive, extent.
  pose proof (extent_from xys 0 0 0 0) as Hb.
  destruct (foldl _ _ xys) as [[[mnx mny] mxx] mxy].
  destruct Hb as [(H1 & H2 & H3 & H4) _].
  assert (0 <= py_int (mxx - mnx))%Z as Hw by (apply py_int_nonneg; lra).
  assert (0 <= py_int (mxy - mny))%Z as Hh by (apply py_int_nonneg; lra).
  split; lia.
Qed.

(** X9.  [convert_points_to_all_positive] moves every point by one and
    the same vector [(dx, dy)] with [dx >= 10] and [dy >= 10], so the shape
    of the path is kept; the shift is exactly 10 unless a coordinate was
    negative, in which case the lowest point lands on 10; and the width and
    the height it reports are at least 20, also for an empty path. *)
Theorem convert_points_to_all_positive_translation (xys : list qpoint) :
  let '(new_xys, width, height) := convert_points_to_all_positive xys in
  exists dx dy : Q,
    Forall2 (fun p q => fst q == fst p + dx /\ snd q == snd p + dy) xys new_xys
    /\ 10 <= dx /\ 10 <= dy
    /\ (dx == 10 \/ exists q, q ∈ new_xys /\ fst q == 10)
    /\ (dy == 10 \/ exists q, q ∈ new_xys /\ snd q == 10)
    /\ (20 <= width)%Z /\ (20 <= height)%Z.
Proof.
  unfold convert_points_to_all_positive, extent.
  pose proof (extent_from xys 0 0 0 0) as Hb.
  pose proof (extent_attained xys 0 0 0 0) as Ha.
  destruct (foldl _ _ xys) as [[[mnx mny] mxx] mxy].
  destruct Hb as [(H1 & H2 & H3 & H4) HF].
  destruct Ha as [Hax Hay].
  exists (10 - mnx), (10 - mny). unfold padding.
  split.
  { apply Forall2_map_diag. intros [x y]. simpl. split; ring. }
  split; [lra|]. split; [lra|].
  split.
  { destruct Hax as [Hz|(p & Hp & Hpx)].
    - left. rewrite Hz. reflexivity.
    - right. exists ((fst p - mnx) + 10, (snd p - mny) + 10). split.
      + apply list_elem_of_In, in_map_iff. exists p.
        split; [now destruct p|now apply list_elem_of_In].
      + simpl. rewrite Hpx. ring. }
  split.
  { destruct Hay as [Hz|(p & Hp & Hpy)].
    - left. rewrite Hz. reflexivity.
    - right. exists ((fst p - mnx) + 10, (snd p - mny) + 10). split.
      + apply list_elem_of_In, in_map_iff. exists p.
        split; [now destruct p|now apply list_elem_of_In].
      + simpl. rewrite Hpy. ring. }
  assert (0 <= py_int (mxx - mnx))%Z as Hw by (apply py_int_nonneg; lra).
  assert (0 <= py_int (mxy - mny))%Z as Hh by (apply py_int_nonneg; lra).
  split; lia.
Qed.


(** X10.  Whatever [generate] returns has at least one point and a width
    and a height of at least 20: the [(test,0,0)] of the composer's early
    exit never reaches the caller. *)
Theorem generate_returns_nonempty_track (values : list Q)
    (attempts : list attempt_oracle) (flip_draw_x flip_draw_y : Q)
    (xys : list qpoint) (width height : Z) :
  generate values attempts flip_draw_x flip_draw_y
  = Some (Ok (xys, width, height)) ->
  xys <> [] /\ (20 <= width)%Z /\ (20 <= height)%Z.
Proof.
  unfold generate.
  destruct (set_data values) as [cfg|e]; [|discriminate].
  destruct (generate_loop cfg attempts 0) as [[c0|e]|] eqn:Hloop;
    [|discriminate..].
  apply generate_loop_returns in Hloop as (a & _ & Hgen & Hov & Hemp).
  apply generate_function_origin in Hgen.
  destruct Hgen as [raw|l Hbad].
  - pose proof (normalised_dimensions raw) as Hdim.
    destruct (convert_points_to_all_positive raw) as [[new w] h].
    unfold random_flip. intros [= <- <- <-].
    split; [|exact Hdim].
    destruct new as [|q new]; [discriminate|].
    unfold flip_x, flip_y.
    destruct (Qltb flip_draw_x 0.5), (Qltb flip_draw_y 0.5); discriminate.
  - rewrite (early_overlap_rejected l Hbad) in Hov. discriminate.
Qed.

Lemma generate_returns_nonempty_track_witness :
  exists xys width height,
    generate contest_rules [sample_attempt] 0.25 0.75
    = Some (Ok (xys, width, height))
    /\ xys <> [] /\ (20 <= width)%Z /\ (20 <= height)%Z.
Proof.
  eexists _, _, _. split.
  - vm_compute. reflexivity.
  - apply (generate_returns_nonempty_track contest_rules [sample_attempt]
             0.25 0.75).
    vm_compute. reflexivity.
Defined.

(** X11.  With lax generation on, a pass of the Circle&Line composer never
    ends in the recursive restart: the first pass decides the call, whatever
    further passes would draw. *)
Theorem lax_generation_never_restarts (cfg : config) (start_point : qpoint)
    (o : pass_oracle) (passes : list pass_oracle) :
  LAX_GENERATION cfg = true ->
  compose_pass cfg start_point o <> Ok Restart
  /\ exists r, generate_autocross_trackdrive_track cfg start_point (o :: passes)
               = Some r
               /\ generate_autocross_trackdrive_track cfg start_point [o]
                  = Some r.
Proof.
  intros Hlax.
  assert (compose_pass cfg start_point o <> Ok Restart) as Hno.
  { unfold compose_pass.
    destruct (py_last (first_straight o)); simpl; [|discriminate].
    destruct (checkpoint_loop _ _ _ _ _ _) as [[test|[xys len]]|e];
      simpl; [discriminate| |discriminate].
    destruct (approach_leg o) as [[g1 l1]|]; simpl; [|discriminate].
    destruct (closing_turn o) as [[g2 l2]|]; simpl; [|discriminate].
    destruct (py_last g2); simpl; [|discriminate].
    destruct (return_turn o) as [[g3 l3]|]; simpl; [|discriminate].
    destruct (py_last g3); simpl; [|discriminate].
    destruct (py_last (final_straight o)); simpl; [|discriminate].
    unfold constraint_check. rewrite Hlax. discriminate. }
  split; [exact Hno|].
  cbn [generate_autocross_trackdrive_track].
  destruct (compose_pass cfg start_point o) as [[c|]|e];
    [eexists; split; reflexivity|contradiction|eexists; split; reflexivity].
Qed.

Lemma lax_generation_never_restarts_witness :
  let cfg := {| MIN_STRAIGHT := 5; MAX_STRAIGHT := 40;
                MIN_CONSTANT_TURN := 10; MAX_CONSTANT_TURN := 25;
                MIN_HAIRPIN := 4.5; MAX_HAIRPIN := 10; MAX_HAIRPIN_NUM := 3;
                MIN_HAIRPIN_NUM := 1; MAX_TRACK_LENGTH := 700;
                LAX_GENERATION := true; TRACK_MODE := "Circle&Line" |} in
  compose_pass cfg (0, 0) long_pass <> Ok Restart
  /\ exists r, generate_autocross_trackdrive_track cfg (0, 0)
                 (long_pass :: [sample_pass]) = Some r
               /\ generate_autocross_trackdrive_track cfg (0, 0) [long_pass]
                  = Some r.
Proof.
  apply (lax_generation_never_restarts _ (0, 0) long_pass [sample_pass]).
  reflexivity.
Defined.

(** X12.  With lax generation off, a pass that returns a normalised track
    (width at least 20) joined its final straight within [MAX_STRAIGHT], its
    accumulated length is at most 1500, and the track is the normalisation of
    all its segments in order. *)
Theorem strict_pass_respects_limits (cfg : config) (start_point : qpoint)
    (o : pass_oracle) (xys : list qpoint) (width height : Z) :
  LAX_GENERATION cfg = false ->
  compose_pass cfg start_point o = Ok (Finished (xys, width, height)) ->
  (20 <= width)%Z ->
  straight_length o + MIN_STRAIGHT cfg <= MAX_STRAIGHT cfg
  /\ accumulated_length cfg o <= 1500
  /\ (xys, width, height)
     = convert_points_to_all_positive (accumulated_path o).
Proof.
  intros Hlax Hpass Hw.
  apply compose_pass_final_check in Hpass as [[test [= _ -> _]]|Hcheck];
    [lia|].
  pose proof (constraint_check_enforces _ _ _ _ _ Hlax Hcheck) as [H1 H2].
  split; [exact H1|]. split; [exact H2|].
  unfold constraint_check in Hcheck. rewrite Hlax in Hcheck. simpl in Hcheck.
  destruct (Qgtb _ _); [discriminate|].
  destruct (Qgtb _ _); [discriminate|].
  now injection Hcheck.
Qed.

Lemma strict_pass_respects_limits_witness :
  let cfg := {| MIN_STRAIGHT := 10; MAX_STRAIGHT := 80;
                MIN_CONSTANT_TURN := 10; MAX_CONSTANT_TURN := 25;
                MIN_HAIRPIN := 4.5; MAX_HAIRPIN := 10; MAX_HAIRPIN_NUM := 3;
                MIN_HAIRPIN_NUM := 1; MAX_TRACK_LENGTH := 1500;
                LAX_GENERATION := false; TRACK_MODE := "Circle&Line" |} in
  exists xys width height,
    compose_pass cfg (0, 0) sample_pass = Ok (Finished (xys, width, height))
    /\ straight_length sample_pass + MIN_STRAIGHT cfg <= MAX_STRAIGHT cfg
    /\ accumulated_length cfg sample_pass <= 1500
    /\ (xys, width, height)
       = convert_points_to_all_positive (accumulated_path sample_pass).
Proof.
  intros cfg. eexists _, _, _. split.
  - vm_compute. reflexivity.
  - apply (strict_pass_respects_limits cfg (0, 0) sample_pass).
    + reflexivity.
    + vm_compute. reflexivity.
    + vm_compute. discriminate.
Defined.

(** X13.  A candidate whose width or height is below 20 can only be the
    composer's early exit, and the overlap check of [generate] rejects it: it
    costs one failed attempt. *)
Theorem early_exit_is_rejected (cfg : config) (a : attempt_oracle)
    (xys : list qpoint) (width height : Z) :
  generate_function cfg a = Some (Ok (xys, width, height)) ->
  (width < 20)%Z \/ (height < 20)%Z ->
  overlapped (xys, width, height) = true.
Proof.
  intros Hgen Hsmall.
  apply generate_function_origin in Hgen.
  inversion Hgen as [raw Hraw|l Hbad Hl].
  - pose proof (normalised_dimensions raw) as Hdim.
    rewrite Hraw in Hdim. lia.
  - now apply early_overlap_rejected.
Qed.

Lemma early_exit_is_rejected_witness :
  let cfg := {| MIN_STRAIGHT := 10; MAX_STRAIGHT := 80;
                MIN_CONSTANT_TURN := 10; MAX_CONSTANT_TURN := 25;
                MIN_HAIRPIN := 4.5; MAX_HAIRPIN := 10; MAX_HAIRPIN_NUM := 3;
                MIN_HAIRPIN_NUM := 1; MAX_TRACK_LENGTH := 1500;
                LAX_GENERATION := false; TRACK_MODE := "Circle&Line" |} in
  let a := {| circle_line_passes := [crossing_pass]; bezier_points := [] |} in
  exists xys,
    generate_function cfg a = Some (Ok (xys, 0%Z, 0%Z))
    /\ overlapped (xys, 0%Z, 0%Z) = true.
Proof.
  intros cfg a. eexists. split.
  - vm_compute. reflexivity.
  - apply (early_exit_is_rejected cfg a).
    + vm_compute. reflexivity.
    + left. lia.
Defined.

End Facade.

(** ** The segment generators *)

Module Primitives.

Import Lra.
Local Open Scope R_scope.

Definition vec : Type := (R * R)%type.

(** *** Python arithmetic *)

(** Float division: [ZeroDivisionError] on a zero divisor. *)
Definition py_div (a b : R) : result R :=
  if Req_dec_T b 0 then Raise ZeroDivisionError else Ok (a / b).

(** [math.acos]: [ValueError] outside [[-1,1]]. *)
Definition py_acos (x : R) : result R :=
  if Rle_dec (-1) x then
    if Rle_dec x 1 then Ok (acos x) else Raise ValueError
  else Raise ValueError.

(** [math.atan2(y, x)], with values in [(-PI, PI]]. *)
Definition atan2 (y x : R) : R :=
  if Rlt_dec 0 x then atan (y / x)
  else if Rlt_dec x 0 then
         if Rle_dec 0 y then atan (y / x) + PI else atan (y / x) - PI
  else if Rlt_dec 0 y then PI / 2
  else if Rlt_dec y 0 then - (PI / 2)
  else 0.

(** [math.tan] is read as the real tangent [tan].  Where the cosine is 0
    the real tangent has a pole and [tan] is 0 by convention, while the float
    tangent of the nearest float is a number of large magnitude: there the
    reading says nothing about the code. *)
Definition tan_defined (angle : R) : Prop := cos angle <> 0.

(** [range(0, n)]; empty when [n <= 0]. *)
Definition range (n : Z) : list Z := map Z.of_nat (seq 0 (Z.to_nat n)).

(** A list comprehension whose element expression may raise. *)
Fixpoint comprehension {A B : Type} (f : A -> result B) (l : list A)
  : result (list B) :=
  match l with
  | [] => Ok []
  | a :: l' =>
      let* b := f a in
      let* bs := comprehension f l' in
      Ok (b :: bs)
  end.

(** [l[-2]]. *)
Definition py_last_but_one {A : Type} (l : list A) : result A :=
  match l !! (length l - 2)%nat with
  | Some a => if (2 <=? length l)%nat then Ok a else Raise IndexError
  | None => Raise IndexError
  end.

(** *** LauncherUtilities *)

(** Modelled from the spec: LauncherUtilities.py is not among the sources.
    "Vector magnitude": the Euclidean norm. *)
Definition magnitude (v : vec) : R :=
  let '(a, b) := v in sqrt (a * a + b * b).

(** Modelled from the spec: "normalization", the vector divided by its
    magnitude; the division raises on the zero vector. *)
Definition normalize_vec (v : vec) : result vec :=
  let '(a, b) := v in
  let mag := magnitude v in
  let* a' := py_div a mag in
  let* b' := py_div b mag in
  Ok (a', b').

(** Modelled from the spec: the angle of a vector.  The sign test of
    [generate_straight] on [angle * slope] selects the side of the line
    correctly exactly for angles in [(-PI, PI]], the range of [atan2]. *)
Definition calculate_vector_angle (v : vec) : R :=
  let '(a, b) := v in atan2 b a.

(** Modelled from the spec: "tangent-angle estimation from a point
    sequence", the direction from the last but one point to the last. *)
Definition calculate_tangent_angle (xys : list vec) : result R :=
  let* s := py_last_but_one xys in
  let* e := py_last xys in
  Ok (atan2 (snd e - snd s) (fst e - fst s)).

(** Modelled from the spec: the exit tangent "computed from the last two
    sampled points", as a unit vector. *)
Definition calculate_tangent_vector (xys : list vec) : result vec :=
  let* angle := calculate_tangent_angle xys in
  Ok (cos angle, sin angle).

(** *** Parameters and random draws *)

(** The [params] dictionary: a key that is absent is [None]. *)
Record params : Type := {
  p_length : option R;
  p_turn_against_normal : option bool;
  p_circle_percent : option R;
  p_radius : option R
}.

Definition no_params : params :=
  {| p_length := None; p_turn_against_normal := None;
     p_circle_percent := None; p_radius := None |}.

(** The values that the calls of [uniform] return, one per call site:
    [uniform(MIN_STRAIGHT,MAX_STRAIGHT)], [uniform(0,1)] (compared with 0.5),
    [uniform(0.1,0.5)] and [uniform(MIN_CONSTANT_TURN,MAX_CONSTANT_TURN)]. *)
Record draws : Type := {
  drawn_length : R;
  drawn_direction : R;
  drawn_circle_percent : R;
  drawn_radius : R
}.

Definition from_params {A : Type} (value : option A) (drawn : A) : A :=
  match value with
  | Some a => a
  | None => drawn
  end.

(** What a segment generator returns:
    [(points, tangent_out, normal_out, length)]. *)
Definition segment_result : Type := (list vec * vec * vec * R)%type.

(** *** [generate_straight] *)

(** The reading of [slope = math.tan(angle)] as the real tangent agrees with
    the code where [tan_defined angle].  For a vertical tangent [(0, y)] it
    does not: the code has a slope of large magnitude there.  For a tangent
    [(-x, 0)] the angle is [PI], where the float tangent is a negative number
    next to 0 and the sign test [angle*slope < 0] reverses the walk. *)
Definition generate_straight (start_point tangent_in normal_in : vec)
    (prm : params) (rnd : draws) : result segment_result :=
  let length := from_params (p_length prm) (drawn_length rnd) in
  let angle := calculate_vector_angle tangent_in in
  let '(startx, starty) := start_point in
  let slope := tan angle in
  let* tmax := py_div length (sqrt (1 + slope * slope)) in
  let tmax := if Rlt_dec (angle * slope) 0 then tmax * -1 else tmax in
  let scale_factor := 10 in
  let points :=
    if Rle_dec 0 tmax then
      map (fun t => (IZR t / scale_factor + startx,
                     slope * IZR t / scale_factor + starty))
          (range (10 * Zceil tmax))
    else
      map (fun t => (- IZR t / scale_factor + startx,
                     - slope * IZR t / scale_factor + starty))
          (range (10 * Zceil (- tmax)))
  in
  Ok (points, tangent_in, normal_in, length).

(** *** [generate_constant_turn] *)

Definition get_parametric_circle (start_point center_point : vec)
    (delta_angle : R) (t : R) : vec :=
  let a := t * delta_angle in
  let '(sx, sy) := start_point in
  let '(cx, cy) := center_point in
  let cos_a := cos a in
  let sin_a := sin a in
  let del_x := sx - cx in
  let del_y := sy - cy in
  (cos_a * del_x - sin_a * del_y + cx, sin_a * del_x + cos_a * del_y + cy).

Definition generate_constant_turn (start_point tangent_in normal_in : vec)
    (prm : params) (rnd : draws) : result segment_result :=
  let turn_against_normal :=
    from_params (p_turn_against_normal prm)
                (if Rlt_dec (drawn_direction rnd) 0.5 then true else false) in
  let circle_percent :=
    from_params (p_circle_percent prm) (drawn_circle_percent rnd) in
  let radius := from_params (p_radius prm) (drawn_radius rnd) in
  let normal_vec :=
    if turn_against_normal then (- fst normal_in, - snd normal_in)
    else normal_in in
  let center := (fst start_point + fst normal_vec * radius,
                 snd start_point + snd normal_vec * radius) in
  let turn_angle := circle_percent * PI * 2 in
  let cross_product :=
    fst tangent_in * snd normal_vec - snd tangent_in * fst normal_vec in
  let flipper := if Rlt_dec cross_product 0 then -1 else 1 in
  let circle_function :=
    get_parametric_circle start_point center (flipper * turn_angle) in
  let length := turn_angle * radius in
  let fidelity := Zceil length in
  let* points :=
    comprehension
      (fun t => let* u := py_div (IZR t) (IZR fidelity) in
                Ok (circle_function u))
      (range (fidelity + 1)) in
  let* last_point := py_last points in
  let* normal :=
    normalize_vec (fst last_point - fst center, snd last_point - snd center) in
  let* tangent := calculate_tangent_vector points in
  Ok (points, tangent, normal, length).

(** *** [generate_constant_turn_until_facing_point] *)

(** [np.linalg.inv] of the matrix [[a, b], [c, d]], as its four entries. *)
Definition inv2 (a b c d : R) : result (R * R * R * R) :=
  let det := a * d - b * c in
  if Req_dec_T det 0 then Raise LinAlgError
  else Ok (d / det, - b / det, - c / det, a / det).

(** The product of the matrix [[a, b], [c, d]] with a column vector. *)
Definition matmul2 (m : R * R * R * R) (v : vec) : vec :=
  let '(a, b, c, d) := m in
  (a * fst v + b * snd v, c * fst v + d * snd v).

(** The quadrant of the goal in the tangent-normal basis. *)
Definition quadrant_of (g_prime : vec) (r : R) : Z :=
  let '(g0, g1) := g_prime in
  let ge a b := if Rle_dec b a then true else false in
  let le a b := if Rle_dec a b then true else false in
  if (ge g0 0 && le (- r) g1 && le g1 0) || (ge g0 r && le (- r) g1) then 1%Z
  else if (ge g1 0 && le 0 g0 && le g0 r) || (ge g1 r && le g0 r) then 2%Z
  else if (le g0 0 && le 0 g1 && le g1 r) || (le g0 (- r) && le g1 r) then 3%Z
  else 4%Z.

(** The body of [generate_constant_turn_until_facing_point] for resolved
    [turn_against_normal] and [radius]; [retry] stands for the recursive call
    with [recursed=True].  [31/32] is read as the fraction 0.96875 (true
    division). *)
Definition facing_point_body
    (retry : bool -> result segment_result) (recursed : bool)
    (start_point goal_point tangent_in normal_in : vec)
    (turn_against_normal : bool) (radius : R) (rnd : draws)
  : result segment_result :=
  let s := start_point in
  let r := radius in
  let normal := normal_in in
  let n := if negb turn_against_normal then normal
           else (- fst normal, - snd normal) in
  let* n := normalize_vec n in
  let g := goal_point in
  let rn := (r * fst n, r * snd n) in
  let c := (fst s + fst rn, snd s + snd rn) in
  let cg := (fst c - fst g, snd c - snd g) in
  let gc := (- fst cg, - snd cg) in
  let sc := (fst s - fst c, snd s - snd c) in
  let t := tangent_in in
  let x := magnitude gc in
  let* ratio := py_div r x in
  let x := if Rlt_dec 1 (Rabs ratio) then r else x in
  let* basis_changer := inv2 (fst t) (fst n) (snd t) (snd n) in
  let g_prime := matmul2 basis_changer gc in
  let quadrant := quadrant_of g_prime r in
  let quadrant_angle := (IZR quadrant - 1) * PI / 2 in
  let quadrant_rotater :=
    (cos quadrant_angle, - sin quadrant_angle,
     sin quadrant_angle, cos quadrant_angle) in
  let new_s := matmul2 quadrant_rotater sc in
  let* ratio := py_div r x in
  let* inner_angle := py_acos ratio in
  let cross := fst gc * snd new_s - snd gc * fst new_s in
  let dot := fst gc * fst new_s + snd gc * snd new_s in
  let outer_angle :=
    if (quadrant =? 1)%Z || (quadrant =? 3)%Z || negb turn_against_normal
    then atan2 (Rabs cross) dot
    else atan2 (Rabs cross) (- dot) in
  let theta := outer_angle - inner_angle + quadrant_angle in
  if (if Rlt_dec (2 * (31 / 32) * PI) theta then true else false)
     && negb recursed
  then retry (negb turn_against_normal)
  else
    let cp := theta / (PI * 2) in
    generate_constant_turn start_point tangent_in normal_in
      {| p_length := None;
         p_turn_against_normal := Some turn_against_normal;
         p_circle_percent := Some cp;
         p_radius := Some radius |} rnd.

(** [generate_constant_turn_until_facing_point]: the call that the guard on
    [theta] makes has [recursed=True] and so makes none itself. *)
Definition generate_constant_turn_until_facing_point
    (start_point goal_point tangent_in normal_in : vec)
    (prm : params) (recursed : bool) (rnd : draws) : result segment_result :=
  let turn_against_normal :=
    from_params (p_turn_against_normal prm)
                (if Rlt_dec (drawn_direction rnd) 0.5 then true else false) in
  let radius := from_params (p_radius prm) (drawn_radius rnd) in
  facing_point_body
    (fun flipped =>
       facing_point_body (fun _ => Raise ValueError) true
         start_point goal_point tangent_in normal_in flipped radius rnd)
    recursed start_point goal_point tangent_in normal_in
    turn_against_normal radius rnd.

(** *** Parameters of the worked cases *)

Definition with_length (length : R) : params :=
  {| p_length := Some length; p_turn_against_normal := None;
     p_circle_percent := None; p_radius := None |}.

Definition any_draws : draws :=
  {| drawn_length := 50; drawn_direction := 0.25;
     drawn_circle_percent := 0.3; drawn_radius := 15 |}.

Definition turn_params (turn_against_normal : bool) (circle_percent radius : R)
  : params :=
  {| p_length := None; p_turn_against_normal := Some turn_against_normal;
     p_circle_percent := Some circle_percent; p_radius := Some radius |}.

(** The circle center that [generate_constant_turn] computes. *)
Definition turn_center (start_point normal_in : vec)
    (turn_against_normal : bool) (radius : R) : vec :=
  let normal_vec :=
    if turn_against_normal then (- fst normal_in, - snd normal_in)
    else normal_in in
  (fst start_point + fst normal_vec * radius,
   snd start_point + snd normal_vec * radius).

(** The rotation sense and the parametric circle that
    [generate_constant_turn] computes. *)
Definition turn_flipper (tangent_in normal_in : vec) (against : bool) : R :=
  let normal_vec :=
    if against then (- fst normal_in, - snd normal_in) else normal_in in
  if Rlt_dec (fst tangent_in * snd normal_vec - snd tangent_in * fst normal_vec) 0
  then -1 else 1.

Definition turn_circle (start_point tangent_in normal_in : vec)
    (against : bool) (p r : R) : R -> vec :=
  get_parametric_circle start_point
    (turn_center start_point normal_in against r)
    (turn_flipper tangent_in normal_in against * (p * PI * 2)).

Definition facing_params (turn_against_normal : bool) (radius : R) : params :=
  {| p_length := None; p_turn_against_normal := Some turn_against_normal;
     p_circle_percent := None; p_radius := Some radius |}.

(** *** Properties of [generate_straight] *)

Lemma py_div_ok (a b : R) : b <> 0 -> py_div a b = Ok (a / b).
Proof. intros Hb. unfold py_div. now destruct (Req_dec_T b 0). Qed.

Lemma py_div_zero (a : R) : py_div a 0 = Raise ZeroDivisionError.
Proof. unfold py_div. now destruct (Req_dec_T 0 0). Qed.

Lemma atan2_right (y x : R) : 0 < x -> atan2 y x = atan (y / x).
Proof. intros Hx. unfold atan2. now destruct (Rlt_dec 0 x). Qed.

Lemma sqrt_one_plus_square_ge_1 (m : R) : 1 <= sqrt (1 + m * m).
Proof.
  rewrite <- sqrt_1 at 1. apply sqrt_le_1_alt. nra.
Qed.

(** The division of [generate_straight] never raises. *)
Lemma straight_tmax_defined (length slope : R) :
  py_div length (sqrt (1 + slope * slope))
  = Ok (length / sqrt (1 + slope * slope)).
Proof.
  apply py_div_ok. pose proof (sqrt_one_plus_square_ge_1 slope). lra.
Qed.

(** [generate_straight] returns for every input, with the tangent, the
    normal and the requested length passed through. *)
Lemma generate_straight_passes_through (start_point tangent_in normal_in : vec)
    (prm : params) (rnd : draws) :
  exists points,
    generate_straight start_point tangent_in normal_in prm rnd
    = Ok (points, tangent_in, normal_in,
          from_params (p_length prm) (drawn_length rnd)).
Proof.
  unfold generate_straight. destruct start_point as [startx starty].
  rewrite straight_tmax_defined. simpl. eexists. reflexivity.
Qed.

Lemma generate_straight_along_x (sx sy length : R) (rnd : draws) :
  0 <= length ->
  generate_straight (sx, sy) (1, 0) (0, 1) (with_length length) rnd
  = Ok (map (fun t => (IZR t / 10 + sx, 0 * IZR t / 10 + sy))
            (range (10 * Zceil length)),
        (1, 0), (0, 1), length).
Proof.
  intros Hlen. unfold generate_straight, calculate_vector_angle.
  rewrite atan2_right by lra.
  replace (0 / 1) with 0 by field. rewrite atan_0, tan_0.
  rewrite straight_tmax_defined. simpl.
  replace (1 + 0 * 0) with 1 by ring. rewrite sqrt_1.
  replace (length / 1) with length by field.
  destruct (Rlt_dec (0 * 0) 0); [lra|].
  destruct (Rle_dec 0 length); [|lra].
  reflexivity.
Qed.

Lemma Zceil_IZR (z : Z) : Zceil (IZR z) = z.
Proof. unfold Zceil. rewrite <- opp_IZR, ZfloorZ. lia. Qed.

Lemma In_range (t n : Z) : In t (range n) <-> (0 <= t < n)%Z.
Proof.
  unfold range. rewrite in_map_iff. split.
  - intros (k & <- & Hk). apply in_seq in Hk. lia.
  - intros Ht. exists (Z.to_nat t). split; [lia|]. apply in_seq. lia.
Qed.

Lemma length_range (n : Z) : length (range n) = Z.to_nat n.
Proof. unfold range. now rewrite length_map, length_seq. Qed.

(** C7, evaluated on the code.  For tangent [(1,0)], normal [(0,1)] and
    requested length 20, [generate_straight] returns the tangent, the normal
    and the length 20 unchanged, but its 200 points are sampled at
    [t = 0, 0.1, ..., 19.9]: their x coordinates span 19.9 units and the
    point at 20 units is not produced. *)
Theorem generate_straight_spans_19_9 :
  exists points,
    generate_straight (0, 0) (1, 0) (0, 1) (with_length 20) any_draws
    = Ok (points, (1, 0), (0, 1), 20)
    /\ length points = 200%nat
    /\ In (0, 0) points
    /\ In (19.9, 0) points
    /\ (forall p, In p points -> 0 <= fst p <= 19.9 /\ snd p = 0)
    /\ ~ In (20, 0) points.
Proof.
  eexists. split.
  { rewrite generate_straight_along_x by lra.
    change 20 with (IZR 20). rewrite Zceil_IZR. reflexivity. }
  change (10 * 20)%Z with 200%Z.
  split; [now rewrite length_map, length_range|].
  split.
  { apply in_map_iff. exists 0%Z. split; [f_equal; lra|]. now apply In_range. }
  split.
  { apply in_map_iff. exists 199%Z. split; [f_equal; lra|]. now apply In_range. }
  split.
  { intros p Hp. apply in_map_iff in Hp as (t & <- & Ht).
    apply In_range in Ht. simpl.
    assert (0 <= IZR t <= 199) as Hb.
    { split; apply IZR_le; lia. }
    split; lra. }
  intros Hin. apply in_map_iff in Hin as (t & Heq & Ht).
  apply In_range in Ht. injection Heq as Hx _.
  assert (IZR t <= 199) as Hb by (apply IZR_le; lia).
  lra.
Qed.

Lemma atan_pos (m : R) : 0 < m -> 0 < atan m.
Proof. intros Hm. rewrite <- atan_0. now apply atan_increasing. Qed.

(** A straight along the unit tangent of slope [m > 0]: whenever the
    requested length is positive and at most [sqrt (1 + m * m)], ten points
    are produced, with x from 0 to 0.9, whatever the length. *)
Lemma generate_straight_steep (m h length : R) (normal_in : vec)
    (rnd : draws) :
  0 < m -> 0 < h -> h * h = 1 + m * m -> 0 < length <= h ->
  generate_straight (0, 0) (1 / h, m / h) normal_in (with_length length) rnd
  = Ok (map (fun t => (IZR t / 10 + 0, m * IZR t / 10 + 0)) (range 10),
        (1 / h, m / h), normal_in, length).
Proof.
  intros Hm Hh Hhm Hlen.
  unfold generate_straight, calculate_vector_angle.
  assert (0 < 1 / h) as Hinv by (apply Rdiv_lt_0_compat; lra).
  rewrite atan2_right by exact Hinv.
  replace (m / h / (1 / h)) with m by (field; lra).
  rewrite tan_atan, straight_tmax_defined. simpl.
  rewrite <- Hhm, sqrt_square by lra.
  pose proof (atan_pos m Hm) as Hatan.
  destruct (Rlt_dec (atan m * m) 0) as [Hneg|_]; [nra|].
  assert (0 < length / h <= 1) as Htmax.
  { split; [apply Rdiv_lt_0_compat; lra|].
    apply (Rmult_le_reg_r h); [lra|]. field_simplify; lra. }
  destruct (Rle_dec 0 (length / h)) as [_|Hn]; [|lra].
  rewrite (Zceil_eq 1) by (simpl; lra).
  reflexivity.
Qed.

(** C8, evaluated on the code.  For the unit tangent
    [(200/10001, 9999/10001)], about 1.15 degrees off the vertical, and a
    requested length of 20, [generate_straight] does not raise, but its ten
    points run from the start to [(0.9, 44.9955)]: the segment advances
    45.0045 units along the tangent, not 20.  The slope-intercept
    parameterisation rounds the span in x up to a whole unit. *)
Theorem generate_straight_near_vertical_overshoots :
  exists points,
    generate_straight (0, 0) (200 / 10001, 9999 / 10001)
                      (- 9999 / 10001, 200 / 10001) (with_length 20)
                      any_draws
    = Ok (points, (200 / 10001, 9999 / 10001),
          (- 9999 / 10001, 200 / 10001), 20)
    /\ length points = 10%nat
    /\ In (0.9, 44.9955) points
    /\ magnitude (0.9, 44.9955) = 45.0045.
Proof.
  exists (map (fun t => (IZR t / 10 + 0, 9999 / 200 * IZR t / 10 + 0))
              (range 10)).
  split.
  { pose proof (generate_straight_steep (9999 / 200) (10001 / 200) 20
                  (- 9999 / 10001, 200 / 10001) any_draws) as H.
    replace (1 / (10001 / 200)) with (200 / 10001) in H by field.
    replace (9999 / 200 / (10001 / 200)) with (9999 / 10001) in H by field.
    apply H; lra. }
  split; [reflexivity|].
  split.
  { apply in_map_iff. exists 9%Z. split; [f_equal; lra|]. now apply In_range. }
  unfold magnitude.
  replace (0.9 * 0.9 + 44.9955 * 44.9955) with (45.0045 * 45.0045) by lra.
  apply sqrt_square. lra.
Qed.

(** *** Properties of [generate_constant_turn] *)

Lemma comprehension_ok {A B : Type} (f : A -> result B) (g : A -> B)
    (l : list A) :
  (forall a, In a l -> f a = Ok (g a)) -> comprehension f l = Ok (map g l).
Proof.
  induction l as [|a l IH]; intros Hf; simpl; [reflexivity|].
  rewrite (Hf a) by now left. simpl.
  rewrite IH by (intros a' Ha'; apply Hf; now right).
  reflexivity.
Qed.

Lemma range_succ (n : Z) : (0 <= n)%Z -> range (n + 1) = range n ++ [n].
Proof.
  intros Hn. unfold range.
  replace (Z.to_nat (n + 1)) with (S (Z.to_nat n)) by lia.
  rewrite seq_S, map_app. simpl. f_equal. f_equal. lia.
Qed.

Lemma py_last_snoc {A : Type} (l : list A) (a : A) : py_last (l ++ [a]) = Ok a.
Proof. unfold py_last. now rewrite last_snoc. Qed.

Lemma py_last_but_one_snoc {A : Type} (l : list A) (a b : A) :
  py_last_but_one (l ++ [a; b]) = Ok a.
Proof.
  unfold py_last_but_one. rewrite length_app. simpl length.
  replace (length l + 2 - 2)%nat with (length l) by lia.
  rewrite list_lookup_middle by reflexivity.
  replace (2 <=? length l + 2)%nat with true; [reflexivity|].
  symmetry. apply Nat.leb_le. lia.
Qed.

Lemma magnitude_rotated (a dx dy : R) :
  magnitude (cos a * dx - sin a * dy, sin a * dx + cos a * dy)
  = magnitude (dx, dy).
Proof.
  unfold magnitude. f_equal.
  pose proof (sin2_cos2 a) as H. unfold Rsqr in H. nra.
Qed.

Lemma magnitude_scaled_unit (n0 n1 r : R) :
  n0 * n0 + n1 * n1 = 1 -> magnitude (n0 * r, n1 * r) = Rabs r.
Proof.
  intros Hunit. unfold magnitude.
  replace (n0 * r * (n0 * r) + n1 * r * (n1 * r)) with (r * r) by nra.
  rewrite <- sqrt_Rsqr_abs. reflexivity.
Qed.

Lemma normalize_vec_ok (a b : R) :
  magnitude (a, b) <> 0 ->
  normalize_vec (a, b) = Ok (a / magnitude (a, b), b / magnitude (a, b)).
Proof.
  intros Hmag. unfold normalize_vec.
  rewrite !py_div_ok by exact Hmag. reflexivity.
Qed.

Lemma magnitude_normalized (a b : R) :
  magnitude (a, b) <> 0 ->
  magnitude (a / magnitude (a, b), b / magnitude (a, b)) = 1.
Proof.
  intros Hmag.
  assert (0 <= a * a + b * b) as Hsq by nra.
  assert (magnitude (a, b) * magnitude (a, b) = a * a + b * b) as Hm.
  { unfold magnitude. now apply sqrt_sqrt. }
  set (d := magnitude (a, b)) in *.
  unfold magnitude.
  replace (a / d * (a / d) + b / d * (b / d)) with ((a * a + b * b) / (d * d))
    by (field; exact Hmag).
  rewrite <- Hm.
  replace (d * d / (d * d)) with 1 by (field; exact Hmag).
  apply sqrt_1.
Qed.

Lemma Zceil_pos (x : R) : 0 < x -> (1 <= Zceil x)%Z.
Proof.
  intros Hx. pose proof (Zceil_bound x) as [_ Hub].
  assert (0 < IZR (Zceil x)) as H by lra.
  apply lt_IZR in H. lia.
Qed.

Lemma range_two_last (n : Z) :
  (1 <= n)%Z -> range (n + 1) = range (n - 1) ++ [(n - 1)%Z; n].
Proof.
  intros Hn.
  rewrite (range_succ n) by lia.
  replace n with (n - 1 + 1)%Z at 1 by lia.
  rewrite (range_succ (n - 1)) by lia.
  now rewrite <- app_assoc.
Qed.

Lemma py_last_two {A : Type} (l : list A) (a b : A) :
  py_last (l ++ [a; b]) = Ok b.
Proof.
  change (l ++ [a; b]) with (l ++ [a] ++ [b]).
  rewrite app_assoc. apply py_last_snoc.
Qed.

(** The distance from the circle center to a point of the parametric circle
    is [|r|] for a unit normal. *)
Lemma turn_circle_radius (start_point tangent_in normal_in : vec)
    (against : bool) (p r u : R) :
  fst normal_in * fst normal_in + snd normal_in * snd normal_in = 1 ->
  magnitude
    (fst (turn_circle start_point tangent_in normal_in against p r u)
     - fst (turn_center start_point normal_in against r),
     snd (turn_circle start_point tangent_in normal_in against p r u)
     - snd (turn_center start_point normal_in against r))
  = Rabs r.
Proof.
  intros Hunit. destruct start_point as [sx sy].
  unfold turn_circle, turn_center, get_parametric_circle. cbn [fst snd].
  set (nv := if against then (- fst normal_in, - snd normal_in) else normal_in).
  assert (fst nv * fst nv + snd nv * snd nv = 1) as Hnv.
  { subst nv. destruct against; simpl; nra. }
  set (a := u * _).
  replace (cos a * (sx - (sx + fst nv * r)) - sin a * (sy - (sy + snd nv * r))
           + (sx + fst nv * r) - (sx + fst nv * r))
    with (cos a * (- fst nv * r) - sin a * (- snd nv * r)) by ring.
  replace (sin a * (sx - (sx + fst nv * r)) + cos a * (sy - (sy + snd nv * r))
           + (sy + snd nv * r) - (sy + snd nv * r))
    with (sin a * (- fst nv * r) + cos a * (- snd nv * r)) by ring.
  rewrite magnitude_rotated.
  apply magnitude_scaled_unit. nra.
Qed.

(** [generate_constant_turn] spelled out, for a unit normal and a positive
    arc length. *)
Lemma generate_constant_turn_explicit
    (start_point tangent_in normal_in : vec) (against : bool) (p r : R)
    (rnd : draws) :
  fst normal_in * fst normal_in + snd normal_in * snd normal_in = 1 ->
  0 < p * PI * 2 * r ->
  let circle := turn_circle start_point tangent_in normal_in against p r in
  let center := turn_center start_point normal_in against r in
  let fidelity := Zceil (p * PI * 2 * r) in
  let b := circle (IZR (fidelity - 1) / IZR fidelity) in
  let e := circle 1 in
  let angle := atan2 (snd e - snd b) (fst e - fst b) in
  generate_constant_turn start_point tangent_in normal_in
                         (turn_params against p r) rnd
  = Ok (map (fun t => circle (IZR t / IZR fidelity)) (range (fidelity + 1)),
        (cos angle, sin angle),
        ((fst e - fst center) / Rabs r, (snd e - snd center) / Rabs r),
        p * PI * 2 * r).
Proof.
  intros Hunit Hlen circle center fidelity b e angle.
  pose proof (Zceil_pos _ Hlen) as Hfid. fold fidelity in Hfid.
  assert (IZR fidelity <> 0) as Hfid0 by (apply not_0_IZR; lia).
  assert (r <> 0) as Hr by (intros ->; lra).
  assert (Rabs r <> 0) as Habs by now apply Rabs_no_R0.
  pose proof (turn_circle_radius start_point tangent_in normal_in against
                p r 1 Hunit) as Hmag.
  fold circle center e in Hmag.
  unfold generate_constant_turn, turn_params, from_params.
  cbn [p_turn_against_normal p_circle_percent p_radius].
  change (get_parametric_circle start_point _ _) with circle.
  fold fidelity.
  rewrite (comprehension_ok _ (fun t => circle (IZR t / IZR fidelity)))
    by (intros a _; now rewrite py_div_ok).
  cbn [bind].
  rewrite (range_two_last fidelity Hfid), map_app. cbn [map].
  replace (IZR fidelity / IZR fidelity) with 1 by (field; exact Hfid0).
  fold b e.
  rewrite py_last_two. cbn [bind].
  change (fst start_point + _, snd start_point + _) with center.
  rewrite normalize_vec_ok by (rewrite Hmag; exact Habs).
  cbn [bind].
  unfold calculate_tangent_vector, calculate_tangent_angle.
  rewrite py_last_but_one_snoc, py_last_two. cbn [bind].
  now rewrite Hmag.
Qed.

Lemma generate_constant_turn_positive
    (start_point tangent_in normal_in : vec) (against : bool) (p r : R)
    (rnd : draws) :
  fst normal_in * fst normal_in + snd normal_in * snd normal_in = 1 ->
  0 < p * PI * 2 * r ->
  exists points tangent normal last_point,
    generate_constant_turn start_point tangent_in normal_in
                           (turn_params against p r) rnd
    = Ok (points, tangent, normal, r * (p * (2 * PI)))
    /\ length points = Z.to_nat (Zceil (r * (p * (2 * PI))) + 1)
    /\ py_last points = Ok last_point
    /\ calculate_tangent_vector points = Ok tangent
    /\ normalize_vec
         (fst last_point - fst (turn_center start_point normal_in against r),
          snd last_point - snd (turn_center start_point normal_in against r))
       = Ok normal
    /\ magnitude normal = 1
    /\ fst last_point
       = fst (turn_center start_point normal_in against r) + Rabs r * fst normal
    /\ snd last_point
       = snd (turn_center start_point normal_in against r) + Rabs r * snd normal.
Proof.
  intros Hunit Hlen.
  pose proof (generate_constant_turn_explicit start_point tangent_in
                normal_in against p r rnd Hunit Hlen) as Hgen.
  cbv zeta in Hgen.
  replace (r * (p * (2 * PI))) with (p * PI * 2 * r) by ring.
  set (circle := turn_circle start_point tangent_in normal_in against p r) in *.
  set (center := turn_center start_point normal_in against r) in *.
  set (fid := Zceil (p * PI * 2 * r)) in *.
  pose proof (Zceil_pos _ Hlen) as Hfid. fold fid in Hfid.
  assert (IZR fid <> 0) as Hfid0 by (apply not_0_IZR; lia).
  assert (r <> 0) as Hr by (intros ->; lra).
  assert (Rabs r <> 0) as Habs by now apply Rabs_no_R0.
  pose proof (turn_circle_radius start_point tangent_in normal_in against
                p r 1 Hunit) as Hmag.
  fold circle center in Hmag.
  assert (py_last (map (fun t => circle (IZR t / IZR fid)) (range (fid + 1)))
          = Ok (circle 1)) as Hlast.
  { rewrite (range_two_last fid Hfid), map_app. cbn [map].
    replace (IZR fid / IZR fid) with 1 by (field; exact Hfid0).
    apply py_last_two. }
  eexists _, _, _, (circle 1).
  split; [exact Hgen|].
  split; [now rewrite length_map, length_range|].
  split; [exact Hlast|].
  split.
  { unfold calculate_tangent_vector, calculate_tangent_angle.
    rewrite Hlast.
    rewrite (range_two_last fid Hfid), map_app. cbn [map].
    rewrite py_last_but_one_snoc. cbn [bind].
    replace (IZR fid / IZR fid) with 1 by (field; exact Hfid0).
    reflexivity. }
  split.
  { rewrite normalize_vec_ok by (rewrite Hmag; exact Habs).
    now rewrite Hmag. }
  split.
  { rewrite <- Hmag. apply magnitude_normalized. rewrite Hmag. exact Habs. }
  cbn [fst snd]. split; field; exact Habs.
Qed.

Lemma PI_bounds : 3.1415 < PI < 3.1416.
Proof.
  pose proof (PI_2_3_7_ineq 2) as [Hlo Hhi].
  unfold sum_f_R0, tg_alt, PI_2_3_7_tg, Ratan_seq in Hlo, Hhi.
  simpl in Hlo, Hhi.
  split; lra.
Qed.

(** With an arc length in [(-1, 0]] the sample count is 0 and the first
    sample divides by it. *)
Lemma generate_constant_turn_zero_samples
    (start_point tangent_in normal_in : vec) (against : bool) (p r : R)
    (rnd : draws) :
  -1 < p * PI * 2 * r <= 0 ->
  generate_constant_turn start_point tangent_in normal_in
                         (turn_params against p r) rnd
  = Raise ZeroDivisionError.
Proof.
  intros Hlen.
  unfold generate_constant_turn, turn_params, from_params.
  cbn [p_turn_against_normal p_circle_percent p_radius].
  rewrite (Zceil_eq 0) by (simpl; lra).
  change (range (0 + 1)) with [0%Z]. cbn [comprehension].
  now rewrite py_div_zero.
Qed.

(** With an arc length of -1 or less there is no sample and [points[-1]]
    fails. *)
Lemma generate_constant_turn_no_samples
    (start_point tangent_in normal_in : vec) (against : bool) (p r : R)
    (rnd : draws) :
  p * PI * 2 * r <= -1 ->
  generate_constant_turn start_point tangent_in normal_in
                         (turn_params against p r) rnd
  = Raise IndexError.
Proof.
  intros Hlen.
  unfold generate_constant_turn, turn_params, from_params.
  cbn [p_turn_against_normal p_circle_percent p_radius].
  assert (Zceil (p * PI * 2 * r) + 1 <= 0)%Z as Hfid.
  { pose proof (Zceil_bound (p * PI * 2 * r)) as [Hlo _].
    assert (IZR (Zceil (p * PI * 2 * r)) < 0) as H by lra.
    apply lt_IZR in H. lia. }
  unfold range. replace (Z.to_nat _) with 0%nat by lia.
  reflexivity.
Qed.

(** C6 as stated fails: for circle percent 0 the function does not return. *)
Lemma generate_constant_turn_zero_percent_raises :
  generate_constant_turn (0, 0) (1, 0) (0, 1) (turn_params false 0 10)
                         any_draws
  = Raise ZeroDivisionError.
Proof.
  apply generate_constant_turn_zero_samples. lra.
Qed.

(** The direction of a chord that rises at least 20 times as fast as it
    advances is within 0.05 of [(0,1)]. *)
Lemma steep_chord_direction (dx dy : R) :
  0 < dx -> 20 * dx <= dy ->
  0 < cos (atan2 dy dx) <= 0.05 /\ 0.998 <= sin (atan2 dy dx) <= 1.
Proof.
  intros Hdx Hdy. rewrite atan2_right by exact Hdx.
  set (z := dy / dx).
  assert (20 <= z) as Hz.
  { subst z. apply (Rmult_le_reg_r dx); [exact Hdx|].
    replace (dy / dx * dx) with dy by (field; lra). exact Hdy. }
  rewrite cos_atan, sin_atan. unfold Rsqr.
  set (s := sqrt (1 + z * z)).
  assert (0 <= 1 + z * z) as Hnn by nra.
  assert (s * s = 1 + z * z) as Hs by (apply sqrt_sqrt; exact Hnn).
  assert (0 < s) as Hspos by (apply sqrt_lt_R0; nra).
  assert (z <= s) as Hzs by nra.
  assert (0 < / s) as Hinv by now apply Rinv_0_lt_compat.
  assert (/ s * s = 1) as Hinv1 by (field; lra).
  unfold Rdiv. repeat split; nra.
Qed.

Lemma half_angle_steepness :
  0 < 10 - 10 * cos (PI / 32)
  /\ 20 * (10 - 10 * cos (PI / 32)) <= 10 * sin (PI / 32).
Proof.
  pose proof PI_bounds as [Hlo Hhi].
  set (h := PI / 64).
  replace (PI / 32) with (2 * h) by (subst h; field).
  rewrite cos_2a_sin, sin_2a.
  assert (0 < sin h) as Hs by (apply sin_gt_0; subst h; lra).
  assert (sin h < h) as Hsh by (apply sin_lt_x; subst h; lra).
  assert (0 < cos h) as Hc by (apply cos_gt_0; subst h; lra).
  pose proof (sin2_cos2 h) as H1. unfold Rsqr in H1.
  assert (h < 0.0491) as Hh by (subst h; lra).
  split; nra.
Qed.

Lemma quarter_turn_length : 15.70 < 0.25 * PI * 2 * 10 < 15.71.
Proof. pose proof PI_bounds. lra. Qed.

Lemma quarter_turn_evaluated :
  exists points tangent,
    generate_constant_turn (0, 0) (1, 0) (0, 1) (turn_params false 0.25 10)
                           any_draws
    = Ok (points, tangent, (1, 0), 0.25 * PI * 2 * 10)
    /\ length points = 17%nat
    /\ (0 < fst tangent <= 0.05 /\ 0.998 <= snd tangent <= 1).
Proof.
  pose proof quarter_turn_length as Hlen.
  pose proof (generate_constant_turn_explicit (0, 0) (1, 0) (0, 1) false
                0.25 10 any_draws) as Hgen.
  cbv zeta in Hgen.
  assert (Zceil (0.25 * PI * 2 * 10) = 16%Z) as Hfid
    by (apply Zceil_eq; simpl; lra).
  rewrite Hfid in Hgen.
  rewrite Hgen by (cbn [fst snd]; lra).
  assert (forall u,
             turn_circle (0, 0) (1, 0) (0, 1) false 0.25 10 u
             = (10 * sin (u * (PI / 2)), 10 - 10 * cos (u * (PI / 2))))
    as Hcircle.
  { intros u.
    unfold turn_circle, turn_center, turn_flipper, get_parametric_circle.
    cbn [fst snd].
    destruct (Rlt_dec (1 * 1 - 0 * 0) 0) as [Hneg|_]; [lra|].
    replace (1 * (0.25 * PI * 2)) with (PI / 2) by lra.
    f_equal; ring. }
  rewrite !Hcircle.
  replace (1 * (PI / 2)) with (PI / 2) by ring.
  change (16 - 1)%Z with 15%Z.
  replace (15 / 16 * (PI / 2)) with (PI / 2 - PI / 32) by field.
  rewrite sin_shift, cos_shift, sin_PI2, cos_PI2.
  cbn [fst snd].
  replace (10 * 1 - 10 * cos (PI / 32)) with (10 - 10 * cos (PI / 32)) by ring.
  replace (10 - 10 * 0 - (10 - 10 * sin (PI / 32))) with (10 * sin (PI / 32))
    by ring.
  destruct half_angle_steepness as [Hdx Hdy].
  unfold turn_center. cbn [fst snd].
  rewrite Rabs_right by lra.
  replace ((10 * 1 - (0 + 0 * 10)) / 10) with 1 by field.
  replace ((10 - 10 * 0 - (0 + 1 * 10)) / 10) with 0 by field.
  eexists _, _. split; [reflexivity|].
  split; [reflexivity|].
  cbn [fst snd]. apply steep_chord_direction; assumption.
Qed.

(** *** Properties of [generate_constant_turn_until_facing_point] *)

Lemma normalize_vec_unit (a b : R) :
  a * a + b * b = 1 -> normalize_vec (a, b) = Ok (a, b).
Proof.
  intros Hunit.
  assert (magnitude (a, b) = 1) as Hmag.
  { unfold magnitude. rewrite Hunit. apply sqrt_1. }
  rewrite normalize_vec_ok by (rewrite Hmag; lra).
  rewrite Hmag. f_equal. f_equal; field.
Qed.

(** A goal at the center of the turn circle: the clamp guard [abs(r/x) > 1]
    itself divides by the distance [x = 0]. *)
Lemma facing_point_goal_at_center (start_point tangent_in normal_in : vec)
    (against recursed : bool) (radius : R) (rnd : draws) :
  fst normal_in * fst normal_in + snd normal_in * snd normal_in = 1 ->
  generate_constant_turn_until_facing_point
    start_point (turn_center start_point normal_in against radius)
    tangent_in normal_in (facing_params against radius) recursed rnd
  = Raise ZeroDivisionError.
Proof.
  intros Hunit.
  unfold generate_constant_turn_until_facing_point, facing_params, from_params.
  cbn [p_turn_against_normal p_radius].
  unfold facing_point_body at 1. cbv zeta.
  destruct normal_in as [m0 m1]. cbn [fst snd] in *.
  unfold turn_center.
  destruct against; cbn [negb fst snd].
  - rewrite (normalize_vec_unit (- m0) (- m1)) by nra. cbn [bind fst snd].
    replace (magnitude _) with 0; [now rewrite py_div_zero|].
    unfold magnitude. symmetry.
    match goal with |- sqrt ?e = 0 => replace e with 0 by ring end.
    apply sqrt_0.
  - rewrite (normalize_vec_unit m0 m1) by nra. cbn [bind fst snd].
    replace (magnitude _) with 0; [now rewrite py_div_zero|].
    unfold magnitude. symmetry.
    match goal with |- sqrt ?e = 0 => replace e with 0 by ring end.
    apply sqrt_0.
Qed.

(** C9, evaluated on the code.  Start [(0,0)], tangent [(1,0)], normal
    [(0,1)], radius 10, turning with the normal: the circle center is
    [(0,10)], and for the goal [(0,10)] the function raises
    [ZeroDivisionError] at its clamp guard. *)
Theorem facing_point_goal_at_center_raises :
  turn_center (0, 0) (0, 1) false 10 = (0, 10)
  /\ generate_constant_turn_until_facing_point
       (0, 0) (0, 10) (1, 0) (0, 1) (facing_params false 10) false any_draws
     = Raise ZeroDivisionError.
Proof.
  assert (turn_center (0, 0) (0, 1) false 10 = (0, 10)) as Hcenter.
  { unfold turn_center. cbn [fst snd]. f_equal; ring. }
  split; [exact Hcenter|].
  rewrite <- Hcenter.
  apply (facing_point_goal_at_center (0, 0) (1, 0) (0, 1) false false 10).
  cbn [fst snd]. lra.
Qed.

Lemma inv2_identity : inv2 1 0 0 1 = Ok (1, 0, 0, 1).
Proof.
  unfold inv2. destruct (Req_dec_T (1 * 1 - 0 * 0) 0) as [H|_]; [lra|].
  f_equal. repeat f_equal; field.
Qed.

Lemma quadrant_of_first (g0 g1 r : R) :
  0 <= g0 -> - r <= g1 -> g1 <= 0 -> quadrant_of (g0, g1) r = 1%Z.
Proof.
  intros H0 H1 H2. unfold quadrant_of.
  destruct (Rle_dec 0 g0) as [_|H]; [|lra].
  destruct (Rle_dec (- r) g1) as [_|H]; [|lra].
  destruct (Rle_dec g1 0) as [_|H]; [|lra].
  reflexivity.
Qed.

Lemma facing_point_goal_at_start (recursed : bool) (rnd : draws) :
  generate_constant_turn_until_facing_point
    (0, 0) (0, 0) (1, 0) (0, 1) (facing_params false 10) recursed rnd
  = Raise ZeroDivisionError.
Proof.
  unfold generate_constant_turn_until_facing_point, facing_params, from_params.
  cbn [p_turn_against_normal p_radius].
  unfold facing_point_body at 1. cbv zeta. cbn [negb fst snd].
  rewrite (normalize_vec_unit 0 1) by lra. cbn [bind fst snd].
  replace (magnitude (- (0 + 10 * 0 - 0), - (0 + 10 * 1 - 0))) with 10.
  2:{ unfold magnitude. symmetry.
      match goal with |- sqrt ?e = _ => replace e with (10 * 10) by ring end.
      apply sqrt_square. lra. }
  rewrite py_div_ok by lra. cbn [bind].
  replace (10 / 10) with 1 by field.
  destruct (Rlt_dec 1 (Rabs 1)) as [H|_];
    [rewrite Rabs_R1 in H; lra|].
  rewrite inv2_identity. cbn [bind].
  unfold matmul2. cbn [fst snd].
  rewrite !quadrant_of_first by lra.
  change (1 =? 1)%Z with true. cbn [orb].
  replace ((1 - 1) * PI / 2) with 0 by lra.
  rewrite cos_0, sin_0.
  rewrite py_div_ok by lra. cbn [bind].
  replace (10 / 10) with 1 by field.
  unfold py_acos.
  destruct (Rle_dec (-1) 1) as [_|H]; [|lra].
  destruct (Rle_dec 1 1) as [_|H]; [|lra].
  cbn [bind]. rewrite acos_1.
  match goal with
  | |- context [atan2 ?a ?b] => replace (atan2 a b) with 0
  end.
  2:{ rewrite atan2_right by lra.
      match goal with
      | |- context [Rabs ?c] => replace c with 0 by ring
      end.
      rewrite Rabs_R0. unfold Rdiv. now rewrite Rmult_0_l, atan_0. }
  replace (0 - 0 + 0) with 0 by ring.
  pose proof PI_RGT_0 as Hpi.
  destruct (Rlt_dec (2 * (31 / 32) * PI) 0) as [H|_]; [lra|].
  cbn [andb].
  apply (generate_constant_turn_zero_samples (0, 0) (1, 0) (0, 1) false
           (0 / (PI * 2)) 10 rnd).
  unfold Rdiv. rewrite Rmult_0_l. lra.
Qed.

(** A requested length of 0 yields no point at all; a caller that reads
    [generated[-1]] then fails. *)
Lemma generate_straight_zero_length (start_point tangent_in normal_in : vec)
    (rnd : draws) :
  generate_straight start_point tangent_in normal_in (with_length 0) rnd
  = Ok ([], tangent_in, normal_in, 0).
Proof.
  unfold generate_straight. destruct start_point as [startx starty].
  rewrite straight_tmax_defined. cbn [bind with_length p_length from_params].
  set (s := sqrt _).
  assert (0 / s = 0) as H0 by (unfold Rdiv; apply Rmult_0_l).
  rewrite H0.
  replace (0 * -1) with 0 by ring.
  assert ((if Rlt_dec
                (calculate_vector_angle tangent_in
                 * tan (calculate_vector_angle tangent_in)) 0
           then 0 else 0) = 0) as -> by (now destruct (Rlt_dec _ 0)).
  destruct (Rle_dec 0 0) as [_|H]; [|lra].
  change 0 with (IZR 0). rewrite Zceil_IZR. reflexivity.
Qed.

(** C6, as the code has it.  For a unit normal and every radius [r] and
    circle percent [p] with a positive arc length [r * (p * 2 PI)],
    [generate_constant_turn] returns: that arc length; [ceil(arc length) + 1]
    sampled points (one per step of the [ceil(arc length)] sampling steps,
    both ends included); the exit tangent computed from the last two points;
    and an exit normal that is the unit vector from the circle center to the
    final sampled point, which lies at distance [|r|] from the center.  With
    circle percent 0.25, radius 10, tangent [(1,0)], normal [(0,1)], turning
    with the normal: 17 points, exit normal [(1,0)], arc length between 15.70
    and 15.71, exit tangent within 0.05 of [(0,1)]. *)
Theorem generate_constant_turn_contract :
  (forall (start_point tangent_in normal_in : vec) (against : bool)
          (p r : R) (rnd : draws),
      fst normal_in * fst normal_in + snd normal_in * snd normal_in = 1 ->
      0 < p * PI * 2 * r ->
      exists points tangent normal last_point,
        generate_constant_turn start_point tangent_in normal_in
                               (turn_params against p r) rnd
        = Ok (points, tangent, normal, r * (p * (2 * PI)))
        /\ length points = Z.to_nat (Zceil (r * (p * (2 * PI))) + 1)
        /\ py_last points = Ok last_point
        /\ calculate_tangent_vector points = Ok tangent
        /\ normalize_vec
             (fst last_point
              - fst (turn_center start_point normal_in against r),
              snd last_point
              - snd (turn_center start_point normal_in against r))
           = Ok normal
        /\ magnitude normal = 1
        /\ fst last_point
           = fst (turn_center start_point normal_in against r)
             + Rabs r * fst normal
        /\ snd last_point
           = snd (turn_center start_point normal_in against r)
             + Rabs r * snd normal)
  /\ (exists points tangent,
        generate_constant_turn (0, 0) (1, 0) (0, 1)
                               (turn_params false 0.25 10) any_draws
        = Ok (points, tangent, (1, 0), 0.25 * PI * 2 * 10)
        /\ length points = 17%nat
        /\ 15.70 < 0.25 * PI * 2 * 10 < 15.71
        /\ 0 < fst tangent <= 0.05
        /\ 0.998 <= snd tangent <= 1).
Proof.
  split.
  - intros. now apply generate_constant_turn_positive.
  - destruct quarter_turn_evaluated as (points & tangent & Hgen & Hlen & Hx & Hy).
    exists points, tangent.
    split; [exact Hgen|]. split; [exact Hlen|].
    split; [exact quarter_turn_length|]. split; assumption.
Qed.

Lemma generate_constant_turn_contract_witness :
  exists points tangent normal last_point,
    generate_constant_turn (3, 4) (0.6, 0.8) (-0.8, 0.6)
                           (turn_params true 0.5 2) any_draws
    = Ok (points, tangent, normal, 2 * (0.5 * (2 * PI)))
    /\ length points = Z.to_nat (Zceil (2 * (0.5 * (2 * PI))) + 1)
    /\ py_last points = Ok last_point
    /\ calculate_tangent_vector points = Ok tangent
    /\ normalize_vec
         (fst last_point - fst (turn_center (3, 4) (-0.8, 0.6) true 2),
          snd last_point - snd (turn_center (3, 4) (-0.8, 0.6) true 2))
       = Ok normal
    /\ magnitude normal = 1
    /\ fst last_point
       = fst (turn_center (3, 4) (-0.8, 0.6) true 2) + Rabs 2 * fst normal
    /\ snd last_point
       = snd (turn_center (3, 4) (-0.8, 0.6) true 2) + Rabs 2 * snd normal.
Proof.
  apply (proj1 generate_constant_turn_contract
               (3, 4) (0.6, 0.8) (-0.8, 0.6) true 0.5 2 any_draws).
  - cbn [fst snd]. lra.
  - pose proof PI_RGT_0. lra.
Defined.

(** *** More on the parametric circle and the straight *)

(** X14.  Every point of the parametric circle is as far from the centre
    as the start point is; the parameter 0 gives the start point, and so does
    a full turn of [2 PI]. *)
Theorem get_parametric_circle_on_circle (start_point center_point : vec)
    (delta_angle t : R) :
  let p := get_parametric_circle start_point center_point delta_angle t in
  (fst p - fst center_point) * (fst p - fst center_point)
  + (snd p - snd center_point) * (snd p - snd center_point)
  = (fst start_point - fst center_point) * (fst start_point - fst center_point)
    + (snd start_point - snd center_point)
      * (snd start_point - snd center_point)
  /\ get_parametric_circle start_point center_point delta_angle 0 = start_point
  /\ get_parametric_circle start_point center_point (2 * PI) 1 = start_point.
Proof.
  destruct start_point as [sx sy], center_point as [cx cy].
  unfold get_parametric_circle. cbn [fst snd].
  split; [|split].
  - pose proof (sin2_cos2 (t * delta_angle)) as H. unfold Rsqr in H.
    transitivity ((sin (t * delta_angle) * sin (t * delta_angle)
                   + cos (t * delta_angle) * cos (t * delta_angle))
                  * ((sx - cx) * (sx - cx) + (sy - cy) * (sy - cy)));
      [ring|rewrite H; ring].
  - rewrite Rmult_0_l, cos_0, sin_0. f_equal; ring.
  - rewrite Rmult_1_l, cos_2PI, sin_2PI. f_equal; ring.
Qed.

Lemma generate_straight_cases (sx sy : R) (tangent_in normal_in : vec)
    (prm : params) (rnd : draws) :
  let length := from_params (p_length prm) (drawn_length rnd) in
  let slope := tan (calculate_vector_angle tangent_in) in
  exists tmax,
    Rabs tmax * sqrt (1 + slope * slope) = Rabs length
    /\ generate_straight (sx, sy) tangent_in normal_in prm rnd
       = Ok ((if Rle_dec 0 tmax
              then map (fun t => (IZR t / 10 + sx, slope * IZR t / 10 + sy))
                       (range (10 * Zceil tmax))
              else map (fun t => (- IZR t / 10 + sx,
                                  - slope * IZR t / 10 + sy))
                       (range (10 * Zceil (- tmax)))),
             tangent_in, normal_in, length).
Proof.
  intros length slope. unfold generate_straight.
  rewrite straight_tmax_defined. cbn [bind]. fold length slope.
  set (s := sqrt (1 + slope * slope)).
  assert (1 <= s) as Hs by apply sqrt_one_plus_square_ge_1.
  assert (Rabs (length / s) * s = Rabs length) as Habs.
  { unfold Rdiv. rewrite Rabs_mult, Rabs_inv, (Rabs_pos_eq s) by lra.
    field. lra. }
  eexists. split; [|reflexivity].
  destruct (Rlt_dec _ 0); [|exact Habs].
  rewrite Rabs_mult.
  replace (Rabs (-1)) with 1 by (rewrite Rabs_left; lra).
  lra.
Qed.

Lemma range_nil (n : Z) : range n = [] <-> (n <= 0)%Z.
Proof.
  unfold range. split.
  - intros H. apply (f_equal (@List.length Z)) in H.
    rewrite length_map, length_seq in H. simpl in H. lia.
  - intros H. replace (Z.to_nat n) with 0%nat by lia. reflexivity.
Qed.

Lemma Zceil_nonpos (x : R) : (Zceil x <= 0)%Z <-> x <= 0.
Proof.
  pose proof (Zceil_bound x) as [Hlo Hhi]. split.
  - intros H. apply IZR_le in H. lra.
  - intros H. assert (IZR (Zceil x) - 1 < 0) as H1 by lra.
    assert (IZR (Zceil x) < IZR 1) as H2 by lra.
    apply lt_IZR in H2. lia.
Qed.

Lemma tan_defined_atan (x : R) : tan_defined (atan x).
Proof.
  pose proof (atan_bound x) as [Hlo Hhi].
  assert (0 < cos (atan x)) by (apply cos_gt_0; lra).
  unfold tan_defined. lra.
Qed.

(** X15.  For a tangent whose angle is not at a pole of the tangent (the
    tangent is not vertical) and is not [PI] (it does not point along the
    negative x axis), [generate_straight] does not raise.  It returns the
    tangent, the normal and the length it was given; its list of points is
    empty exactly when the length is 0, has a multiple of 10 entries, starts
    at the start point, and lies on the line through the start point with
    slope [tan(angle)]. *)
Theorem generate_straight_points (sx sy : R) (tangent_in normal_in : vec)
    (prm : params) (rnd : draws) :
  let length := from_params (p_length prm) (drawn_length rnd) in
  let slope := tan (calculate_vector_angle tangent_in) in
  tan_defined (calculate_vector_angle tangent_in) ->
  calculate_vector_angle tangent_in <> PI ->
  exists points,
    generate_straight (sx, sy) tangent_in normal_in prm rnd
    = Ok (points, tangent_in, normal_in, length)
    /\ (points = [] <-> length = 0)
    /\ (exists k : nat, List.length points = (10 * k)%nat)
    /\ (points <> [] -> head points = Some (sx, sy))
    /\ (forall q, In q points -> snd q - sy = slope * (fst q - sx)).
Proof.
  intros length slope _ _.
  destruct (generate_straight_cases sx sy tangent_in normal_in prm rnd)
    as (tmax & Habs & Hgen).
  fold length slope in Habs, Hgen.
  set (s := sqrt (1 + slope * slope)) in *.
  assert (1 <= s) as Hs by apply sqrt_one_plus_square_ge_1.
  assert (tmax = 0 <-> length = 0) as Hzero.
  { split; intros H.
    - rewrite H, Rabs_R0, Rmult_0_l in Habs.
      destruct (Req_dec length 0) as [|Hne]; [assumption|].
      apply Rabs_no_R0 in Hne. lra.
    - rewrite H, Rabs_R0 in Habs.
      destruct (Req_dec tmax 0) as [|Hne]; [assumption|].
      apply Rabs_pos_lt in Hne. nra. }
  eexists. split; [exact Hgen|].
  destruct (Rle_dec 0 tmax) as [Hpos|Hneg].
  - split; [|split; [|split]].
    + rewrite <- Hzero. split.
      * intros H. apply map_eq_nil in H. apply range_nil in H.
        assert (Zceil tmax <= 0)%Z as Hc by lia.
        apply Zceil_nonpos in Hc. lra.
      * intros ->. change 0 with (IZR 0). rewrite Zceil_IZR. reflexivity.
    + exists (Z.to_nat (Zceil tmax)).
      rewrite length_map, length_range.
      destruct (Z_le_gt_dec (Zceil tmax) 0); lia.
    + intros Hne. destruct (range (10 * Zceil tmax)) as [|t0 rest] eqn:Hr;
        [contradiction|].
      assert (t0 = 0%Z) as ->.
      { unfold range in Hr. destruct (Z.to_nat _); [discriminate|].
        simpl in Hr. now injection Hr as <- _. }
      cbn [map head]. do 2 f_equal; field.
    + intros q Hq. apply in_map_iff in Hq as (t & <- & _).
      cbn [fst snd]. field.
  - apply Rnot_le_lt in Hneg.
    assert (1 <= Zceil (- tmax))%Z as Hc by (apply Zceil_pos; lra).
    split; [|split; [|split]].
    + rewrite <- Hzero. split.
      * intros H. apply map_eq_nil in H. apply range_nil in H. lia.
      * intros ->. lra.
    + exists (Z.to_nat (Zceil (- tmax))).
      rewrite length_map, length_range. lia.
    + intros Hne. destruct (range (10 * Zceil (- tmax))) as [|t0 rest] eqn:Hr;
        [contradiction|].
      assert (t0 = 0%Z) as ->.
      { unfold range in Hr. destruct (Z.to_nat _); [discriminate|].
        simpl in Hr. now injection Hr as <- _. }
      cbn [map head]. do 2 f_equal; field.
    + intros q Hq. apply in_map_iff in Hq as (t & <- & _).
      cbn [fst snd]. field.
Qed.

Lemma generate_straight_points_witness :
  exists points,
    generate_straight (3, 4) (0.6, 0.8) (-0.8, 0.6) (with_length 20) any_draws
    = Ok (points, (0.6, 0.8), (-0.8, 0.6), 20)
    /\ (points = [] <-> 20 = 0)
    /\ (exists k : nat, List.length points = (10 * k)%nat)
    /\ (points <> [] -> head points = Some (3, 4))
    /\ (forall q, In q points ->
          snd q - 4 = tan (calculate_vector_angle (0.6, 0.8)) * (fst q - 3)).
Proof.
  apply (generate_straight_points 3 4 (0.6, 0.8) (-0.8, 0.6) (with_length 20)
           any_draws).
  - unfold calculate_vector_angle. rewrite atan2_right by lra.
    apply tan_defined_atan.
  - unfold calculate_vector_angle. rewrite atan2_right by lra.
    pose proof (atan_bound (0.8 / 0.6)). pose proof PI_RGT_0. lra.
Defined.

Lemma range_last (n : Z) :
  (1 <= n)%Z -> py_last (range n) = Ok (n - 1)%Z.
Proof.
  intros Hn. replace n with (n - 1 + 1)%Z at 1 by lia.
  rewrite range_succ by lia. apply py_last_snoc.
Qed.

Lemma py_last_map {A B : Type} (f : A -> B) (l : list A) (a : A) :
  py_last l = Ok a -> py_last (map f l) = Ok (f a).
Proof.
  unfold py_last. destruct (last l) as [x|] eqn:Hl; [|discriminate].
  intros [= <-].
  change (map f l) with (f <$> l). now rewrite fmap_last, Hl.
Qed.

Lemma sqrt_scaled_square (s a : R) :
  0 <= a -> sqrt ((a * a) * (s * s)) = a * Rabs s.
Proof.
  intros Ha. rewrite sqrt_mult by nra.
  rewrite sqrt_square by exact Ha.
  f_equal. change (s * s) with (Rsqr s). apply sqrt_Rsqr_abs.
Qed.

(** X16.  For a tangent whose angle is not at a pole of the tangent and is
    not [PI], and a length other than 0, the last point of
    [generate_straight] lies at a distance [d] from the start point with
    [|length| - 0.1 s <= d < |length| + 0.9 s], where
    [s = sqrt (1 + slope^2)]: the span is the requested length only up to the
    rounding of the parameter range to whole units. *)
Theorem generate_straight_span (sx sy : R) (tangent_in normal_in : vec)
    (prm : params) (rnd : draws) :
  let length := from_params (p_length prm) (drawn_length rnd) in
  let slope := tan (calculate_vector_angle tangent_in) in
  let s := sqrt (1 + slope * slope) in
  tan_defined (calculate_vector_angle tangent_in) ->
  calculate_vector_angle tangent_in <> PI ->
  length <> 0 ->
  exists points last_point,
    generate_straight (sx, sy) tangent_in normal_in prm rnd
    = Ok (points, tangent_in, normal_in, length)
    /\ py_last points = Ok last_point
    /\ Rabs length - 0.1 * s
       <= sqrt ((fst last_point - sx) * (fst last_point - sx)
                + (snd last_point - sy) * (snd last_point - sy))
       < Rabs length + 0.9 * s.
Proof.
  intros length slope s _ _ Hlen.
  destruct (generate_straight_cases sx sy tangent_in normal_in prm rnd)
    as (tmax & Habs & Hgen).
  fold length slope s in Habs, Hgen.
  assert (1 <= s) as Hs by apply sqrt_one_plus_square_ge_1.
  assert (s * s = 1 + slope * slope) as Hss by (apply sqrt_sqrt; nra).
  assert (tmax <> 0) as Htmax.
  { intros ->. rewrite Rabs_R0, Rmult_0_l in Habs.
    apply Rabs_no_R0 in Hlen. lra. }
  assert (forall m : Z, IZR m - 1 < Rabs tmax <= IZR m ->
            Rabs length - 0.1 * s <= (IZR m - 0.1) * s
            < Rabs length + 0.9 * s) as Hbound.
  { intros m [Hlo Hhi]. rewrite <- Habs. split; nra. }
  destruct (Rle_dec 0 tmax) as [Hpos|Hneg].
  - assert (0 < tmax) as Hpos' by lra.
    pose proof (Zceil_pos _ Hpos') as Hc.
    pose proof (Zceil_bound tmax) as Hcb.
    rewrite <- (Rabs_pos_eq tmax) in Hcb at 2 3 by lra.
    eexists _, _. split; [exact Hgen|]. split.
    { apply py_last_map. apply range_last. lia. }
    cbn [fst snd].
    replace (10 * Zceil tmax - 1)%Z with (10 * Zceil tmax + -1)%Z by lia.
    rewrite plus_IZR, mult_IZR.
    set (m := IZR (Zceil tmax)) in *.
    assert (1 <= m) as Hm by (subst m; apply IZR_le; lia).
    match goal with
    | |- _ <= sqrt ?e < _ =>
        replace e with (((m - 1 / 10) * (m - 1 / 10)) * (s * s))
          by (rewrite Hss; field)
    end.
    rewrite sqrt_scaled_square by lra.
    replace (m - 1 / 10) with (m - 0.1) by lra.
    rewrite (Rabs_pos_eq s) by lra.
    apply Hbound. exact Hcb.
  - apply Rnot_le_lt in Hneg.
    assert (0 < - tmax) as Hpos' by lra.
    pose proof (Zceil_pos _ Hpos') as Hc.
    pose proof (Zceil_bound (- tmax)) as Hcb.
    rewrite <- (Rabs_left tmax) in Hcb at 2 3 by lra.
    eexists _, _. split; [exact Hgen|]. split.
    { apply py_last_map. apply range_last. lia. }
    cbn [fst snd].
    replace (10 * Zceil (- tmax) - 1)%Z with (10 * Zceil (- tmax) + -1)%Z
      by lia.
    rewrite plus_IZR, mult_IZR.
    set (m := IZR (Zceil (- tmax))) in *.
    assert (1 <= m) as Hm by (subst m; apply IZR_le; lia).
    match goal with
    | |- _ <= sqrt ?e < _ =>
        replace e with (((m - 1 / 10) * (m - 1 / 10)) * (s * s))
          by (rewrite Hss; field)
    end.
    rewrite sqrt_scaled_square by lra.
    replace (m - 1 / 10) with (m - 0.1) by lra.
    rewrite (Rabs_pos_eq s) by lra.
    apply Hbound. exact Hcb.
Qed.

Lemma generate_straight_span_witness :
  let s := sqrt (1 + tan (calculate_vector_angle (0.6, 0.8))
                     * tan (calculate_vector_angle (0.6, 0.8))) in
  exists points last_point,
    generate_straight (3, 4) (0.6, 0.8) (-0.8, 0.6) (with_length 20) any_draws
    = Ok (points, (0.6, 0.8), (-0.8, 0.6), 20)
    /\ py_last points = Ok last_point
    /\ Rabs 20 - 0.1 * s
       <= sqrt ((fst last_point - 3) * (fst last_point - 3)
                + (snd last_point - 4) * (snd last_point - 4))
       < Rabs 20 + 0.9 * s.
Proof.
  apply (generate_straight_span 3 4 (0.6, 0.8) (-0.8, 0.6) (with_length 20)
           any_draws).
  - unfold calculate_vector_angle. rewrite atan2_right by lra.
    apply tan_defined_atan.
  - unfold calculate_vector_angle. rewrite atan2_right by lra.
    pose proof (atan_bound (0.8 / 0.6)). pose proof PI_RGT_0. lra.
  - cbn [with_length p_length from_params]. lra.
Defined.

(** *** The outcomes and the samples of [generate_constant_turn] *)

(** X17.  For a unit normal, [generate_constant_turn] returns exactly when
    the arc length [circle_percent * 2 PI * radius] is positive; it raises
    [ZeroDivisionError] exactly when the arc length is in [(-1, 0]] and
    [IndexError] exactly when it is at most -1. *)
Theorem generate_constant_turn_outcome
    (start_point tangent_in normal_in : vec) (against : bool) (p r : R)
    (rnd : draws) :
  fst normal_in * fst normal_in + snd normal_in * snd normal_in = 1 ->
  let outcome :=
    generate_constant_turn start_point tangent_in normal_in
                           (turn_params against p r) rnd in
  let arc_length := p * PI * 2 * r in
  ((exists res, outcome = Ok res) <-> 0 < arc_length)
  /\ (outcome = Raise ZeroDivisionError <-> -1 < arc_length <= 0)
  /\ (outcome = Raise IndexError <-> arc_length <= -1).
Proof.
  intros Hunit outcome arc_length.
  destruct (Rlt_dec 0 arc_length) as [Hpos|Hnpos].
  - pose proof (generate_constant_turn_explicit start_point tangent_in
                  normal_in against p r rnd Hunit Hpos) as Hgen.
    cbv zeta in Hgen. fold outcome in Hgen.
    split; [|split].
    + split; [intros _; exact Hpos|intros _; eexists; exact Hgen].
    + split; [rewrite Hgen; discriminate|lra].
    + split; [rewrite Hgen; discriminate|lra].
  - destruct (Rlt_dec (-1) arc_length) as [Hmid|Hlow].
    + assert (outcome = Raise ZeroDivisionError) as Hgen
        by (apply generate_constant_turn_zero_samples; fold arc_length; lra).
      split; [|split].
      * split; [intros [res Hres]; congruence|lra].
      * split; [lra|intros _; exact Hgen].
      * split; [rewrite Hgen; discriminate|lra].
    + assert (outcome = Raise IndexError) as Hgen
        by (apply generate_constant_turn_no_samples; fold arc_length; lra).
      split; [|split].
      * split; [intros [res Hres]; congruence|lra].
      * split; [rewrite Hgen; discriminate|lra].
      * split; [lra|intros _; exact Hgen].
Qed.

Lemma generate_constant_turn_outcome_witness :
  let outcome :=
    generate_constant_turn (0, 0) (1, 0) (0, 1) (turn_params true (-0.005) 10)
                           any_draws in
  let arc_length := -0.005 * PI * 2 * 10 in
  ((exists res, outcome = Ok res) <-> 0 < arc_length)
  /\ (outcome = Raise ZeroDivisionError <-> -1 < arc_length <= 0)
  /\ (outcome = Raise IndexError <-> arc_length <= -1).
Proof.
  apply (generate_constant_turn_outcome (0, 0) (1, 0) (0, 1) true (-0.005) 10
           any_draws).
  cbn [fst snd]. lra.
Defined.

Lemma sin_square_le (x : R) : sin x * sin x <= x * x.
Proof.
  assert (forall y, 0 <= y -> - y <= sin y <= y) as Hnn.
  { intros y Hy. split.
    - destruct (Rle_dec y 1) as [Hle|Hgt].
      + assert (0 <= sin y); [|lra].
        apply sin_ge_0; [exact Hy|]. pose proof PI_bounds. lra.
      + pose proof (SIN_bound y). lra.
    - destruct (Req_dec y 0) as [->|Hne]; [rewrite sin_0; lra|].
      assert (sin y < y) by (apply sin_lt_x; lra). lra. }
  destruct (Rle_dec 0 x) as [Hx|Hx].
  - pose proof (Hnn x Hx). nra.
  - assert (0 <= - x) as Hx' by lra.
    pose proof (Hnn (- x) Hx') as H. rewrite sin_neg in H. nra.
Qed.

Lemma one_minus_cos_le (x : R) : 2 - 2 * cos x <= x * x.
Proof.
  replace x with (2 * (x / 2)) at 1 by field.
  rewrite cos_2a_sin.
  pose proof (sin_square_le (x / 2)). nra.
Qed.

Lemma parametric_circle_chord (sx sy cx cy a1 a2 : R) :
  let p1 := (cos a1 * (sx - cx) - sin a1 * (sy - cy) + cx,
             sin a1 * (sx - cx) + cos a1 * (sy - cy) + cy) in
  let p2 := (cos a2 * (sx - cx) - sin a2 * (sy - cy) + cx,
             sin a2 * (sx - cx) + cos a2 * (sy - cy) + cy) in
  (fst p2 - fst p1) * (fst p2 - fst p1) + (snd p2 - snd p1) * (snd p2 - snd p1)
  = ((sx - cx) * (sx - cx) + (sy - cy) * (sy - cy)) * (2 - 2 * cos (a2 - a1)).
Proof.
  cbn [fst snd]. rewrite cos_minus.
  pose proof (sin2_cos2 a1) as H1. pose proof (sin2_cos2 a2) as H2.
  unfold Rsqr in H1, H2.
  set (c1 := cos a1) in *. set (s1 := sin a1) in *.
  set (c2 := cos a2) in *. set (s2 := sin a2) in *.
  transitivity
    (((sx - cx) * (sx - cx) + (sy - cy) * (sy - cy))
     * ((s1 * s1 + c1 * c1) + (s2 * s2 + c2 * c2)
        - 2 * (c2 * c1 + s2 * s1))); [ring|].
  rewrite H1, H2. ring.
Qed.

Lemma lookup_map_range {A : Type} (g : Z -> A) (n : Z) (i : nat) (a : A) :
  map g (range n) !! i = Some a -> a = g (Z.of_nat i) /\ (Z.of_nat i < n)%Z.
Proof.
  unfold range. rewrite map_map.
  change (map (fun x => g (Z.of_nat x)) (seq 0 (Z.to_nat n)))
    with ((fun x => g (Z.of_nat x)) <$> seq 0 (Z.to_nat n)).
  rewrite list_lookup_fmap.
  destruct (seq 0 (Z.to_nat n) !! i) as [k|] eqn:Hk; [|discriminate].
  apply lookup_seq in Hk as [-> Hlt]. simpl. intros [= <-]. split; [reflexivity|lia].
Qed.

Lemma head_map_range {A : Type} (g : Z -> A) (n : Z) :
  (1 <= n)%Z -> head (map g (range n)) = Some (g 0%Z).
Proof.
  intros Hn. unfold range.
  destruct (Z.to_nat n) as [|k] eqn:Hk; [lia|]. reflexivity.
Qed.

(** X18.  For a unit normal and a positive arc length, the points of
    [generate_constant_turn] start at the start point, all lie on the circle
    of radius [|radius|] around the centre, and neighbours are at most 1
    apart. *)
Theorem generate_constant_turn_samples
    (start_point tangent_in normal_in : vec) (against : bool) (p r : R)
    (rnd : draws) :
  fst normal_in * fst normal_in + snd normal_in * snd normal_in = 1 ->
  0 < p * PI * 2 * r ->
  let center := turn_center start_point normal_in against r in
  exists points tangent normal,
    generate_constant_turn start_point tangent_in normal_in
                           (turn_params against p r) rnd
    = Ok (points, tangent, normal, p * PI * 2 * r)
    /\ head points = Some start_point
    /\ (forall q, In q points ->
          (fst q - fst center) * (fst q - fst center)
          + (snd q - snd center) * (snd q - snd center) = r * r)
    /\ (forall (i : nat) (a b : vec),
          points !! i = Some a -> points !! S i = Some b ->
          (fst b - fst a) * (fst b - fst a) + (snd b - snd a) * (snd b - snd a)
          <= 1).
Proof.
  intros Hunit Hlen center.
  pose proof (generate_constant_turn_explicit start_point tangent_in
                normal_in against p r rnd Hunit Hlen) as Hgen.
  cbv zeta in Hgen.
  set (fid := Zceil (p * PI * 2 * r)) in *.
  pose proof (Zceil_pos _ Hlen) as Hfid. fold fid in Hfid.
  pose proof (Zceil_bound (p * PI * 2 * r)) as [_ Hceil]. fold fid in Hceil.
  assert (1 <= IZR fid) as Hfid1 by (apply IZR_le; lia).
  destruct start_point as [sx sy].
  set (nv := if against then (- fst normal_in, - snd normal_in)
             else normal_in).
  assert (fst nv * fst nv + snd nv * snd nv = 1) as Hnv.
  { subst nv. destruct against; cbn [fst snd]; nra. }
  assert (center = (sx + fst nv * r, snd (sx, sy) + snd nv * r)) as Hcenter
    by reflexivity.
  cbn [snd] in Hcenter.
  set (delta := turn_flipper tangent_in normal_in against * (p * PI * 2)).
  assert (delta * delta = (p * PI * 2) * (p * PI * 2)) as Hdelta.
  { subst delta. unfold turn_flipper. destruct (Rlt_dec _ 0); ring. }
  assert (forall u,
             turn_circle (sx, sy) tangent_in normal_in against p r u
             = (cos (u * delta) * (sx - fst center)
                - sin (u * delta) * (sy - snd center) + fst center,
                sin (u * delta) * (sx - fst center)
                + cos (u * delta) * (sy - snd center) + snd center))
    as Hcircle by (intros u; reflexivity).
  assert ((sx - fst center) * (sx - fst center)
          + (sy - snd center) * (sy - snd center) = r * r) as Hradius.
  { rewrite Hcenter. cbn [fst snd].
    transitivity ((fst nv * fst nv + snd nv * snd nv) * (r * r)); [ring|].
    rewrite Hnv. ring. }
  eexists _, _, _. split; [exact Hgen|].
  split; [|split].
  - rewrite head_map_range by lia. rewrite Hcircle.
    replace (0 / IZR fid * delta) with 0 by (field; lra).
    rewrite cos_0, sin_0. do 2 f_equal; ring.
  - intros q Hq. apply in_map_iff in Hq as (t & <- & _).
    rewrite Hcircle. cbn [fst snd].
    pose proof (sin2_cos2 (IZR t / IZR fid * delta)) as H. unfold Rsqr in H.
    rewrite <- Hradius.
    transitivity ((sin (IZR t / IZR fid * delta) * sin (IZR t / IZR fid * delta)
                   + cos (IZR t / IZR fid * delta)
                     * cos (IZR t / IZR fid * delta))
                  * ((sx - fst center) * (sx - fst center)
                     + (sy - snd center) * (sy - snd center)));
      [ring|rewrite H; ring].
  - intros i a b Ha Hb.
    apply lookup_map_range in Ha as [-> _].
    apply lookup_map_range in Hb as [-> _].
    rewrite !Hcircle.
    rewrite (parametric_circle_chord sx sy (fst center) (snd center)).
    rewrite Hradius.
    set (theta := IZR (Z.of_nat (S i)) / IZR fid * delta
                  - IZR (Z.of_nat i) / IZR fid * delta).
    assert (theta = delta / IZR fid) as Htheta.
    { subst theta. rewrite Nat2Z.inj_succ, succ_IZR. field. lra. }
    pose proof (one_minus_cos_le theta) as Hcos.
    assert (0 <= 2 - 2 * cos theta) as Hnn.
    { pose proof (COS_bound theta). lra. }
    assert (r * r * (theta * theta) <= 1) as Hstep.
    { rewrite Htheta.
      replace (r * r * (delta / IZR fid * (delta / IZR fid)))
        with ((delta * delta) * (r * r) / (IZR fid * IZR fid))
        by (field; lra).
      rewrite Hdelta.
      set (arc := p * PI * 2 * r) in *.
      replace (p * PI * 2 * (p * PI * 2) * (r * r)) with (arc * arc)
        by (subst arc; ring).
      assert (arc * arc <= IZR fid * IZR fid) as Hsq by nra.
      apply (Rmult_le_reg_r (IZR fid * IZR fid)); [nra|].
      replace (arc * arc / (IZR fid * IZR fid) * (IZR fid * IZR fid))
        with (arc * arc) by (field; lra).
      lra. }
    assert (0 <= r * r) by nra.
    nra.
Qed.

Lemma generate_constant_turn_samples_witness :
  exists points tangent normal,
    generate_constant_turn (3, 4) (0.6, 0.8) (-0.8, 0.6)
                           (turn_params true 0.5 2) any_draws
    = Ok (points, tangent, normal, 0.5 * PI * 2 * 2)
    /\ head points = Some (3, 4)
    /\ (forall q, In q points ->
          (fst q - fst (turn_center (3, 4) (-0.8, 0.6) true 2))
          * (fst q - fst (turn_center (3, 4) (-0.8, 0.6) true 2))
          + (snd q - snd (turn_center (3, 4) (-0.8, 0.6) true 2))
            * (snd q - snd (turn_center (3, 4) (-0.8, 0.6) true 2)) = 2 * 2)
    /\ (forall (i : nat) (a b : vec),
          points !! i = Some a -> points !! S i = Some b ->
          (fst b - fst a) * (fst b - fst a) + (snd b - snd a) * (snd b - snd a)
          <= 1).
Proof.
  apply (generate_constant_turn_samples (3, 4) (0.6, 0.8) (-0.8, 0.6) true
           0.5 2 any_draws).
  - cbn [fst snd]. lra.
  - pose proof PI_RGT_0. lra.
Defined.

End Primitives.

(** ** The Bezier generator *)

Module Bezier.

Import Primitives.
Import Lra.
Local Open Scope R_scope.

(** [scipy.special.binom(n, k)] for naturals [k <= n]: the binomial
    coefficient, as a float. *)
Definition binom (n k : nat) : R := C n k.

(** One round of the loop of [to_return], for the index [i] and the control
    point [cp[i]]. *)
Definition bezier_term (n : nat) (t : R) (sums : vec) (ip : nat * vec) : vec :=
  let '(the_sum_x, the_sum_y) := sums in
  let '(i, p) := ip in
  let coefficient := binom (n - 1) i * (1 - t) ^ (n - i - 1) * t ^ i in
  (the_sum_x + coefficient * fst p, the_sum_y + coefficient * snd p).

(** [get_parametric_bezier(control_points)]: the function of [t] that it
    returns.  The loop [for i in range(n)] reads [cp[i]]: it walks the pairs
    [(i, cp[i])]. *)
Definition get_parametric_bezier (control_points : list vec) (t : R) : vec :=
  let cp := control_points in
  let n := length cp in
  foldl (bezier_term n t) (0, 0) (combine (seq 0 n) cp).

(** The values of [uniform] in [get_random_bezier]: [uniform(0,2*pi)] for
    each tangent that is not given, and the two [uniform(10,100)] scales. *)
Record bezier_draws : Type := {
  drawn_start_tangent : R;
  drawn_end_tangent : R;
  drawn_start_scale : R;
  drawn_end_scale : R
}.

(** [get_random_bezier]; the parameter [order] is not read. *)
Definition get_random_bezier (start_point end_point : vec)
    (start_tangent calculate_tangent_angle : option R) (rnd : bezier_draws)
  : (R -> vec) * R * R :=
  let start_tangent := from_params start_tangent (drawn_start_tangent rnd) in
  let calculate_tangent_angle :=
    from_params calculate_tangent_angle (drawn_end_tangent rnd) in
  let scale := drawn_start_scale rnd in
  let p0_to_p1 := (cos start_tangent * scale, sin start_tangent * scale) in
  let p0 := start_point in
  let p1 := (fst p0 + fst p0_to_p1, snd p0 + snd p0_to_p1) in
  let scale := drawn_end_scale rnd in
  let pn_1_to_pn := (cos calculate_tangent_angle * scale,
                     sin calculate_tangent_angle * scale) in
  let pn := end_point in
  let pn_1 := (fst pn - fst pn_1_to_pn, snd pn - snd pn_1_to_pn) in
  let control_points := [p0; p1; pn_1; pn] in
  (get_parametric_bezier control_points, start_tangent,
   calculate_tangent_angle).

(** [[bezier_out(t*0.01) for t in range(0,101)]]. *)
Definition bezier_samples (bezier_out : R -> vec) : list vec :=
  map (fun t => bezier_out (IZR t * 0.01)) (range 101).

(** The loop [for g in range(1,len(goal_points))] of
    [generate_bezier_track], from the goal [goal_points[g-1] = prev_goal] on:
    the points it appends to [xys], and [prev_tangent] after it. *)
Fixpoint bezier_legs (prev_goal : vec) (goals : list vec) (prev_tangent : R)
    (g : nat) (rnd : nat -> bezier_draws) : list vec * R :=
  match goals with
  | [] => ([], prev_tangent)
  | goal :: goals' =>
      let '(bezier_out, tangent_in, prev_tangent) :=
        get_random_bezier prev_goal goal (Some prev_tangent) None (rnd g) in
      let '(xys, final_tangent) :=
        bezier_legs goal goals' prev_tangent (S g) rnd in
      (bezier_samples bezier_out ++ xys, final_tangent)
  end.

(** [xys] at the [return] of [generate_bezier_track], before
    [convert_points_to_all_positive]; [rnd g] holds the draws of the call of
    [get_random_bezier] of index [g]. *)
Definition bezier_track_points (max_track_length : R) (start_point : vec)
    (rnd : nat -> bezier_draws) : list vec :=
  let '(sx, sy) := start_point in
  let goal0 := (sx + max_track_length * 0.08, sy) in
  let goal1 := (sx + max_track_length * 0.12, sy + max_track_length * 0.08) in
  let goal2 := (sx - max_track_length * 0.03, sy + max_track_length * 0.12) in
  let '(bezier_out, tangent_in, tangent_out) :=
    get_random_bezier start_point goal0 None None (rnd 0%nat) in
  let xys := bezier_samples bezier_out in
  let initial_tangent := tangent_in in
  let prev_tangent := tangent_out in
  let '(legs, prev_tangent) :=
    bezier_legs goal0 [goal1; goal2] prev_tangent 1 rnd in
  let xys := xys ++ legs in
  let '(bezier_out, tangent_in, prev_tangent) :=
    get_random_bezier goal2 start_point (Some prev_tangent)
                      (Some initial_tangent) (rnd 3%nat) in
  xys ++ bezier_samples bezier_out.

(** The coefficient of the round of index [i], for [n] control points. *)
Definition bernstein (n : nat) (t : R) (i : nat) : R :=
  binom (n - 1) i * (1 - t) ^ (n - i - 1) * t ^ i.

(** The sum of the coefficients of the [m] rounds from index [k] on. *)
Fixpoint weight (n : nat) (t : R) (k m : nat) : R :=
  match m with
  | O => 0
  | S m' => bernstein n t k + weight n t (S k) m'
  end.

(** *** Properties *)

Lemma binom_0 (n : nat) : binom n 0 = 1.
Proof.
  unfold binom, C. rewrite Nat.sub_0_r. simpl fact. simpl INR.
  field. apply INR_fact_neq_0.
Qed.

Lemma binom_diag (n : nat) : binom n n = 1.
Proof.
  unfold binom, C. rewrite Nat.sub_diag. simpl fact. simpl INR.
  field. apply INR_fact_neq_0.
Qed.

Lemma binom_nonneg (n k : nat) : 0 <= binom n k.
Proof.
  unfold binom, C.
  pose proof (INR_fact_lt_0 n). pose proof (INR_fact_lt_0 k).
  pose proof (INR_fact_lt_0 (n - k)).
  apply Rlt_le, Rdiv_lt_0_compat; [assumption|].
  now apply Rmult_lt_0_compat.
Qed.

Lemma combine_seq_snoc {A : Type} (l : list A) (a : A) (k : nat) :
  combine (seq k (length (l ++ [a]))) (l ++ [a])
  = combine (seq k (length l)) l ++ [((k + length l)%nat, a)].
Proof.
  revert k. induction l as [|x l IH]; intros k; simpl.
  - now rewrite Nat.add_0_r.
  - f_equal. rewrite IH. do 3 f_equal. lia.
Qed.

(** A round whose coefficient is 0 leaves the sums as they are. *)
Lemma bezier_terms_vanish (n : nat) (t : R) (sums : vec)
    (l : list (nat * vec)) :
  (forall i p, In (i, p) l ->
     binom (n - 1) i * (1 - t) ^ (n - i - 1) * t ^ i = 0) ->
  foldl (bezier_term n t) sums l = sums.
Proof.
  revert sums. induction l as [|[i p] l IH]; intros [x y] Hz; simpl;
    [reflexivity|].
  rewrite (Hz i p) by now left.
  rewrite !Rmult_0_l, !Rplus_0_r.
  apply IH. intros j q Hj. apply (Hz j q). now right.
Qed.

Lemma in_combine_seq {A : Type} (l : list A) (k i : nat) (a : A) :
  In (i, a) (combine (seq k (length l)) l) -> (k <= i < k + length l)%nat.
Proof.
  intros H. apply in_combine_l in H. apply in_seq in H. lia.
Qed.

(** X19.  The curve of [get_parametric_bezier] starts at the first control
    point ([t = 0]) and ends at the last one ([t = 1]); without control
    points it is constantly [(0,0)]. *)
Theorem get_parametric_bezier_endpoints (first : vec) (middle : list vec) :
  get_parametric_bezier (first :: middle) 0 = first
  /\ get_parametric_bezier (first :: middle) 1 = List.last middle first
  /\ forall t : R, get_parametric_bezier [] t = (0, 0).
Proof.
  split; [|split].
  - unfold get_parametric_bezier. cbv zeta.
    cbn [length seq combine foldl]. unfold bezier_term at 2.
    rewrite binom_0. rewrite Rminus_0_r, pow1. simpl pow.
    rewrite bezier_terms_vanish.
    + destruct first as [x y]. cbn [fst snd]. f_equal; ring.
    + intros i p Hin. apply in_combine_seq in Hin.
      rewrite (pow_i i) by lia. ring.
  - destruct (exists_last (l := first :: middle)) as (init & final & Heq);
      [discriminate|].
    assert (List.last middle first = final) as ->.
    { transitivity (List.last (first :: middle) first); [now destruct middle|].
      rewrite Heq. apply last_last. }
    rewrite Heq. unfold get_parametric_bezier. cbv zeta.
    rewrite combine_seq_snoc, foldl_app. cbn [foldl].
    rewrite bezier_terms_vanish.
    + unfold bezier_term. rewrite length_app. cbn [length Nat.add].
      replace (length init + 1 - 1)%nat with (length init) by lia.
      replace (length init + 1 - length init - 1)%nat with 0%nat by lia.
      rewrite binom_diag, pow1. simpl pow.
      destruct final as [x y]. cbn [fst snd]. f_equal; ring.
    + intros i p Hin. apply in_combine_seq in Hin.
      rewrite length_app. cbn [length].
      replace (1 - 1) with 0 by ring.
      rewrite (pow_i (length init + 1 - i - 1)) by lia. ring.
  - reflexivity.
Qed.

Lemma bernstein_nonneg (n : nat) (t : R) (i : nat) :
  0 <= t <= 1 -> 0 <= bernstein n t i.
Proof.
  intros [H0 H1]. unfold bernstein.
  apply Rmult_le_pos; [apply Rmult_le_pos|].
  - apply binom_nonneg.
  - apply pow_le. lra.
  - now apply pow_le.
Qed.

Lemma weight_snoc (n : nat) (t : R) (k m : nat) :
  weight n t k (S m) = weight n t k m + bernstein n t (k + m).
Proof.
  revert k. induction m as [|m IH]; intros k.
  - simpl. rewrite Nat.add_0_r. ring.
  - change (weight n t k (S (S m)))
      with (bernstein n t k + weight n t (S k) (S m)).
    rewrite IH. simpl weight.
    replace (S k + m)%nat with (k + S m)%nat by lia. ring.
Qed.

Lemma weight_sum (n : nat) (t : R) (m : nat) :
  weight n t 0 (S m) = sum_f_R0 (bernstein n t) m.
Proof.
  induction m as [|m IH].
  - simpl. ring.
  - rewrite weight_snoc, IH. reflexivity.
Qed.

(** The coefficients of one evaluation add up to 1. *)
Lemma weight_total (m : nat) (t : R) : weight (S m) t 0 (S m) = 1.
Proof.
  rewrite weight_sum.
  rewrite <- (pow1 m). replace 1 with (t + (1 - t)) at 1 by ring.
  rewrite binomial. apply sum_eq. intros i Hi. unfold bernstein, binom.
  replace (S m - 1)%nat with m by lia.
  replace (S m - i - 1)%nat with (m - i)%nat by lia.
  ring.
Qed.

Lemma bezier_terms_hull (n : nat) (t lo_x hi_x lo_y hi_y : R) (l : list vec)
    (k : nat) (sums : vec) (w : R) :
  0 <= t <= 1 ->
  Forall (fun p => lo_x <= fst p <= hi_x /\ lo_y <= snd p <= hi_y) l ->
  lo_x * w <= fst sums <= hi_x * w ->
  lo_y * w <= snd sums <= hi_y * w ->
  let r := foldl (bezier_term n t) sums (combine (seq k (length l)) l) in
  let w' := w + weight n t k (length l) in
  lo_x * w' <= fst r <= hi_x * w' /\ lo_y * w' <= snd r <= hi_y * w'.
Proof.
  intros Ht Hall. revert k sums w.
  induction Hall as [|p l [Hpx Hpy] Hall IH]; intros k [x y] w Hx Hy.
  - simpl. rewrite Rplus_0_r. now split.
  - cbn [length seq combine foldl weight bezier_term fst snd] in *.
    pose proof (bernstein_nonneg n t k Ht) as Hc.
    fold (bernstein n t k).
    set (c := bernstein n t k) in *.
    specialize (IH (S k) (x + c * fst p, y + c * snd p) (w + c)).
    cbv zeta in IH. cbn [fst snd] in IH. cbv zeta.
    rewrite <- !Rplus_assoc.
    apply IH; nra.
Qed.

(** X20.  For [0 <= t <= 1] the point of [get_parametric_bezier] lies in
    every axis-parallel box that holds the control points: the coefficients
    of one evaluation are non-negative and add up to 1. *)
Theorem get_parametric_bezier_in_hull (control_points : list vec)
    (t lo_x hi_x lo_y hi_y : R) :
  0 <= t <= 1 ->
  control_points <> [] ->
  Forall (fun p => lo_x <= fst p <= hi_x /\ lo_y <= snd p <= hi_y)
         control_points ->
  lo_x <= fst (get_parametric_bezier control_points t) <= hi_x
  /\ lo_y <= snd (get_parametric_bezier control_points t) <= hi_y.
Proof.
  intros Ht Hne Hall.
  pose proof (bezier_terms_hull (length control_points) t lo_x hi_x lo_y hi_y
                control_points 0 (0, 0) 0 Ht Hall) as H.
  cbv zeta in H. cbn [fst snd] in H.
  destruct control_points as [|p l]; [contradiction|].
  rewrite Rplus_0_l in H.
  change (length (p :: l)) with (S (length l)) in H.
  rewrite weight_total, !Rmult_1_r in H.
  apply H; lra.
Qed.

Lemma get_parametric_bezier_in_hull_witness :
  0 <= fst (get_parametric_bezier [(0, 0); (4, 8); (10, 8); (12, 2)] 0.5)
    <= 12
  /\ 0 <= snd (get_parametric_bezier [(0, 0); (4, 8); (10, 8); (12, 2)] 0.5)
       <= 8.
Proof.
  apply (get_parametric_bezier_in_hull [(0, 0); (4, 8); (10, 8); (12, 2)]
           0.5 0 12 0 8).
  - lra.
  - discriminate.
  - repeat constructor; cbn [fst snd]; lra.
Defined.

Lemma binom_3_1 : binom 3 1 = 3.
Proof. unfold binom, C. simpl. field. Qed.

Lemma binom_3_2 : binom 3 2 = 3.
Proof. unfold binom, C. simpl. field. Qed.

(** Four control points give the cubic curve in Bernstein form. *)
Lemma get_parametric_bezier_cubic (p0 p1 p2 p3 : vec) (t : R) :
  get_parametric_bezier [p0; p1; p2; p3] t
  = ((1 - t) ^ 3 * fst p0 + 3 * (1 - t) ^ 2 * t * fst p1
     + 3 * (1 - t) * t ^ 2 * fst p2 + t ^ 3 * fst p3,
     (1 - t) ^ 3 * snd p0 + 3 * (1 - t) ^ 2 * t * snd p1
     + 3 * (1 - t) * t ^ 2 * snd p2 + t ^ 3 * snd p3).
Proof.
  unfold get_parametric_bezier. cbv zeta.
  cbn [length seq combine foldl bezier_term Nat.sub].
  rewrite binom_0, binom_3_1, binom_3_2, binom_diag.
  f_equal; simpl pow; ring.
Qed.

(** X21.  The curve of [get_random_bezier] is the cubic with the control
    points start, start + scale * (cos, sin) of the start tangent, end -
    scale * (cos, sin) of the end tangent, end; it starts at the start point
    and ends at the end point, and the tangents returned are the ones given,
    or drawn where none is given. *)
Theorem get_random_bezier_joins (start_point end_point : vec)
    (start_tangent calculate_tangent_angle : option R) (rnd : bezier_draws) :
  let '(bezier_out, tangent_in, tangent_out) :=
    get_random_bezier start_point end_point start_tangent
                      calculate_tangent_angle rnd in
  let p1 := (fst start_point + cos tangent_in * drawn_start_scale rnd,
             snd start_point + sin tangent_in * drawn_start_scale rnd) in
  let p2 := (fst end_point - cos tangent_out * drawn_end_scale rnd,
             snd end_point - sin tangent_out * drawn_end_scale rnd) in
  bezier_out 0 = start_point
  /\ bezier_out 1 = end_point
  /\ tangent_in = from_params start_tangent (drawn_start_tangent rnd)
  /\ tangent_out
     = from_params calculate_tangent_angle (drawn_end_tangent rnd)
  /\ forall t : R,
       bezier_out t
       = ((1 - t) ^ 3 * fst start_point + 3 * (1 - t) ^ 2 * t * fst p1
          + 3 * (1 - t) * t ^ 2 * fst p2 + t ^ 3 * fst end_point,
          (1 - t) ^ 3 * snd start_point + 3 * (1 - t) ^ 2 * t * snd p1
          + 3 * (1 - t) * t ^ 2 * snd p2 + t ^ 3 * snd end_point).
Proof.
  unfold get_random_bezier. cbv zeta.
  split; [|split; [|split; [|split]]]; try reflexivity.
  - rewrite get_parametric_bezier_cubic. destruct start_point as [x y].
    cbn [fst snd]. f_equal; ring.
  - rewrite get_parametric_bezier_cubic. destruct end_point as [x y].
    cbn [fst snd]. f_equal; ring.
  - intros t. apply get_parametric_bezier_cubic.
Qed.

Lemma random_bezier_ends (start_point end_point : vec)
    (start_tangent calculate_tangent_angle : option R) (rnd : bezier_draws) :
  let bezier_out :=
    fst (fst (get_random_bezier start_point end_point start_tangent
                                calculate_tangent_angle rnd)) in
  bezier_out 0 = start_point /\ bezier_out 1 = end_point.
Proof.
  unfold get_random_bezier. cbv zeta. cbn [fst].
  rewrite !get_parametric_bezier_cubic.
  destruct start_point as [x y], end_point as [x' y'].
  cbn [fst snd]. split; f_equal; ring.
Qed.

Lemma bezier_samples_length (bezier_out : R -> vec) :
  length (bezier_samples bezier_out) = 101%nat.
Proof. unfold bezier_samples. now rewrite length_map, length_range. Qed.

Lemma bezier_samples_first (bezier_out : R -> vec) (rest : list vec) :
  head (bezier_samples bezier_out ++ rest) = Some (bezier_out 0).
Proof.
  unfold bezier_samples. unfold range at 1.
  change (Z.to_nat 101) with 101%nat. cbn [seq map app head].
  do 2 f_equal. simpl. ring.
Qed.

Lemma bezier_samples_last (bezier_out : R -> vec) (before : list vec) :
  (before ++ bezier_samples bezier_out) !! (length before + 100)%nat
  = Some (bezier_out 1).
Proof.
  rewrite lookup_app_r by lia.
  replace (length before + 100 - length before)%nat with 100%nat by lia.
  unfold bezier_samples.
  change (map (fun t => bezier_out (IZR t * 0.01)) (range 101))
    with ((fun t => bezier_out (IZR t * 0.01)) <$> range 101).
  rewrite list_lookup_fmap.
  replace (range 101 !! 100%nat) with (Some 100%Z).
  - simpl. do 2 f_equal. lra.
  - unfold range.
    change (map Z.of_nat (seq 0 (Z.to_nat 101)))
      with (Z.of_nat <$> seq 0 (Z.to_nat 101)).
    rewrite list_lookup_fmap.
    replace (seq 0 (Z.to_nat 101) !! 100%nat) with (Some 100%nat);
      [reflexivity|].
    symmetry. apply lookup_seq. split; [reflexivity|].
    change (Z.to_nat 101) with 101%nat. lia.
Qed.

(** X22.  The points of the Bezier track, before they are normalised: there
    are 404 of them, the first and the last are the start point, and each of
    the three goal points occurs twice in a row, as the last sample of one
    curve and the first of the next. *)
Theorem bezier_track_points_closed (max_track_length : R) (start_point : vec)
    (rnd : nat -> bezier_draws) :
  let xys := bezier_track_points max_track_length start_point rnd in
  let goal0 := (fst start_point + max_track_length * 0.08, snd start_point) in
  let goal1 := (fst start_point + max_track_length * 0.12,
                snd start_point + max_track_length * 0.08) in
  let goal2 := (fst start_point - max_track_length * 0.03,
                snd start_point + max_track_length * 0.12) in
  length xys = 404%nat
  /\ xys !! 0%nat = Some start_point
  /\ xys !! 100%nat = Some goal0 /\ xys !! 101%nat = Some goal0
  /\ xys !! 201%nat = Some goal1 /\ xys !! 202%nat = Some goal1
  /\ xys !! 302%nat = Some goal2 /\ xys !! 303%nat = Some goal2
  /\ xys !! 403%nat = Some start_point.
Proof.
  destruct start_point as [sx sy]. cbn [fst snd].
  unfold bezier_track_points. cbn [bezier_legs].
  set (g0 := (sx + max_track_length * 0.08, sy)).
  set (g1 := (sx + max_track_length * 0.12, sy + max_track_length * 0.08)).
  set (g2 := (sx - max_track_length * 0.03, sy + max_track_length * 0.12)).
  pose proof (random_bezier_ends (sx, sy) g0 None None (rnd 0%nat)) as H0.
  destruct (get_random_bezier (sx, sy) g0 None None (rnd 0%nat))
    as [[b0 ti0] to0].
  pose proof (random_bezier_ends g0 g1 (Some to0) None (rnd 1%nat)) as H1.
  destruct (get_random_bezier g0 g1 (Some to0) None (rnd 1%nat))
    as [[b1 ti1] to1].
  pose proof (random_bezier_ends g1 g2 (Some to1) None (rnd 2%nat)) as H2.
  destruct (get_random_bezier g1 g2 (Some to1) None (rnd 2%nat))
    as [[b2 ti2] to2].
  pose proof (random_bezier_ends g2 (sx, sy) (Some to2) (Some ti0)
                (rnd 3%nat)) as H3.
  destruct (get_random_bezier g2 (sx, sy) (Some to2) (Some ti0) (rnd 3%nat))
    as [[b3 ti3] to3].
  cbv zeta in H0, H1, H2, H3. cbn [fst] in H0, H1, H2, H3.
  destruct H0 as [H0s H0e], H1 as [H1s H1e], H2 as [H2s H2e],
    H3 as [H3s H3e].
  rewrite app_nil_r.
  set (s0 := bezier_samples b0). set (s1 := bezier_samples b1).
  set (s2 := bezier_samples b2). set (s3 := bezier_samples b3).
  assert (length s0 = 101%nat) as L0 by apply bezier_samples_length.
  assert (length s1 = 101%nat) as L1 by apply bezier_samples_length.
  assert (length s2 = 101%nat) as L2 by apply bezier_samples_length.
  assert (length s3 = 101%nat) as L3 by apply bezier_samples_length.
  assert (forall (b : R -> vec) (rest : list vec),
             (bezier_samples b ++ rest) !! 0%nat = Some (b 0)) as Hfirst.
  { intros b rest. rewrite <- head_lookup. apply bezier_samples_first. }
  assert (forall (b : R -> vec) (before rest : list vec) (i : nat),
             i = (length before + 100)%nat ->
             (before ++ bezier_samples b ++ rest) !! i = Some (b 1)) as Hlast.
  { intros b before rest i ->. rewrite app_assoc.
    rewrite lookup_app_l by (rewrite length_app, bezier_samples_length; lia).
    apply bezier_samples_last. }
  assert (forall (b : R -> vec) (before rest : list vec) (i : nat),
             i = length before ->
             (before ++ bezier_samples b ++ rest) !! i = Some (b 0)) as Hnext.
  { intros b before rest i ->. rewrite lookup_app_r by lia.
    rewrite Nat.sub_diag. apply Hfirst. }
  split; [rewrite !length_app; lia|].
  split.
  { rewrite <- app_assoc. subst s0. rewrite Hfirst. now rewrite H0s. }
  split.
  { rewrite <- app_assoc. rewrite <- H0e.
    apply (Hlast b0 [] (s1 ++ s2 ++ s3) 100%nat). reflexivity. }
  split.
  { rewrite <- !app_assoc. rewrite <- H1s.
    apply (Hnext b1 s0 (s2 ++ s3)). lia. }
  split.
  { rewrite <- !app_assoc. rewrite <- H1e.
    apply (Hlast b1 s0 (s2 ++ s3)). lia. }
  split.
  { rewrite <- !app_assoc. rewrite <- H2s.
    rewrite (app_assoc s0 s1). apply (Hnext b2 (s0 ++ s1) s3).
    rewrite length_app. lia. }
  split.
  { rewrite <- !app_assoc. rewrite <- H2e.
    rewrite (app_assoc s0 s1). apply (Hlast b2 (s0 ++ s1) s3).
    rewrite length_app. lia. }
  split.
  { rewrite <- !app_assoc. rewrite <- H3s.
    rewrite (app_assoc s1 s2), (app_assoc s0).
    rewrite <- (app_nil_r s3).
    apply (Hnext b3 (s0 ++ s1 ++ s2) []).
    rewrite !length_app. lia. }
  rewrite <- !app_assoc. rewrite <- H3e.
  rewrite (app_assoc s1 s2), (app_assoc s0).
  rewrite <- (app_nil_r s3).
  apply (Hlast b3 (s0 ++ s1 ++ s2) []).
  rewrite !length_app. lia.
Qed.

End Bezier.

(** ** The hairpin generator *)

Module Hairpin.

Import Primitives.
Import Lra.
Local Open Scope R_scope.

(** What a call ends with: a value, an exception of the kinds above, or the
    [KeyError] of a dictionary lookup. *)
Inductive outcome (A : Type) : Type :=
| Returned (a : A)
| Failed (e : exn)
| FailedKeyError.

Arguments Returned {A} a.
Arguments Failed {A} e.
Arguments FailedKeyError {A}.

Definition of_result {A : Type} (r : result A) : outcome A :=
  match r with
  | Ok a => Returned a
  | Raise e => Failed e
  end.

Definition outcome_bind {A B : Type} (r : outcome A) (k : A -> outcome B)
  : outcome B :=
  match r with
  | Returned a => k a
  | Failed e => Failed e
  | FailedKeyError => FailedKeyError
  end.

Notation "'let+' p ':=' r 'in' k" := (outcome_bind r (fun p => k))
  (at level 10, p pattern, r at level 100, k at level 200).

(** The [params] dictionary of [generate_hairpin_turn]: a key that is absent
    is [None].  The key ["wobliness"] (so spelt in the membership test) is
    only tested for presence. *)
Record hairpin_params : Type := {
  h_turn_against_normal : option bool;
  h_switchback_num : option Z;
  h_wobbliness : option R;
  h_wobliness : bool;
  h_straight_size : option R;
  h_circle_size : option R;
  h_uniform_circles : option bool
}.

Definition no_hairpin_params : hairpin_params :=
  {| h_turn_against_normal := None; h_switchback_num := None;
     h_wobbliness := None; h_wobliness := false; h_straight_size := None;
     h_circle_size := None; h_uniform_circles := None |}.

(** The values that the random source returns to [generate_hairpin_turn], by
    call site: [uniform(0,1)] (compared with 0.5),
    [randrange(MIN_HAIRPIN_NUM,MAX_HAIRPIN_NUM)], [uniform(0.45,0.55)],
    [uniform(MIN_STRAIGHT,MAX_STRAIGHT)], [uniform(MIN_HAIRPIN,MAX_HAIRPIN)],
    [uniform(0,1)] (compared with 0.8), and [uniform(MIN_HAIRPIN,MAX_HAIRPIN)]
    in the round [a] of the loop. *)
Record hairpin_draws : Type := {
  drawn_turn : R;
  drawn_pairs : Z;
  drawn_wobbliness : R;
  drawn_straight_size : R;
  drawn_circle_size : R;
  drawn_uniform : R;
  redrawn_circle_size : nat -> R
}.

(** [randrange(start, stop)] on integers: [ValueError] on an empty range,
    else the drawn value. *)
Definition randrange (start stop drawn : Z) : result Z :=
  if (start <? stop)%Z then Ok drawn else Raise ValueError.

(** The cap on the wobbliness that keeps switchbacks from intersecting.
    [math.tan(angle_l)] is read as the real tangent, which agrees with the
    code where [tan_defined angle_l]; at a wobbliness of exactly 0.5 the
    angle is the pole [PI/2], where the code finds a large intersection point
    and caps. *)
Definition cap_wobbliness (circle_size wobbliness : R) : R :=
  let max_intersection := 50 in
  let angle_l := (2 * PI * (1 - wobbliness)) / 2 in
  let intersect_point := circle_size * tan angle_l in
  if Rlt_dec max_intersection intersect_point
  then 1 - atan2 max_intersection circle_size / PI
  else wobbliness.

(** The loop [for a in range(0,switchback_num)], from the round [a] on;
    [redrawn a] is the circle size drawn in the round [a].  Both primitives
    are given every parameter they read, so they draw nothing from [rnd]. *)
Fixpoint switchbacks (rounds a : nat) (uniform_circles : bool)
    (wobbliness straight_size : R) (redrawn : nat -> R) (rnd : draws)
    (cur_point cur_tangent last_normal : vec) (circle_size length : R)
    (points : list vec) : result segment_result :=
  match rounds with
  | O => Ok (points, cur_tangent, last_normal, length)
  | S rounds' =>
      let circle_size :=
        if uniform_circles then circle_size else redrawn a in
      let* (generated, cur_tangent, last_normal, delta_length) :=
        generate_constant_turn cur_point cur_tangent last_normal
          (turn_params false wobbliness circle_size) rnd in
      let* cur_point := py_last generated in
      let length := length + delta_length in
      let points := (points ++ generated)%list in
      let* (generated, cur_tangent, last_normal, delta_length) :=
        generate_straight cur_point cur_tangent last_normal
          (with_length straight_size) rnd in
      let* cur_point := py_last generated in
      let length := length + delta_length in
      let points := (points ++ generated)%list in
      switchbacks rounds' (S a) uniform_circles wobbliness straight_size
                  redrawn rnd cur_point cur_tangent last_normal circle_size
                  length points
  end.

(** [generate_hairpin_turn]; [MIN_HAIRPIN_NUM] and [MAX_HAIRPIN_NUM] are the
    class attributes, integers as in every preset. *)
Definition generate_hairpin_turn (MIN_HAIRPIN_NUM MAX_HAIRPIN_NUM : Z)
    (start_point tangent_in normal_in : vec) (prm : hairpin_params)
    (hrnd : hairpin_draws) (rnd : draws) : outcome segment_result :=
  let turn_against_normal :=
    from_params (h_turn_against_normal prm)
                (if Rlt_dec (drawn_turn hrnd) 0.5 then true else false) in
  let+ switchback_num :=
    match h_switchback_num prm with
    | Some n => Returned n
    | None =>
        of_result
          (let* pairs := randrange MIN_HAIRPIN_NUM MAX_HAIRPIN_NUM
                                   (drawn_pairs hrnd) in
           Ok (2 * pairs)%Z)
    end in
  let+ wobbliness :=
    if h_wobliness prm then
      match h_wobbliness prm with
      | Some w => Returned w
      | None => FailedKeyError
      end
    else Returned (drawn_wobbliness hrnd) in
  let straight_size :=
    from_params (h_straight_size prm) (drawn_straight_size hrnd) in
  let circle_size :=
    from_params (h_circle_size prm) (drawn_circle_size hrnd) in
  let uniform_circles :=
    from_params (h_uniform_circles prm)
                (if Rlt_dec (drawn_uniform hrnd) 0.8 then true else false) in
  let cur_point := start_point in
  let cur_tangent := tangent_in in
  let length := 0 in
  let start_left_num := if turn_against_normal then 0%Z else 1%Z in
  let wobbliness := cap_wobbliness circle_size wobbliness in
  let points := [] in
  let last_normal := normal_in in
  of_result
    (switchbacks (Z.to_nat switchback_num) 0 uniform_circles wobbliness
                 straight_size (redrawn_circle_size hrnd) rnd cur_point
                 cur_tangent last_normal circle_size length points).

(** [params] with the value under ["turn_against_normal"] replaced. *)
Definition with_turn_against_normal (prm : hairpin_params)
    (value : option bool) : hairpin_params :=
  {| h_turn_against_normal := value;
     h_switchback_num := h_switchback_num prm;
     h_wobbliness := h_wobbliness prm;
     h_wobliness := h_wobliness prm;
     h_straight_size := h_straight_size prm;
     h_circle_size := h_circle_size prm;
     h_uniform_circles := h_uniform_circles prm |}.

(** [params] with the value under ["wobbliness"] replaced. *)
Definition with_wobbliness (prm : hairpin_params) (value : option R)
  : hairpin_params :=
  {| h_turn_against_normal := h_turn_against_normal prm;
     h_switchback_num := h_switchback_num prm;
     h_wobbliness := value;
     h_wobliness := h_wobliness prm;
     h_straight_size := h_straight_size prm;
     h_circle_size := h_circle_size prm;
     h_uniform_circles := h_uniform_circles prm |}.


(** *** Properties *)

(** X23.  When the configuration vector sets the maximum number of hairpin
    pairs to 1 or less, [generate_hairpin_turn] with no switchback number
    given raises [ValueError]: [randrange(MIN_HAIRPIN_NUM, MAX_HAIRPIN_NUM)]
    has nothing to draw from. *)
Theorem hairpin_needs_two_pairs (values : list Q) (cfg : Facade.config)
    (max_pairs : Z) (start_point tangent_in normal_in : vec)
    (prm : hairpin_params) (hrnd : hairpin_draws) (rnd : draws) :
  Facade.set_data values = Ok cfg ->
  Qeq (Facade.MAX_HAIRPIN_NUM cfg) (inject_Z max_pairs) ->
  h_switchback_num prm = None ->
  (max_pairs <= 1)%Z ->
  generate_hairpin_turn (Facade.MIN_HAIRPIN_NUM cfg) max_pairs
                        start_point tangent_in normal_in prm hrnd rnd
  = Failed ValueError.
Proof.
  intros Hcfg Hmax Hnone Hsmall.
  assert (Facade.MIN_HAIRPIN_NUM cfg
          = if Facade.Qgtb (Facade.MAX_HAIRPIN_NUM cfg) 0 then 1%Z else 0%Z)
    as Hmin.
  { unfold Facade.set_data in Hcfg.
    repeat (match type of Hcfg with
            | bind (py_index ?l ?i) _ = _ =>
                destruct (py_index l i); cbn [bind] in Hcfg;
                [|discriminate]
            end).
    injection Hcfg as <-. reflexivity. }
  assert ((max_pairs <=? Facade.MIN_HAIRPIN_NUM cfg)%Z = true) as Hle.
  { rewrite Hmin. unfold Facade.Qgtb.
    destruct (Qle_bool (Facade.MAX_HAIRPIN_NUM cfg) 0) eqn:Hq; cbn [negb].
    - apply Qle_bool_iff in Hq. rewrite Hmax in Hq.
      change 0%Q with (inject_Z 0) in Hq. rewrite <- Zle_Qle in Hq.
      apply Z.leb_le. lia.
    - apply Z.leb_le. lia. }
  unfold generate_hairpin_turn. rewrite Hnone. unfold randrange.
  replace (Facade.MIN_HAIRPIN_NUM cfg <? max_pairs)%Z with false
    by (apply Z.leb_le in Hle; lia).
  reflexivity.
Qed.

Lemma hairpin_needs_two_pairs_witness :
  exists cfg,
    Facade.set_data [10; 80; 10; 25; 4.5; 10; 1; 1500; 0; 0]%Q = Ok cfg
    /\ generate_hairpin_turn (Facade.MIN_HAIRPIN_NUM cfg) 1
         (0, 0) (1, 0) (0, 1) no_hairpin_params
         {| drawn_turn := 0.25; drawn_pairs := 1; drawn_wobbliness := 0.5;
            drawn_straight_size := 20; drawn_circle_size := 5;
            drawn_uniform := 0.5; redrawn_circle_size := fun _ => 5 |}
         any_draws
       = Failed ValueError.
Proof.
  eexists. split; [reflexivity|].
  apply (hairpin_needs_two_pairs [10; 80; 10; 25; 4.5; 10; 1; 1500; 0; 0]%Q).
  - reflexivity.
  - reflexivity.
  - reflexivity.
  - lia.
Defined.

Lemma atan2_first_quadrant (y x : R) :
  0 < x -> 0 < y -> 0 < atan2 y x < PI / 2 /\ tan (atan2 y x) = y / x.
Proof.
  intros Hx Hy. rewrite atan2_right by exact Hx.
  assert (0 < y / x) as Hq by now apply Rdiv_lt_0_compat.
  pose proof (atan_bound (y / x)) as [_ Hhi].
  pose proof (atan_pos _ Hq).
  split; [split; assumption|apply tan_atan].
Qed.

Lemma cap_wobbliness_bounds (circle_size : R) :
  0 < circle_size -> 1 / 2 < 1 - atan2 50 circle_size / PI < 1.
Proof.
  intros Hc.
  assert (0 < 50) as H50 by lra.
  destruct (atan2_first_quadrant 50 circle_size Hc H50) as [[Hlo Hhi] _].
  pose proof PI_RGT_0 as Hpi.
  assert (0 < atan2 50 circle_size / PI < 1 / 2) as [H1 H2]; [|lra].
  split.
  - apply Rdiv_lt_0_compat; lra.
  - apply (Rmult_lt_reg_r PI); [lra|].
    replace (atan2 50 circle_size / PI * PI) with (atan2 50 circle_size)
      by (field; lra).
    lra.
Qed.

(** X24.  When the switchback arms would intersect beyond 50, the capped
    wobbliness puts the intersection at exactly 50, and lies strictly between
    1/2 and 1. *)
Theorem cap_wobbliness_limits_intersection (circle_size wobbliness : R) :
  0 < circle_size ->
  50 < circle_size * tan ((2 * PI * (1 - wobbliness)) / 2) ->
  let capped := cap_wobbliness circle_size wobbliness in
  circle_size * tan ((2 * PI * (1 - capped)) / 2) = 50
  /\ 1 / 2 < capped < 1.
Proof.
  intros Hc Hbig capped. subst capped. unfold cap_wobbliness.
  destruct (Rlt_dec _ _) as [_|Hn]; [|contradiction].
  assert (0 < 50) as H50 by lra.
  destruct (atan2_first_quadrant 50 circle_size Hc H50) as [[Hlo Hhi] Htan].
  pose proof PI_RGT_0 as Hpi.
  replace ((2 * PI * (1 - (1 - atan2 50 circle_size / PI))) / 2)
    with (atan2 50 circle_size) by (field; lra).
  rewrite Htan. split; [field; lra|].
  now apply cap_wobbliness_bounds.
Qed.

Lemma cap_wobbliness_limits_intersection_witness :
  let capped := cap_wobbliness 10 (1 - atan 6 / PI) in
  10 * tan ((2 * PI * (1 - capped)) / 2) = 50 /\ 1 / 2 < capped < 1.
Proof.
  apply (cap_wobbliness_limits_intersection 10 (1 - atan 6 / PI)).
  - lra.
  - pose proof PI_RGT_0 as Hpi.
    replace ((2 * PI * (1 - (1 - atan 6 / PI))) / 2) with (atan 6)
      by (field; lra).
    rewrite tan_atan. lra.
Defined.


(** X25.  [generate_hairpin_turn] ignores ["turn_against_normal"] and its
    draw; it ignores ["wobbliness"] unless the key ["wobliness"] is present
    too; and with ["wobliness"] present, ["wobbliness"] absent and a
    switchback number given it raises [KeyError]. *)
Theorem hairpin_ignored_params (min_pairs max_pairs : Z)
    (start_point tangent_in normal_in : vec) (prm : hairpin_params)
    (hrnd : hairpin_draws) (rnd : draws) :
  let run := fun prm' hrnd' =>
    generate_hairpin_turn min_pairs max_pairs start_point tangent_in
                          normal_in prm' hrnd' rnd in
  (forall (value : option bool) (draw : R),
      run (with_turn_against_normal prm value)
          {| drawn_turn := draw; drawn_pairs := drawn_pairs hrnd;
             drawn_wobbliness := drawn_wobbliness hrnd;
             drawn_straight_size := drawn_straight_size hrnd;
             drawn_circle_size := drawn_circle_size hrnd;
             drawn_uniform := drawn_uniform hrnd;
             redrawn_circle_size := redrawn_circle_size hrnd |}
      = run prm hrnd)
  /\ (h_wobliness prm = false ->
      forall value : option R, run (with_wobbliness prm value) hrnd
                               = run prm hrnd)
  /\ (h_wobliness prm = true ->
      forall n : Z,
        h_switchback_num prm = Some n ->
        run (with_wobbliness prm None) hrnd = FailedKeyError).
Proof.
  intros run. subst run. cbv beta.
  split; [|split].
  - intros value draw. unfold generate_hairpin_turn.
    cbn [with_turn_against_normal h_turn_against_normal h_switchback_num
         h_wobbliness h_wobliness h_straight_size h_circle_size
         h_uniform_circles drawn_turn drawn_pairs drawn_wobbliness
         drawn_straight_size drawn_circle_size drawn_uniform
         redrawn_circle_size].
    destruct (h_switchback_num prm) as [n|];
      [|destruct (randrange _ _ _)]; cbn [outcome_bind of_result bind];
      try reflexivity;
      (destruct (h_wobliness prm); [destruct (h_wobbliness prm)|]);
      cbn [outcome_bind]; try reflexivity.
  - intros Hkey value. unfold generate_hairpin_turn.
    cbn [with_wobbliness h_turn_against_normal h_switchback_num h_wobbliness
         h_wobliness h_straight_size h_circle_size h_uniform_circles].
    rewrite Hkey. reflexivity.
  - intros Hkey n Hn. unfold generate_hairpin_turn.
    cbn [with_wobbliness h_turn_against_normal h_switchback_num h_wobbliness
         h_wobliness h_straight_size h_circle_size h_uniform_circles].
    rewrite Hkey, Hn. reflexivity.
Qed.







End Hairpin.

(** ** track_gen.py: ordering cones and midpoints *)

Module TrackGen.

Import Lqa.
Local Open Scope list_scope.
Local Open Scope Q_scope.

(** An entry of a cone array.  [load_csv] yields an [int64] array when the
    coordinate columns hold integers and a [float64] array otherwise, with
    [nan] for an empty field; [load_sdf] yields [float64] arrays.  A float
    that is a number is read as an exact rational: rounding, overflow and the
    infinities are not modelled. *)
Inductive entry : Type :=
| Int64 (z : Z)
| Float64 (x : Q)
| NaN.

(** The number an entry stands for; [nan] stands for none. *)
Definition value (a : entry) : option Q :=
  match a with
  | Int64 z => Some (inject_Z z)
  | Float64 x => Some x
  | NaN => None
  end.

(** The wrap-around of [int64] arithmetic (two's complement). *)
Definition wrap_int64 (z : Z) : Z := ((z + 2 ^ 63) mod 2 ^ 64 - 2 ^ 63)%Z.

(** An arithmetic operator of numpy on two entries: on two [int64] entries
    the integer operation, wrapped; otherwise both are taken as [float64],
    and [nan] gives [nan]. *)
Definition np_arith (on_int : Z -> Z -> Z) (on_float : Q -> Q -> Q)
    (a b : entry) : entry :=
  match a, b with
  | Int64 x, Int64 y => Int64 (wrap_int64 (on_int x y))
  | _, _ =>
      match value a, value b with
      | Some x, Some y => Float64 (on_float x y)
      | _, _ => NaN
      end
  end.

(** [a - b] and [a + b]. *)
Definition np_sub : entry -> entry -> entry := np_arith Z.sub Qminus.
Definition np_add : entry -> entry -> entry := np_arith Z.add Qplus.

(** [a ** 2]. *)
Definition np_square (a : entry) : entry :=
  match a with
  | Int64 x => Int64 (wrap_int64 (x ^ 2))
  | Float64 x => Float64 (x ^ 2)
  | NaN => NaN
  end.


(** [a != b]: true whenever one side is [nan]. *)
Definition np_ne (a b : entry) : bool :=
  match value a, value b with
  | Some x, Some y => negb (Qeq_bool x y)
  | _, _ => true
  end.

(** The order in which [np.argmin] and [np.min] scan: [d] takes the place of
    [best] when it is a smaller number, or when it is the first [nan]. *)
Definition takes_over (d best : entry) : bool :=
  match value best, value d with
  | None, _ => false
  | Some _, None => true
  | Some b, Some x => negb (Qle_bool b x)
  end.

(** A row [[x, y]] of a cone array; an array of shape [(N, 2)] is the list of
    its rows. *)
Definition cone : Type := (entry * entry)%type.

(** [Track.remove_point]: [ps[np.all(ps != p, 1), :]] keeps the rows whose
    entries all differ from the entries of [p]. *)
Definition remove_point (p : cone) (ps : list cone) : list cone :=
  List.filter (fun q => np_ne (fst q) (fst p) && np_ne (snd q) (snd p)) ps.

(** [np.argmin] from the index [i] on: the index of the first minimum, or of
    the first [nan]. *)
Fixpoint argmin_from (best_index : nat) (best : entry) (i : nat)
    (l : list entry) : nat :=
  match l with
  | [] => best_index
  | d :: l' =>
      if takes_over d best then argmin_from i d (S i) l'
      else argmin_from best_index best (S i) l'
  end.

(** [np.argmin]: [ValueError] on an empty sequence. *)
Definition argmin (l : list entry) : result nat :=
  match l with
  | [] => Raise ValueError
  | d :: l' => Ok (argmin_from 0 d 1 l')
  end.

(** [np.min]: [ValueError] on an empty sequence; [nan] when there is one. *)
Definition np_min (l : list entry) : result entry :=
  match l with
  | [] => Raise ValueError
  | d :: l' => Ok (foldl (fun best d => if takes_over d best then d else best)
                         d l')
  end.

(** The squared distance [np.sum((q - p)**2)] of one row. *)
Definition dist_2 (p q : cone) : entry :=
  np_add (np_square (np_sub (fst q) (fst p)))
         (np_square (np_sub (snd q) (snd p))).

(** [Track.find_closest]. *)
Definition find_closest (p : cone) (ps : list cone)
  : result (cone * entry) :=
  let points := remove_point p ps in
  let dist_2 := map (dist_2 p) points in
  let* k := argmin dist_2 in
  let* closest := py_index points k in
  let* d := np_min dist_2 in
  Ok (closest, d).

(** The [while points.shape[0] is not 0] loop of [Track.order_points];
    [None]: the loop has not ended after [fuel] rounds. *)
Fixpoint order_loop (fuel : nat) (current_point : cone)
    (points ordered : list cone) : option (result (list cone)) :=
  match points with
  | [] => Some (Ok (ordered ++ [current_point]))
  | _ :: _ =>
      match fuel with
      | O => None
      | S fuel' =>
          match find_closest current_point points with
          | Raise e => Some (Raise e)
          | Ok (i, d) =>
              order_loop fuel' i (remove_point i points) (ordered ++ [i])
          end
      end
  end.

(** [Track.order_points]; [points[0]] raises [IndexError] on an array without
    rows.  A round that removes the row it chose shortens the array, so the
    loop is given as many rounds as there are rows. *)
Definition order_points (points : list cone) : option (result (list cone)) :=
  match points with
  | [] => Some (Raise IndexError)
  | current_point :: points =>
      order_loop (length points) current_point points [current_point]
  end.



(** Two rows that differ in both entries, as [!=] sees them. *)
Definition independent (p q : cone) : Prop :=
  np_ne (fst q) (fst p) = true /\ np_ne (snd q) (snd p) = true.

(** The number of an entry that has one. *)
Definition number (a : entry) : Q :=
  match value a with
  | Some x => x
  | None => 0
  end.

(** The squared distance of two rows of numbers, computed exactly. *)
Definition distance (p q : cone) : Q :=
  (number (fst q) - number (fst p)) ^ 2
  + (number (snd q) - number (snd p)) ^ 2.

(** An entry that is a number below [2^30] in absolute value: differences,
    squares and sums of two squares of such entries fit 64 bits. *)
Definition small (a : entry) : Prop :=
  exists x, value a = Some x /\ - (1073741824) < x /\ x < 1073741824.

Definition small_row (c : cone) : Prop := small (fst c) /\ small (snd c).

(** A row that is not [(nan, nan)]. *)
Definition has_number (c : cone) : Prop :=
  value (fst c) <> None \/ value (snd c) <> None.

(** A [float64] array with one [nan] entry. *)
Definition sample_cones : list cone :=
  [(Float64 0, Float64 0); (Float64 4, Float64 1); (Float64 2.5, NaN);
   (Float64 9, Float64 3)].

(** *** Properties *)

Lemma remove_point_spec (p q : cone) (ps : list cone) :
  In q (remove_point p ps) <-> In q ps /\ independent p q.
Proof.
  unfold remove_point, independent. rewrite filter_In, andb_true_iff.
  reflexivity.
Qed.

Lemma wrap_int64_small (z : Z) :
  (- 2 ^ 63 <= z < 2 ^ 63)%Z -> wrap_int64 z = z.
Proof.
  intros H. unfold wrap_int64. rewrite Z.mod_small; lia.
Qed.

Lemma small_Int64 (z : Z) :
  small (Int64 z) -> (- 2 ^ 30 < z < 2 ^ 30)%Z.
Proof.
  intros (x & [= <-] & Hlo & Hhi).
  unfold Qlt in Hlo, Hhi. simpl in Hlo, Hhi. lia.
Qed.

Lemma small_number (a : entry) :
  small a ->
  value a = Some (number a)
  /\ - (1073741824) < number a /\ number a < 1073741824.
Proof.
  intros (x & Hx & Hlo & Hhi). unfold number. rewrite Hx. tauto.
Qed.

(** The square of a difference of two small entries is exact: an [int64]
    below [2^62] or a float. *)
Lemma square_sub_exact (a b : entry) :
  small a -> small b ->
  (exists s : Z,
      np_square (np_sub a b) = Int64 s
      /\ inject_Z s == (number a - number b) ^ 2
      /\ (0 <= s < 2 ^ 62)%Z)
  \/ (exists x : Q,
        np_square (np_sub a b) = Float64 x
        /\ x == (number a - number b) ^ 2).
Proof.
  intros Ha Hb.
  destruct (small_number a Ha) as (Hva & _).
  destruct (small_number b Hb) as (Hvb & _).
  destruct a as [x|x|]; [| |discriminate Hva];
    (destruct b as [y|y|]; [| |discriminate Hvb]);
    try (right; eexists; split; [reflexivity|]; cbn; reflexivity).
  left. apply small_Int64 in Ha, Hb.
  exists ((x - y) ^ 2)%Z.
  assert (- 2 ^ 31 < x - y < 2 ^ 31)%Z as Hd by lia.
  assert (0 <= (x - y) ^ 2 < 2 ^ 62)%Z as Hs by nia.
  split; [|split; [|exact Hs]].
  - unfold np_sub, np_arith, np_square.
    rewrite (wrap_int64_small (x - y)) by lia.
    rewrite wrap_int64_small by lia. reflexivity.
  - unfold number. cbn [value].
    assert (inject_Z x - inject_Z y == inject_Z (x - y)) as ->
      by (unfold Z.sub; rewrite inject_Z_plus, inject_Z_opp; reflexivity).
    replace ((x - y) ^ 2)%Z with ((x - y) * (x - y))%Z by ring.
    rewrite inject_Z_mult. simpl Qpower. reflexivity.
Qed.

(** The squared distance of two small rows is the exact one. *)
Lemma dist_2_exact (p q : cone) :
  small_row p -> small_row q ->
  exists d, value (dist_2 p q) = Some d /\ d == distance p q.
Proof.
  intros [Hpx Hpy] [Hqx Hqy]. unfold dist_2, distance.
  destruct (square_sub_exact _ _ Hqx Hpx) as [(s & -> & Hs & Hsb)|(x & -> & Hx)];
    destruct (square_sub_exact _ _ Hqy Hpy)
      as [(s' & -> & Hs' & Hsb')|(x' & -> & Hx')].
  - exists (inject_Z (s + s')). split.
    + unfold np_add, np_arith. rewrite wrap_int64_small by lia. reflexivity.
    + rewrite inject_Z_plus, Hs, Hs'. reflexivity.
  - eexists. split; [reflexivity|]. rewrite Hs, Hx'. reflexivity.
  - eexists. split; [reflexivity|]. rewrite Hx, Hs'. reflexivity.
  - eexists. split; [reflexivity|]. rewrite Hx, Hx'. reflexivity.
Qed.

Lemma dist_2_number (p q : cone) :
  small_row p -> small_row q ->
  value (dist_2 p q) <> None /\ number (dist_2 p q) == distance p q.
Proof.
  intros Hp Hq. destruct (dist_2_exact p q Hp Hq) as (d & Hd & Heq).
  unfold number. rewrite Hd. split; [discriminate|exact Heq].
Qed.


(** [np.argmin] and [np.min] scan alike: the minimum is the entry at the
    index that [np.argmin] returns. *)
Lemma scan_lockstep (l : list entry) (best_index i : nat) (best : entry) :
  let k := argmin_from best_index best i l in
  let m := foldl (fun best d => if takes_over d best then d else best) best l in
  (k = best_index /\ m = best)
  \/ (exists j : nat, k = (i + j)%nat /\ l !! j = Some m).
Proof.
  revert best_index i best.
  induction l as [|d l IH]; intros best_index i best;
    cbn [argmin_from foldl].
  - left. split; reflexivity.
  - destruct (takes_over d best).
    + destruct (IH i (S i) d) as [[Hk Hm]|(j & Hk & Hj)].
      * right. exists 0%nat. rewrite Hk, Hm. split; [lia|reflexivity].
      * right. exists (S j). split; [lia|exact Hj].
    + destruct (IH best_index (S i) best) as [[Hk Hm]|(j & Hk & Hj)].
      * left. split; assumption.
      * right. exists (S j). split; [lia|exact Hj].
Qed.

Lemma np_min_at_argmin (l : list entry) :
  l <> [] ->
  exists (k : nat) (m : entry),
    argmin l = Ok k /\ np_min l = Ok m /\ l !! k = Some m.
Proof.
  destruct l as [|d l]; [contradiction|]. intros _.
  unfold argmin, np_min. eexists _, _.
  split; [reflexivity|]. split; [reflexivity|].
  destruct (scan_lockstep l 0 1 d) as [[-> ->]|(j & -> & Hj)];
    [reflexivity|exact Hj].
Qed.

Lemma takes_over_numbers (d best : entry) :
  value d <> None -> value best <> None ->
  takes_over d best = true <-> number d < number best.
Proof.
  unfold takes_over, number.
  destruct (value best) as [b|]; [|contradiction].
  destruct (value d) as [x|]; [|contradiction]. intros _ _.
  rewrite negb_true_iff. split.
  - intros H. apply Qnot_le_lt. intros Hle.
    apply Qle_bool_iff in Hle. congruence.
  - intros H. destruct (Qle_bool b x) eqn:Hle; [|reflexivity].
    apply Qle_bool_iff in Hle. lra.
Qed.

(** Among numbers the scan ends on a least one. *)
Lemma scan_least (l : list entry) (best : entry) :
  value best <> None -> Forall (fun d => value d <> None) l ->
  let m := foldl (fun best d => if takes_over d best then d else best) best l in
  number m <= number best /\ Forall (fun d => number m <= number d) l.
Proof.
  revert best. induction l as [|d l IH]; intros best Hbest Hall;
    cbn [foldl].
  - split; [lra|constructor].
  - inversion Hall as [|? ? Hd Hl]; subst.
    pose proof (takes_over_numbers d best Hd Hbest) as Hless.
    destruct (takes_over d best).
    + destruct (IH d Hd Hl) as [H1 H2].
      assert (number d < number best) by now apply Hless.
      split; [lra|]. constructor; assumption.
    + destruct (IH best Hbest Hl) as [H1 H2].
      assert (~ number d < number best) as Hge
        by (intros H; apply Hless in H; discriminate H).
      split; [exact H1|]. constructor; [lra|exact H2].
Qed.

Lemma np_min_least (l : list entry) (m : entry) :
  Forall (fun d => value d <> None) l -> np_min l = Ok m ->
  Forall (fun d => number m <= number d) l.
Proof.
  destruct l as [|d l]; [discriminate|].
  intros Hall [= <-]. inversion Hall as [|? ? Hd Hl]; subst.
  destruct (scan_least l d Hd Hl) as [H1 H2].
  constructor; assumption.
Qed.

Lemma find_closest_cases (p : cone) (ps : list cone) :
  (forall (q : cone) (d : entry),
      find_closest p ps = Ok (q, d) ->
      In q ps /\ independent p q /\ d = dist_2 p q
      /\ (small_row p -> Forall small_row ps ->
          forall q', In q' ps -> independent p q' ->
                     distance p q <= distance p q'))
  /\ (forall e : exn,
        find_closest p ps = Raise e ->
        e = ValueError /\ forall q, In q ps -> ~ independent p q)
  /\ ((exists q, In q ps /\ independent p q) ->
      exists q d, find_closest p ps = Ok (q, d)).
Proof.
  unfold find_closest. cbv zeta.
  destruct (remove_point p ps) as [|q0 rest] eqn:Hrem.
  - split; [|split].
    + intros q d H. discriminate.
    + intros e [= <-]. split; [reflexivity|].
      intros q Hq Hind.
      assert (In q (remove_point p ps)) as Hin
        by (apply remove_point_spec; now split).
      rewrite Hrem in Hin. destruct Hin.
    + intros (q & Hq & Hind).
      assert (In q (remove_point p ps)) as Hin
        by (apply remove_point_spec; now split).
      rewrite Hrem in Hin. destruct Hin.
  - destruct (np_min_at_argmin (map (dist_2 p) (q0 :: rest)))
      as (k & m & Harg & Hmin & Hk); [discriminate|].
    rewrite Harg. cbn [bind].
    change (map (dist_2 p) (q0 :: rest)) with (dist_2 p <$> (q0 :: rest))
      in Hk.
    rewrite list_lookup_fmap in Hk.
    destruct ((q0 :: rest) !! k) as [q|] eqn:Hq; [|discriminate].
    injection Hk as <-.
    unfold py_index. rewrite Hq. cbn [bind].
    rewrite Hmin. cbn [bind].
    assert (In q (remove_point p ps)) as Hin.
    { rewrite Hrem. apply list_elem_of_In.
      eapply list_elem_of_lookup_2. exact Hq. }
    apply remove_point_spec in Hin as [Hin Hind].
    split; [|split].
    + intros q' d [= <- <-].
      split; [exact Hin|]. split; [exact Hind|]. split; [reflexivity|].
      intros Hp Hps q' Hq' Hind'.
      assert (forall c, In c ps -> small_row c) as Hsmall.
      { intros c Hc. rewrite Forall_forall in Hps.
        apply Hps, list_elem_of_In, Hc. }
      assert (Forall (fun d => value d <> None)
                     (map (dist_2 p) (q0 :: rest))) as Hnum.
      { apply List.Forall_forall. intros d Hd.
        apply in_map_iff in Hd as (c & <- & Hc).
        rewrite <- Hrem in Hc. apply remove_point_spec in Hc as [Hc _].
        now apply dist_2_number; [|apply Hsmall]. }
      pose proof (np_min_least _ _ Hnum Hmin) as Hleast.
      rewrite List.Forall_forall in Hleast.
      assert (In (dist_2 p q') (map (dist_2 p) (q0 :: rest))) as Hd.
      { apply in_map. rewrite <- Hrem. apply remove_point_spec.
        now split. }
      specialize (Hleast _ Hd).
      destruct (dist_2_number p q Hp (Hsmall q Hin)) as [_ H1].
      destruct (dist_2_number p q' Hp (Hsmall q' Hq')) as [_ H2].
      lra.
    + intros e H. discriminate.
    + intros _. eexists _, _. reflexivity.
Qed.


(** The model shows the wrap-around: for [int64] rows the far row wins with
    a negative squared distance. *)
Example find_closest_int64_wraps :
  find_closest (Int64 0, Int64 0)
               [(Int64 3037000500, Int64 1); (Int64 5, Int64 5)]
  = Ok ((Int64 3037000500, Int64 1), Int64 (-9223372036709301615)).
Proof. vm_compute. reflexivity. Qed.

Lemma filter_shrinks {A : Type} (keep : A -> bool) (i : A) (l : list A) :
  keep i = false -> In i l ->
  (length (List.filter keep l) < length l)%nat.
Proof.
  intros Hi Hin. induction l as [|q l IH]; [destruct Hin|].
  simpl. destruct Hin as [->|Hin].
  - rewrite Hi. pose proof (filter_length_le keep l). lia.
  - specialize (IH Hin). destruct (keep q); simpl; lia.
Qed.

(** A row with a number in it does not differ from itself in both entries:
    [remove_point] removes it. *)
Lemma remove_point_shrinks (i : cone) (points : list cone) :
  has_number i -> In i points ->
  (length (remove_point i points) < length points)%nat.
Proof.
  intros Hnum Hin. unfold remove_point.
  apply (filter_shrinks _ i); [|exact Hin].
  cbv beta. apply andb_false_iff. unfold np_ne.
  destruct Hnum as [Hx|Hy].
  - left. destruct (value (fst i)) as [x|]; [|contradiction].
    now rewrite Qeq_bool_refl.
  - right. destruct (value (snd i)) as [y|]; [|contradiction].
    now rewrite Qeq_bool_refl.
Qed.

Lemma remove_point_has_number (i : cone) (points : list cone) :
  Forall has_number points -> Forall has_number (remove_point i points).
Proof.
  rewrite !List.Forall_forall. intros Hall c Hc.
  apply remove_point_spec in Hc as [Hc _]. now apply Hall.
Qed.

Lemma order_loop_fuel (fuel : nat) (current_point : cone)
    (points ordered : list cone) :
  Forall has_number points ->
  (length points <= fuel)%nat ->
  exists r, order_loop fuel current_point points ordered = Some r.
Proof.
  revert current_point points ordered.
  induction fuel as [|fuel IH]; intros cur points ordered Hnum Hlen.
  - destruct points; [|simpl in Hlen; lia]. eexists. reflexivity.
  - destruct points as [|q points']; [eexists; reflexivity|].
    cbn [order_loop].
    destruct (find_closest cur (q :: points')) as [[i d]|e] eqn:Hfc;
      [|eexists; reflexivity].
    apply find_closest_cases in Hfc as (Hin & _).
    apply IH; [now apply remove_point_has_number|].
    assert (has_number i) as Hi
      by (rewrite List.Forall_forall in Hnum; now apply Hnum).
    pose proof (remove_point_shrinks i _ Hi Hin). simpl in *. lia.
Qed.

(** A row [(nan, nan)] differs from every row, itself included: once it is
    the only row left, no number of rounds ends the loop. *)
Lemma order_loop_nan_row (fuel : nat) (current_point : cone)
    (ordered : list cone) :
  order_loop fuel current_point [(NaN, NaN)] ordered = None.
Proof.
  revert current_point ordered.
  induction fuel as [|fuel IH]; intros [cx cy] ordered; [reflexivity|].
  cbn [order_loop]. apply IH.
Qed.

Lemma last_cons_default {A : Type} (a d : A) (l : list A) :
  List.last (a :: l) d = List.last l a.
Proof.
  revert a d. induction l as [|b l IH]; intros a d; [reflexivity|].
  change (List.last (a :: b :: l) d) with (List.last (b :: l) d).
  rewrite (IH b d). symmetry. apply (IH b a).
Qed.

Lemma order_loop_shape (fuel : nat) (current_point : cone)
    (points ordered out : list cone) :
  order_loop fuel current_point points ordered = Some (Ok out) ->
  exists chosen,
    out = ordered ++ chosen ++ [List.last chosen current_point]
    /\ Forall (fun c => In c points) chosen
    /\ ForallOrdPairs independent chosen
    /\ match chosen with
       | [] => points = []
       | c :: _ => independent current_point c
       end.
Proof.
  revert current_point points ordered.
  induction fuel as [|fuel IH]; intros cur points ordered.
  - destruct points; [|discriminate]. intros [= <-].
    exists []. repeat split; constructor.
  - destruct points as [|q points'].
    + intros [= <-]. exists []. repeat split; constructor.
    + cbn [order_loop].
      destruct (find_closest cur (q :: points')) as [[i d]|e] eqn:Hfc;
        [|discriminate].
      apply find_closest_cases in Hfc as (Hin & Hind & _).
      intros Hrec. apply IH in Hrec as (chosen & -> & Hmem & Hpairs & Hhead).
      exists (i :: chosen).
      split; [|split; [|split]].
      * rewrite last_cons_default, <- !app_assoc. reflexivity.
      * constructor; [exact Hin|].
        eapply Forall_impl; [exact Hmem|].
        intros c Hc. apply remove_point_spec in Hc. tauto.
      * constructor; [|exact Hpairs].
        eapply Forall_impl; [exact Hmem|].
        intros c Hc. apply remove_point_spec in Hc. tauto.
      * exact Hind.
Qed.

Lemma order_loop_raises (fuel : nat) (current_point : cone)
    (points ordered : list cone) (e : exn) :
  order_loop fuel current_point points ordered = Some (Raise e) ->
  e = ValueError.
Proof.
  revert current_point points ordered.
  induction fuel as [|fuel IH]; intros cur points ordered.
  - destruct points; cbn [order_loop]; intros H; discriminate H.
  - destruct points as [|q points']; cbn [order_loop];
      [intros H; discriminate H|].
    destruct (find_closest cur (q :: points')) as [[i d]|e'] eqn:Hfc.
    + apply IH.
    + intros [= <-]. now apply find_closest_cases in Hfc.
Qed.

(** X28.  For an array without a row [(nan, nan)], [order_points]
    ends: with [IndexError] on an empty array, else with [ValueError] or with
    a list that starts with the first row, continues with rows of the input
    that pairwise differ in both entries, and ends with the last of them once
    more. *)
Theorem order_points_shape (points : list cone) :
  Forall has_number points ->
  exists r,
    order_points points = Some r
    /\ (points = [] -> r = Raise IndexError)
    /\ (forall e, r = Raise e -> points <> [] -> e = ValueError)
    /\ (forall out,
          r = Ok out ->
          exists first rest chosen,
            points = first :: rest
            /\ out = first :: chosen ++ [List.last chosen first]
            /\ Forall (fun c => In c rest) chosen
            /\ ForallOrdPairs independent chosen).
Proof.
  intros Hnum. destruct points as [|first rest].
  - eexists. split; [reflexivity|]. split; [reflexivity|].
    split; [intros e _ H; contradiction|intros out H; discriminate H].
  - cbn [order_points].
    destruct (order_loop_fuel (length rest) first rest [first]) as [r Hr];
      [now inversion Hnum|lia|].
    exists r. split; [exact Hr|]. split; [intros H; discriminate H|]. split.
    + intros e -> _. exact (order_loop_raises _ _ _ _ _ Hr).
    + intros out ->.
      apply order_loop_shape in Hr as (chosen & -> & Hmem & Hpairs & _).
      exists first, rest, chosen. repeat split; assumption.
Qed.

Lemma order_points_shape_witness :
  exists r,
    order_points sample_cones = Some r
    /\ (sample_cones = [] -> r = Raise IndexError)
    /\ (forall e, r = Raise e -> sample_cones <> [] -> e = ValueError)
    /\ (forall out,
          r = Ok out ->
          exists first rest chosen,
            sample_cones = first :: rest
            /\ out = first :: chosen ++ [List.last chosen first]
            /\ Forall (fun c => In c rest) chosen
            /\ ForallOrdPairs independent chosen).
Proof.
  apply (order_points_shape sample_cones).
  repeat (apply List.Forall_cons; [left; discriminate|]).
  apply List.Forall_nil.
Defined.

(** X29.  When every other row shares its x or its y with the first row
    (cones on one axis-parallel line, say), [order_points] raises
    [ValueError]. *)
Theorem order_points_axis_aligned_raises (first : cone) (rest : list cone) :
  rest <> [] ->
  Forall (fun q => np_ne (fst q) (fst first) = false
                   \/ np_ne (snd q) (snd first) = false) rest ->
  order_points (first :: rest) = Some (Raise ValueError).
Proof.
  intros Hne Hall. cbn [order_points].
  destruct rest as [|q rest']; [contradiction|].
  cbn [length order_loop].
  destruct (find_closest first (q :: rest')) as [[i d]|e] eqn:Hfc.
  - apply find_closest_cases in Hfc as (Hin & [Hx Hy] & _).
    rewrite Forall_forall in Hall.
    apply list_elem_of_In in Hin. destruct (Hall i Hin); congruence.
  - apply find_closest_cases in Hfc as [-> _]. reflexivity.
Qed.

Lemma order_points_axis_aligned_raises_witness :
  order_points [(Float64 0, Float64 0); (Float64 5, Float64 0);
                (Float64 10, Float64 0); (Float64 15, Float64 0)]
  = Some (Raise ValueError).
Proof.
  apply (order_points_axis_aligned_raises
           (Float64 0, Float64 0)
           [(Float64 5, Float64 0); (Float64 10, Float64 0);
            (Float64 15, Float64 0)]).
  - discriminate.
  - repeat constructor; right; reflexivity.
Defined.


End TrackGen.
